(** * Pool quoting engine of berancer-sdk: stable and linear pools

    A shallow embedding of
      - [src/entities/pools/stable/index.ts]  (StablePoolToken, BPT, StablePool),
      - the linear pool module (BPT, WrappedToken, Params, LinearPool),
      - [src/utils/pool.ts]                    (getPoolAddress),
    together with the properties stated about them.

    JavaScript [bigint] is arbitrary precision: it is [Z], and its division
    truncates toward zero ([Z.quot], written [÷]).  Exceptions are values of
    [error] carried by the [result] monad.  Arrays are objects with identity:
    the code that sorts, copies or splices them runs in a state monad over a
    store of arrays. *)

From Stdlib Require Import Ascii String.
From stdpp Require Import base numbers strings list gmap sorting.

Open Scope Z_scope.

(* ================================================================== *)
(** * Exceptions and the error monad *)
(* ================================================================== *)

Inductive error : Set :=
| PoolDoesNotContainTokens  (* Error('Pool does not contain the tokens provided') *)
| ExceedsPoolLimit          (* Error('Swap amount exceeds the pool limit') *)
| NoPriceRate               (* Error('Stable pool token does not have a price rate') *)
| InvalidPoolId             (* tiny-invariant: 'Invalid poolId length' *)
| TypeError                 (* a property read on undefined, bigint mixed with undefined *)
| RangeError                (* bigint division by zero, negative bigint exponent *)
| SyntaxError               (* a string that does not parse as a number *)
| InvalidAmount             (* a TokenAmount built from a negative raw amount *)
| InsufficientAmount        (* a TokenAmount subtraction that underflows *)
| InvariantDidNotConverge   (* the stable invariant solver ran out of iterations *)
| OutOfBounds               (* linear pool: a trade crossing both targets *)
| MathError (code : Z).     (* any other failure raised inside a math routine *)

Inductive result (A : Type) : Type :=
| Ok (a : A)
| Err (e : error).
Arguments Ok {A} a.
Arguments Err {A} e.

#[global] Instance result_ret : MRet result := @Ok.
#[global] Instance result_bind : MBind result :=
  λ A B f m, match m with Ok a => f a | Err e => Err e end.

Definition failed {A} (r : result A) : Prop := ∃ e, r = Err e.

Definition isOk {A} (r : result A) : bool :=
  match r with Ok _ => true | Err _ => false end.

(** [a / b] on bigints. *)
Definition bigdiv (a b : Z) : result Z :=
  if decide (b = 0) then Err RangeError else Ok (a ÷ b).

(* ================================================================== *)
(** * Arrays *)
(* ================================================================== *)

(** [arr.findIndex(f)]: the first position satisfying [f], or -1. *)
Fixpoint findIndex {A} (f : A → bool) (l : list A) : Z :=
  match l with
  | [] => -1
  | x :: l' => if f x then 0 else
                 let i := findIndex f l' in if i <? 0 then -1 else i + 1
  end.

(** [arr.find(f)], the first element satisfying [f] or undefined, is
    [List.find]. *)

(** [arr[i]] for a number [i]: undefined outside [0 .. length-1]. *)
Definition at_index {A} (l : list A) (i : Z) : option A :=
  if i <? 0 then None else l !! Z.to_nat i.

(** Reading a property of [arr[i]] throws a TypeError on undefined. *)
Definition defined {A} (o : option A) : result A :=
  match o with Some x => Ok x | None => Err TypeError end.

(** The content of an array after [arr.splice(start, 1)]: a negative
    [start] counts from the end. *)
Definition splice1 {A} (start : Z) (l : list A) : list A :=
  let len := Z.of_nat (length l) in
  let s := if start <? 0 then Z.max (len + start) 0 else Z.min start len in
  take (Z.to_nat s) l ++ drop (S (Z.to_nat s)) l.

(** The content of an array after [arr[i] = x], for [i] below the length:
    a negative [i] sets a property of the object and no element. *)
Definition assign_at {A} (l : list A) (i : Z) (x : A) : list A :=
  if i <? 0 then l else <[Z.to_nat i := x]> l.

(* ================================================================== *)
(** * Fixed-point arithmetic *)
(* ================================================================== *)

Definition WAD : Z := 10 ^ 18.

(** Modelled from the spec: the MathSol class of [utils] is not under src/.
    Section 4.1: products and quotients of WAD-scaled integers, rounded
    toward zero (Down) or toward +infinity (Up) as the on-chain library does;
    [complement x = WAD - x], saturating at zero. *)
Module MathSol.

Definition mulDownFixed (a b : Z) : Z := (a * b) ÷ WAD.

Definition mulUpFixed (a b : Z) : Z :=
  let product := a * b in
  if product =? 0 then 0 else (product - 1) ÷ WAD + 1.

Definition divDownFixed (a b : Z) : result Z :=
  if b =? 0 then Err RangeError
  else if a =? 0 then Ok 0
  else Ok ((a * WAD) ÷ b).

Definition divUpFixed (a b : Z) : result Z :=
  if b =? 0 then Err RangeError
  else if a =? 0 then Ok 0
  else Ok ((a * WAD - 1) ÷ b + 1).

Definition divUp (a b : Z) : result Z :=
  if b =? 0 then Err RangeError
  else if a =? 0 then Ok 0
  else Ok (1 + (a - 1) ÷ b).

Definition complementFixed (x : Z) : Z :=
  if x <? WAD then WAD - x else 0.

End MathSol.

(* ================================================================== *)
(** * Tokens and token amounts *)
(* ================================================================== *)

(** Modelled from the spec: the Token class of [entities] is not under src/.
    Section 3: chain identifier, address, decimal precision and optional
    display metadata; equality is by (chain, address). *)
Record Token : Type := mkToken {
  chainId : Z;
  address : string;
  decimals : Z;
  symbol : option string;
  name : option string;
}.

Definition isEqual (t u : Token) : bool :=
  (chainId t =? chainId u) && String.eqb (address t) (address u).

(** [t.token.address === tokenIn.address] *)
Definition sameAddress (a b : string) : bool := String.eqb a b.

(** Modelled from the spec: the TokenAmount class of [entities] is not under
    src/.  Sections 3 and 4.2: a raw amount in the token's decimals; its
    18-decimal value is [raw * 10^(18-decimals)] at the default rate; the
    fixed-point operators run section 4.1 on the 18-decimal value and convert
    back to a raw amount in the direction of the operator; a negative raw
    amount is InvalidAmount, an underflowing subtraction InsufficientAmount. *)
Record TokenAmount : Type := mkTokenAmount {
  token : Token;
  amount : Z;
}.

Module TokenAmount.

Definition scalar (t : Token) : Z := 10 ^ (18 - decimals t).

Definition scale18 (a : TokenAmount) : Z := amount a * scalar (token a).

(** [new TokenAmount(token, amount)] *)
Definition new (t : Token) (raw : Z) : result TokenAmount :=
  if 18 <? decimals t then Err RangeError
  else if raw <? 0 then Err InvalidAmount
  else Ok (mkTokenAmount t raw).

Definition fromRawAmount (t : Token) (raw : Z) : result TokenAmount :=
  new t raw.

(** [fromScale18Amount(token, scale18Amount, divUp?)] *)
Definition fromScale18Amount (t : Token) (scale18Amount : Z) (up : bool)
  : result TokenAmount :=
  raw ← (if up then MathSol.divUp scale18Amount (scalar t)
         else bigdiv scale18Amount (scalar t));
  new t raw.

Definition sub (a b : TokenAmount) : result TokenAmount :=
  if scale18 a <? scale18 b then Err InsufficientAmount
  else fromScale18Amount (token a) (scale18 a - scale18 b) false.

Definition mulUpFixed (a : TokenAmount) (x : Z) : result TokenAmount :=
  fromScale18Amount (token a) (MathSol.mulUpFixed (scale18 a) x) true.

Definition mulDownFixed (a : TokenAmount) (x : Z) : result TokenAmount :=
  fromScale18Amount (token a) (MathSol.mulDownFixed (scale18 a) x) false.

Definition divUpFixed (a : TokenAmount) (x : Z) : result TokenAmount :=
  n ← MathSol.divUpFixed (scale18 a) x;
  fromScale18Amount (token a) n true.

Definition divDownFixed (a : TokenAmount) (x : Z) : result TokenAmount :=
  n ← MathSol.divDownFixed (scale18 a) x;
  fromScale18Amount (token a) n false.

End TokenAmount.

(* ================================================================== *)
(** * Parsers, constants and raw pool records *)
(* ================================================================== *)

(** The string parsers of [utils] and of the bigint runtime are not under
    src/: they are parameters of the development.
    [parseUnits s d] is the raw amount of the human decimal string [s] for a
    token of [d] decimals, as [TokenAmount.fromHumanAmount] computes it. *)
Class Parsers : Type := {
  unsafeFastParseEther : string → result Z;
  parseUnits : string → Z → result Z;
  toBigInt : string → result Z;           (* BigInt(s) *)
}.

(** The constants of [utils] are not under src/. *)
Class Constants : Type := {
  PREMINTED_STABLE_BPT : Z;
  MAX_UINT112 : Z;
}.

Module TokenAmountParse.
(** Modelled from the spec: [TokenAmount.fromHumanAmount] is not under
    src/.  Section 4.2: [fromHuman(token, decimalString)]. *)
Definition fromHumanAmount `{Parsers} (t : Token) (human : string)
  : result TokenAmount :=
  raw ← parseUnits human (decimals t);
  TokenAmount.new t raw.
End TokenAmountParse.

(** One entry of [pool.tokens] in a raw pool record (the types of
    [data/types] are not under src/; the fields are those the factories
    read). *)
Record RawToken : Type := mkRawToken {
  rt_address : string;
  rt_decimals : Z;
  rt_symbol : option string;
  rt_name : option string;
  rt_balance : string;
  rt_index : Z;
  rt_priceRate : option string;
}.

(** [!t.priceRate]: undefined and the empty string are falsy. *)
Definition truthy (s : option string) : option string :=
  match s with
  | Some EmptyString => None
  | other => other
  end.

(** [tokens.sort((a, b) => a.index - b.index)]: the standard sort is stable;
    [sortByIndex] is the content of the array afterwards. *)
Fixpoint insertByIndex (x : RawToken) (l : list RawToken) : list RawToken :=
  match l with
  | [] => [x]
  | y :: l' => if rt_index x <=? rt_index y then x :: y :: l'
               else y :: insertByIndex x l'
  end.

Definition sortByIndex (l : list RawToken) : list RawToken :=
  foldr insertByIndex [] l.

(** [getPoolAddress] of [src/utils/pool.ts]. *)
Definition getPoolAddress (poolId : string) : result string :=
  if decide (String.length poolId = 66%nat) then Ok (String.substring 0 42 poolId)
  else Err InvalidPoolId.

(** [arr.map(f)] for a callback that may throw: left to right, stopping at
    the first exception. *)
Fixpoint mapM {A B} (f : A → result B) (l : list A) : result (list B) :=
  match l with
  | [] => Ok []
  | x :: l' => y ← f x; ys ← mapM f l'; Ok (y :: ys)
  end.

(* ================================================================== *)
(** * The store of arrays and its monad *)
(* ================================================================== *)

(** An array is an object: it lives at a location of the store and is shared
    by reference.  [M C A] is a computation over a store of cells [C] that
    returns an [A] or throws; what it wrote before throwing stays written. *)
Definition M (C A : Type) : Type := gmap nat C → result A * gmap nat C.

#[global] Instance M_ret {C} : MRet (M C) := λ A a h, (Ok a, h).
#[global] Instance M_bind {C} : MBind (M C) :=
  λ A B f m h, match m h with
               | (Ok a, h') => f a h'
               | (Err e, h') => (Err e, h')
               end.

Definition throw {C A} (e : error) : M C A := λ h, (Err e, h).

Definition liftR {C A} (r : result A) : M C A := λ h, (r, h).

(** A new array: a location not in use. *)
Definition allocArr {C} (c : C) : M C nat :=
  λ h, let l := fresh (dom h) in (Ok l, <[l := c]> h).

Definition readArr {C} (l : nat) : M C C :=
  λ h, match h !! l with
       | Some c => (Ok c, h)
       | None => (Err TypeError, h)
       end.

Definition writeArr {C} (l : nat) (c : C) : M C unit :=
  λ h, (Ok tt, <[l := c]> h).

(** The store is unchanged on every location in use before the run. *)
Definition preserves {C} (h h' : gmap nat C) : Prop :=
  ∀ l, l ∈ dom h → h' !! l = h !! l.

Inductive SwapKind : Set := GivenIn | GivenOut.

(* ================================================================== *)
(** * The stable pool: [src/entities/pools/stable/index.ts] *)
(* ================================================================== *)

(** The routines of [./math] are not under src/.  The swap formulas are
    parameters; each receives arrays and may write to them, so it returns its
    outcome together with the final content of every array it was handed.
    [newtonStep amp balances D] is one Newton update [D - f(D)/f'(D)] of the
    invariant equation and [maxIterations] the iteration budget. *)
Class StableMath : Type := {
  newtonStep : Z → list Z → Z → Z;
  maxIterations : nat;
  _calcOutGivenIn :
    Z → list Z → Z → Z → Z → Z → result Z * list Z;
  _calcInGivenOut :
    Z → list Z → Z → Z → Z → Z → result Z * list Z;
  _calcBptOutGivenExactTokensIn :
    Z → list Z → list Z → Z → Z → Z → result Z * (list Z * list Z);
  _calcTokenInGivenExactBptOut :
    Z → list Z → Z → Z → Z → Z → Z → result Z * list Z;
  _calcBptInGivenExactTokensOut :
    Z → list Z → list Z → Z → Z → Z → result Z * (list Z * list Z);
  _calcTokenOutGivenExactBptIn :
    Z → list Z → Z → Z → Z → Z → Z → result Z * list Z;
}.

Module Stable.

(** [unsafeFastParseEther('0.99')] *)
Definition ALMOST_ONE : Z := 990000000000000000.

(** [class StablePoolToken extends TokenAmount] *)
Record StablePoolToken : Type := mkStablePoolToken {
  spt_token : Token;
  spt_amount : Z;
  spt_rate : Z;
  spt_scale18 : Z;
}.

Definition newStablePoolToken (t : Token) (amt rate : Z)
  : result StablePoolToken :=
  super ← TokenAmount.new t amt;
  Ok {| spt_token := token super;
        spt_amount := amount super;
        spt_rate := rate;
        spt_scale18 :=
          (amount super * TokenAmount.scalar t * rate) ÷ WAD |}.

(** [class BPT extends TokenAmount] *)
Record BPT : Type := mkBPT {
  bpt_token : Token;
  bpt_amount : Z;
  bpt_rate : Z;
  bpt_virtualBalance : Z;
}.

Definition newBPT `{Constants} (t : Token) (amt : Z) : result BPT :=
  super ← TokenAmount.new t amt;
  Ok {| bpt_token := token super;
        bpt_amount := amount super;
        bpt_rate := WAD;
        bpt_virtualBalance := PREMINTED_STABLE_BPT - amount super |}.

(** An element of [tokens: (StablePoolToken | BPT)[]]. *)
Inductive PoolToken : Type :=
| IsToken (t : StablePoolToken)
| IsBPT (b : BPT).

Definition pt_token (t : PoolToken) : Token :=
  match t with IsToken s => spt_token s | IsBPT b => bpt_token b end.

Definition pt_amount (t : PoolToken) : Z :=
  match t with IsToken s => spt_amount s | IsBPT b => bpt_amount b end.

Definition pt_rate (t : PoolToken) : Z :=
  match t with IsToken s => spt_rate s | IsBPT b => bpt_rate b end.

(** [t.scale18]: a StablePoolToken computes it with its rate; a BPT inherits
    the plain 18-decimal amount of [TokenAmount]. *)
Definition pt_scale18 (t : PoolToken) : option Z :=
  match t with
  | IsToken s => Some (spt_scale18 s)
  | IsBPT b => Some (bpt_amount b * TokenAmount.scalar (bpt_token b))
  end.

(** The arrays the stable pool code handles. *)
Inductive cell : Type :=
| RawArr (l : list RawToken)
| TokArr (l : list PoolToken)
| NumArr (l : list Z).

Definition readRaw (l : nat) : M cell (list RawToken) :=
  c ← readArr l;
  match c with RawArr x => mret x | _ => throw TypeError end.

Definition readTok (l : nat) : M cell (list PoolToken) :=
  c ← readArr l;
  match c with TokArr x => mret x | _ => throw TypeError end.

(** [RawComposableStablePool]; [raw_tokens] is the reference held in
    [pool.tokens]. *)
Record RawComposableStablePool : Type := mkRawPool {
  raw_id : string;
  raw_address : string;
  raw_tokens : nat;
  raw_totalShares : string;
  raw_amp : string;
  raw_swapFee : string;
}.

(** [class StablePool]; [tokens] and [tokensNoBpt] hold references. *)
Record StablePool : Type := mkStablePool {
  id : string;
  poolAddress : string;
  amp : Z;
  swapFee : Z;
  tokens : nat;
  tokensNoBpt : nat;
  totalShares : Z;
  bptIndex : Z;
}.

Definition hasAddress (a : string) (t : PoolToken) : bool :=
  sameAddress (address (pt_token t)) a.

(** [constructor(id, amp, swapFee, tokens, totalShares)] *)
Definition constructor (id : string) (amp swapFee : Z) (tokens : nat)
    (totalShares : Z) : M cell StablePool :=
  this_address ← liftR (getPoolAddress id);
  ts ← readTok tokens;
  let bptIndex := findIndex (hasAddress this_address) ts in
  tokensNoBpt ← allocArr (TokArr ts);                  (* [...tokens] *)
  copy ← readTok tokensNoBpt;
  writeArr tokensNoBpt (TokArr (splice1 bptIndex copy));;
  mret {| id := id; poolAddress := this_address; amp := amp;
          swapFee := swapFee; tokens := tokens;
          tokensNoBpt := tokensNoBpt; totalShares := totalShares;
          bptIndex := bptIndex |}.

(** The callback of [orderedTokens.map] in [fromRawPool]. *)
Definition toPoolToken `{Parsers} `{Constants}
    (pool : RawComposableStablePool) (t : RawToken) : result PoolToken :=
  match truthy (rt_priceRate t) with
  | None => Err NoPriceRate
  | Some priceRate =>
      let tk := mkToken 1 (rt_address t) (rt_decimals t)
                        (rt_symbol t) (rt_name t) in
      tokenAmount ← TokenAmountParse.fromHumanAmount tk (rt_balance t);
      if String.eqb (rt_address t) (raw_address pool) then
        b ← newBPT tk (amount tokenAmount); Ok (IsBPT b)
      else
        rate ← unsafeFastParseEther priceRate;
        s ← newStablePoolToken tk (amount tokenAmount) rate; Ok (IsToken s)
  end.

(** [static fromRawPool(pool)] *)
Definition fromRawPool `{Parsers} `{Constants}
    (pool : RawComposableStablePool) : M cell StablePool :=
  unsorted ← readRaw (raw_tokens pool);
  writeArr (raw_tokens pool) (RawArr (sortByIndex unsorted));;
  let orderedTokens := raw_tokens pool in      (* sort returns its array *)
  ordered ← readRaw orderedTokens;
  mapped ← liftR (mapM (toPoolToken pool) ordered);
  poolTokens ← allocArr (TokArr mapped);
  totalShares ← liftR (unsafeFastParseEther (raw_totalShares pool));
  amp ← liftR (a ← toBigInt (raw_amp pool); Ok (a * 1000));
  fee ← liftR (unsafeFastParseEther (raw_swapFee pool));
  constructor (raw_id pool) amp fee poolTokens totalShares.

(** Modelled from the spec: [_calculateInvariant] of [./math] is not under
    src/.  Section 4.5: start from the sum of the balances, iterate the
    Newton update, stop when two successive iterates differ by at most one
    unit; running out of the iteration budget is InvariantDidNotConverge. *)
Fixpoint newton (step : Z → Z) (fuel : nat) (D : Z) : result Z :=
  match fuel with
  | O => Err InvariantDidNotConverge
  | S fuel' =>
      let D' := step D in
      if Z.abs (D' - D) <=? 1 then Ok D' else newton step fuel' D'
  end.

Definition _calculateInvariant `{StableMath} (amp : Z) (balances : list Z)
  : result Z :=
  newton (newtonStep amp balances) maxIterations (foldr Z.add 0 balances).

(** [this.tokensNoBpt.map(t => t.scale18)] *)
Definition scale18s (tokensNoBpt : list PoolToken) : result (list Z) :=
  mapM (λ t, defined (pt_scale18 t)) tokensNoBpt.

(** A math routine returns: the arrays it was handed hold what it left in
    them, and its outcome is returned or thrown. *)
Definition handBack1 (balances : nat) (out : result Z * list Z)
  : M cell Z :=
  writeArr balances (NumArr out.2);;
  liftR out.1.

Definition handBack2 (balances amounts : nat)
    (out : result Z * (list Z * list Z)) : M cell Z :=
  writeArr balances (NumArr out.2.1);;
  writeArr amounts (NumArr out.2.2);;
  liftR out.1.

(** [subtractSwapFeeAmount(amount)] *)
Definition subtractSwapFeeAmount (p : StablePool) (a : TokenAmount)
  : result TokenAmount :=
  feeAmount ← TokenAmount.mulUpFixed a (swapFee p);
  TokenAmount.sub a feeAmount.

(** [addSwapFeeAmount(amount)] *)
Definition addSwapFeeAmount (p : StablePool) (a : TokenAmount)
  : result TokenAmount :=
  TokenAmount.divUpFixed a (MathSol.complementFixed (swapFee p)).

(** The [if / else if / else] of [swapGivenIn] that sets
    [tokenOutScale18]. *)
Definition tokenOutScale18 `{StableMath} (p : StablePool)
    (tokenIn tokenOut bpt : Token) (balancesNoBpt : list Z) (len : nat)
    (tInIndexNoBpt tOutIndexNoBpt amountIn18 invariant : Z) : M cell Z :=
  if isEqual tokenIn bpt then
    copy ← allocArr (NumArr balancesNoBpt);
    handBack1 copy
      (_calcTokenOutGivenExactBptIn (amp p) balancesNoBpt tOutIndexNoBpt
         amountIn18 (totalShares p) invariant (swapFee p))
  else if isEqual tokenOut bpt then
    amountsIn ← allocArr (NumArr (replicate len 0));
    let filled := assign_at (replicate len 0) tInIndexNoBpt amountIn18 in
    writeArr amountsIn (NumArr filled);;
    copy ← allocArr (NumArr balancesNoBpt);
    handBack2 copy amountsIn
      (_calcBptOutGivenExactTokensIn (amp p) balancesNoBpt filled
         (totalShares p) invariant (swapFee p))
  else
    copy ← allocArr (NumArr balancesNoBpt);
    handBack1 copy
      (_calcOutGivenIn (amp p) balancesNoBpt tInIndexNoBpt tOutIndexNoBpt
         amountIn18 invariant).

(** [swapGivenIn(tokenIn, tokenOut, swapAmount)] *)
Definition swapGivenIn `{StableMath} (p : StablePool)
    (tokenIn tokenOut : Token) (swapAmount : TokenAmount)
  : M cell TokenAmount :=
  ts ← readTok (tokens p);
  let tInIndex := findIndex (hasAddress (address tokenIn)) ts in
  let tOutIndex := findIndex (hasAddress (address tokenOut)) ts in
  if (tInIndex <? 0) || (tOutIndex <? 0) then throw PoolDoesNotContainTokens
  else
  tIn ← liftR (defined (at_index ts tInIndex));
  if pt_amount tIn <? amount swapAmount then throw ExceedsPoolLimit
  else
  noBpt ← readTok (tokensNoBpt p);
  let tInIndexNoBpt := findIndex (hasAddress (address tokenIn)) noBpt in
  let tOutIndexNoBpt := findIndex (hasAddress (address tokenOut)) noBpt in
  amountInWithFee ← liftR (subtractSwapFeeAmount p swapAmount);
  amountInWithRate ←
    liftR (TokenAmount.mulDownFixed amountInWithFee (pt_rate tIn));
  bs ← liftR (scale18s noBpt);
  balancesNoBpt ← allocArr (NumArr bs);
  invariant ← liftR (_calculateInvariant (amp p) bs);
  bpt ← liftR (defined (at_index ts (bptIndex p)));
  out18 ← tokenOutScale18 p tokenIn tokenOut (pt_token bpt) bs
            (length noBpt) tInIndexNoBpt tOutIndexNoBpt
            (TokenAmount.scale18 amountInWithRate) invariant;
  amountOut ← liftR (TokenAmount.fromScale18Amount tokenOut out18 false);
  tOut ← liftR (defined (at_index ts tOutIndex));
  liftR (TokenAmount.divDownFixed amountOut (pt_rate tOut)).

(** The [if / else if / else] of [swapGivenOut] that sets
    [tokenInScale18]. *)
Definition tokenInScale18 `{StableMath} (p : StablePool)
    (tokenIn tokenOut bpt : Token) (balancesNoBpt : list Z) (len : nat)
    (tInIndexNoBpt tOutIndexNoBpt amountOut18 invariant : Z) : M cell Z :=
  if isEqual tokenIn bpt then
    amountsOut ← allocArr (NumArr (replicate len 0));
    let filled := assign_at (replicate len 0) tOutIndexNoBpt amountOut18 in
    writeArr amountsOut (NumArr filled);;
    copy ← allocArr (NumArr balancesNoBpt);
    handBack2 copy amountsOut
      (_calcBptInGivenExactTokensOut (amp p) balancesNoBpt filled
         (totalShares p) invariant (swapFee p))
  else if isEqual tokenOut bpt then
    copy ← allocArr (NumArr balancesNoBpt);
    handBack1 copy
      (_calcTokenInGivenExactBptOut (amp p) balancesNoBpt tInIndexNoBpt
         amountOut18 (totalShares p) invariant (swapFee p))
  else
    copy ← allocArr (NumArr balancesNoBpt);
    handBack1 copy
      (_calcInGivenOut (amp p) balancesNoBpt tInIndexNoBpt tOutIndexNoBpt
         amountOut18 invariant).

(** [swapGivenOut(tokenIn, tokenOut, swapAmount)] *)
Definition swapGivenOut `{StableMath} (p : StablePool)
    (tokenIn tokenOut : Token) (swapAmount : TokenAmount)
  : M cell TokenAmount :=
  ts ← readTok (tokens p);
  let tInIndex := findIndex (hasAddress (address tokenIn)) ts in
  let tOutIndex := findIndex (hasAddress (address tokenOut)) ts in
  if (tInIndex <? 0) || (tOutIndex <? 0) then throw PoolDoesNotContainTokens
  else
  tOut ← liftR (defined (at_index ts tOutIndex));
  if pt_amount tOut <? amount swapAmount then throw ExceedsPoolLimit
  else
  noBpt ← readTok (tokensNoBpt p);
  let tInIndexNoBpt := findIndex (hasAddress (address tokenIn)) noBpt in
  let tOutIndexNoBpt := findIndex (hasAddress (address tokenOut)) noBpt in
  amountOutWithRate ←
    liftR (TokenAmount.mulDownFixed swapAmount (pt_rate tOut));
  bs ← liftR (scale18s noBpt);
  balancesNoBpt ← allocArr (NumArr bs);
  invariant ← liftR (_calculateInvariant (amp p) bs);
  bpt ← liftR (defined (at_index ts (bptIndex p)));
  in18 ← tokenInScale18 p tokenIn tokenOut (pt_token bpt) bs
           (length noBpt) tInIndexNoBpt tOutIndexNoBpt
           (TokenAmount.scale18 amountOutWithRate) invariant;
  amountIn ← liftR (TokenAmount.fromScale18Amount tokenIn in18 true);
  amountInWithFee ← liftR (addSwapFeeAmount p amountIn);
  tIn ← liftR (defined (at_index ts tInIndex));
  liftR (TokenAmount.divDownFixed amountInWithFee (pt_rate tIn)).

(** [getNormalizedLiquidity(tokenIn, tokenOut)] *)
Definition getNormalizedLiquidity (p : StablePool) (tokenIn tokenOut : Token)
  : M cell Z :=
  ts ← readTok (tokens p);
  match List.find (hasAddress (address tokenIn)) ts,
        List.find (hasAddress (address tokenOut)) ts with
  | Some tIn, Some tOut => mret (pt_amount tOut * amp p)
  | _, _ => throw PoolDoesNotContainTokens
  end.

(** [getLimitAmountSwap(tokenIn, tokenOut, swapKind)] *)
Definition getLimitAmountSwap (p : StablePool) (tokenIn tokenOut : Token)
    (swapKind : SwapKind) : M cell Z :=
  ts ← readTok (tokens p);
  match List.find (hasAddress (address tokenIn)) ts,
        List.find (hasAddress (address tokenOut)) ts with
  | Some tIn, Some tOut =>
      match swapKind with
      | GivenIn => liftR (bigdiv (pt_amount tIn * ALMOST_ONE) (pt_rate tIn))
      | GivenOut =>
          liftR (bigdiv (pt_amount tOut * ALMOST_ONE) (pt_rate tOut))
      end
  | _, _ => throw PoolDoesNotContainTokens
  end.

End Stable.

(* ================================================================== *)
(** * The linear pool *)
(* ================================================================== *)

(** [type Params] *)
Record Params : Type := mkParams {
  fee : Z;
  rate : Z;
  lowerTarget : Z;
  upperTarget : Z;
}.

(** The twelve conversions of the linear [./math] are not under src/: they
    are parameters.  Each takes the 18-decimal amount, the main balance,
    (the wrapped balance and the BPT supply,) and the pool parameters. *)
Class LinearMath : Type := {
  _calcWrappedOutPerMainIn : Z → Z → Params → result Z;
  _calcBptOutPerMainIn : Z → Z → Z → Z → Params → result Z;
  _calcMainOutPerWrappedIn : Z → Z → Params → result Z;
  _calcBptOutPerWrappedIn : Z → Z → Z → Z → Params → result Z;
  _calcMainOutPerBptIn : Z → Z → Z → Z → Params → result Z;
  _calcWrappedOutPerBptIn : Z → Z → Z → Z → Params → result Z;
  _calcMainInPerWrappedOut : Z → Z → Params → result Z;
  _calcMainInPerBptOut : Z → Z → Z → Z → Params → result Z;
  _calcWrappedInPerMainOut : Z → Z → Params → result Z;
  _calcWrappedInPerBptOut : Z → Z → Z → Z → Params → result Z;
  _calcBptInPerMainOut : Z → Z → Z → Z → Params → result Z;
  _calcBptInPerWrappedOut : Z → Z → Z → Z → Params → result Z;
}.

Module Linear.

(** [unsafeFastParseEther] of '0.99', '1' and '10' *)
Definition ALMOST_ONE : Z := 990000000000000000.
Definition ONE : Z := 1000000000000000000.
Definition MAX_RATIO : Z := 10000000000000000000.

Definition MAX_TOKEN_BALANCE `{Constants} : Z := MAX_UINT112 - 1.

(** [class BPT extends TokenAmount] *)
Record BPT : Type := mkBPT {
  bpt_token : Token;
  bpt_amount : Z;
  bpt_rate : Z;
  bpt_virtualBalance : Z;
}.

Definition newBPT `{Constants} (t : Token) (amt : Z) : result BPT :=
  super ← TokenAmount.new t amt;
  Ok {| bpt_token := token super;
        bpt_amount := amount super;
        bpt_rate := WAD;
        bpt_virtualBalance := MAX_TOKEN_BALANCE - amount super |}.

(** [class WrappedToken extends TokenAmount] *)
Record WrappedToken : Type := mkWrappedToken {
  wt_token : Token;
  wt_amount : Z;
  wt_rate : Z;
  wt_scale18 : Z;
}.

Definition newWrappedToken (t : Token) (amt rate : Z)
  : result WrappedToken :=
  super ← TokenAmount.new t amt;
  Ok {| wt_token := token super;
        wt_amount := amount super;
        wt_rate := rate;
        wt_scale18 :=
          (amount super * TokenAmount.scalar t * rate) ÷ WAD |}.

(** [RawLinearPool]; [raw_tokens] is the reference held in
    [pool.tokens]. *)
Record RawLinearPool : Type := mkRawPool {
  raw_id : string;
  raw_address : string;
  raw_poolTypeVersion : Z;
  raw_tokens : nat;
  raw_swapFee : string;
  raw_mainIndex : Z;
  raw_wrappedIndex : Z;
  raw_lowerTarget : string;
  raw_upperTarget : string;
}.

(** [class LinearPool] *)
Record LinearPool : Type := mkLinearPool {
  id : string;
  poolAddress : string;
  poolTypeVersion : Z;
  swapFee : Z;
  mainToken : TokenAmount;
  wrappedToken : WrappedToken;
  bptToken : BPT;
  params : Params;
}.

(** [constructor(id, poolTypeVersion, params, mainToken, wrappedToken,
    bptToken)] *)
Definition constructor (id : string) (poolTypeVersion : Z) (params : Params)
    (mainToken : TokenAmount) (wrappedToken : WrappedToken) (bptToken : BPT)
  : result LinearPool :=
  this_address ← getPoolAddress id;
  Ok {| id := id; poolAddress := this_address;
        poolTypeVersion := poolTypeVersion; swapFee := fee params;
        mainToken := mainToken; wrappedToken := wrappedToken;
        bptToken := bptToken; params := params |}.

Definition toToken (t : RawToken) : Token :=
  mkToken 1 (rt_address t) (rt_decimals t) (rt_symbol t) (rt_name t).

(** [static fromRawPool(pool)]: the store holds the raw token arrays. *)
Definition fromRawPool `{Parsers} `{Constants} (pool : RawLinearPool)
  : M (list RawToken) LinearPool :=
  unsorted ← readArr (raw_tokens pool);
  writeArr (raw_tokens pool) (sortByIndex unsorted);;
  orderedTokens ← readArr (raw_tokens pool);   (* sort returns its array *)
  liftR (
    swapFee ← unsafeFastParseEther (raw_swapFee pool);
    mT ← defined (at_index orderedTokens (raw_mainIndex pool));
    let mToken := toToken mT in
    lowerTarget ← TokenAmountParse.fromHumanAmount mToken (raw_lowerTarget pool);
    upperTarget ← TokenAmountParse.fromHumanAmount mToken (raw_upperTarget pool);
    mTokenAmount ← TokenAmountParse.fromHumanAmount mToken (rt_balance mT);
    wT ← defined (at_index orderedTokens (raw_wrappedIndex pool));
    wTRate ← unsafeFastParseEther
               (default "1.0"%string (truthy (rt_priceRate wT)));
    let wToken := toToken wT in
    wTokenAmount ← TokenAmountParse.fromHumanAmount wToken (rt_balance wT);
    wrappedToken ← newWrappedToken wToken (amount wTokenAmount) wTRate;
    let bptIndex :=
      findIndex (λ t, String.eqb (rt_address t) (raw_address pool))
                orderedTokens in
    bT ← defined (at_index orderedTokens bptIndex);
    let bToken := toToken bT in
    bTokenAmount ← TokenAmountParse.fromHumanAmount bToken (rt_balance bT);
    bptToken ← newBPT bToken (amount bTokenAmount);
    let params := {| fee := swapFee; rate := wTRate;
                     lowerTarget := TokenAmount.scale18 lowerTarget;
                     upperTarget := TokenAmount.scale18 upperTarget |} in
    constructor (raw_id pool) (raw_poolTypeVersion pool) params
                mTokenAmount wrappedToken bptToken).

(** [get tokens()]: main, wrapped and BPT seen as TokenAmounts. *)
Definition tokens (p : LinearPool) : list TokenAmount :=
  [ mainToken p;
    mkTokenAmount (wt_token (wrappedToken p)) (wt_amount (wrappedToken p));
    mkTokenAmount (bpt_token (bptToken p)) (bpt_amount (bptToken p)) ].

Definition hasAddress (a : string) (t : TokenAmount) : bool :=
  sameAddress (address (token t)) a.

(** The twelve private conversions. *)
Definition _exactMainTokenInForWrappedOut `{LinearMath} (p : LinearPool)
    (swapAmount : TokenAmount) : result TokenAmount :=
  tokenOutScale18 ← _calcWrappedOutPerMainIn (TokenAmount.scale18 swapAmount)
                      (TokenAmount.scale18 (mainToken p)) (params p);
  TokenAmount.fromScale18Amount (wt_token (wrappedToken p)) tokenOutScale18 false.

Definition _exactMainTokenInForBptOut `{LinearMath} (p : LinearPool)
    (swapAmount : TokenAmount) : result TokenAmount :=
  tokenOutScale18 ← _calcBptOutPerMainIn (TokenAmount.scale18 swapAmount)
                      (TokenAmount.scale18 (mainToken p))
                      (wt_scale18 (wrappedToken p))
                      (bpt_virtualBalance (bptToken p)) (params p);
  TokenAmount.fromScale18Amount (bpt_token (bptToken p)) tokenOutScale18 false.

Definition _exactWrappedTokenInForMainOut `{LinearMath} (p : LinearPool)
    (swapAmount : TokenAmount) : result TokenAmount :=
  tokenOutScale18 ← _calcMainOutPerWrappedIn (TokenAmount.scale18 swapAmount)
                      (TokenAmount.scale18 (mainToken p)) (params p);
  TokenAmount.fromScale18Amount (token (mainToken p)) tokenOutScale18 false.

Definition _exactWrappedTokenInForBptOut `{LinearMath} (p : LinearPool)
    (swapAmount : TokenAmount) : result TokenAmount :=
  tokenOutScale18 ← _calcBptOutPerWrappedIn (TokenAmount.scale18 swapAmount)
                      (TokenAmount.scale18 (mainToken p))
                      (wt_scale18 (wrappedToken p))
                      (bpt_virtualBalance (bptToken p)) (params p);
  TokenAmount.fromScale18Amount (bpt_token (bptToken p)) tokenOutScale18 false.

Definition _exactBptInForMainOut `{LinearMath} (p : LinearPool)
    (swapAmount : TokenAmount) : result TokenAmount :=
  tokenOutScale18 ← _calcMainOutPerBptIn (TokenAmount.scale18 swapAmount)
                      (TokenAmount.scale18 (mainToken p))
                      (wt_scale18 (wrappedToken p))
                      (bpt_virtualBalance (bptToken p)) (params p);
  TokenAmount.fromScale18Amount (token (mainToken p)) tokenOutScale18 false.

Definition _exactBptInForWrappedOut `{LinearMath} (p : LinearPool)
    (swapAmount : TokenAmount) : result TokenAmount :=
  tokenOutScale18 ← _calcWrappedOutPerBptIn (TokenAmount.scale18 swapAmount)
                      (TokenAmount.scale18 (mainToken p))
                      (wt_scale18 (wrappedToken p))
                      (bpt_virtualBalance (bptToken p)) (params p);
  TokenAmount.fromScale18Amount (wt_token (wrappedToken p)) tokenOutScale18 false.

Definition _mainTokenInForExactWrappedOut `{LinearMath} (p : LinearPool)
    (swapAmount : TokenAmount) : result TokenAmount :=
  tokenOutScale18 ← _calcMainInPerWrappedOut (TokenAmount.scale18 swapAmount)
                      (TokenAmount.scale18 (mainToken p)) (params p);
  TokenAmount.fromScale18Amount (token (mainToken p)) tokenOutScale18 true.

Definition _mainTokenInForExactBptOut `{LinearMath} (p : LinearPool)
    (swapAmount : TokenAmount) : result TokenAmount :=
  tokenOutScale18 ← _calcMainInPerBptOut (TokenAmount.scale18 swapAmount)
                      (TokenAmount.scale18 (mainToken p))
                      (wt_scale18 (wrappedToken p))
                      (bpt_virtualBalance (bptToken p)) (params p);
  TokenAmount.fromScale18Amount (token (mainToken p)) tokenOutScale18 true.

Definition _wrappedTokenInForExactMainOut `{LinearMath} (p : LinearPool)
    (swapAmount : TokenAmount) : result TokenAmount :=
  tokenOutScale18 ← _calcWrappedInPerMainOut (TokenAmount.scale18 swapAmount)
                      (TokenAmount.scale18 (mainToken p)) (params p);
  TokenAmount.fromScale18Amount (wt_token (wrappedToken p)) tokenOutScale18 true.

Definition _wrappedTokenInForExactBptOut `{LinearMath} (p : LinearPool)
    (swapAmount : TokenAmount) : result TokenAmount :=
  tokenOutScale18 ← _calcWrappedInPerBptOut (TokenAmount.scale18 swapAmount)
                      (TokenAmount.scale18 (mainToken p))
                      (wt_scale18 (wrappedToken p))
                      (bpt_virtualBalance (bptToken p)) (params p);
  TokenAmount.fromScale18Amount (wt_token (wrappedToken p)) tokenOutScale18 true.

Definition _bptInForExactMainOut `{LinearMath} (p : LinearPool)
    (swapAmount : TokenAmount) : result TokenAmount :=
  tokenOutScale18 ← _calcBptInPerMainOut (TokenAmount.scale18 swapAmount)
                      (TokenAmount.scale18 (mainToken p))
                      (wt_scale18 (wrappedToken p))
                      (bpt_virtualBalance (bptToken p)) (params p);
  TokenAmount.fromScale18Amount (bpt_token (bptToken p)) tokenOutScale18 true.

Definition _bptInForExactWrappedOut `{LinearMath} (p : LinearPool)
    (swapAmount : TokenAmount) : result TokenAmount :=
  tokenOutScale18 ← _calcBptInPerWrappedOut (TokenAmount.scale18 swapAmount)
                      (TokenAmount.scale18 (mainToken p))
                      (wt_scale18 (wrappedToken p))
                      (bpt_virtualBalance (bptToken p)) (params p);
  TokenAmount.fromScale18Amount (bpt_token (bptToken p)) tokenOutScale18 true.

(** [swapGivenIn(tokenIn, tokenOut, swapAmount)] *)
Definition swapGivenIn `{LinearMath} (p : LinearPool)
    (tokenIn tokenOut : Token) (swapAmount : TokenAmount)
  : result TokenAmount :=
  let tOutIndex := findIndex (hasAddress (address tokenOut)) (tokens p) in
  output ←
    (if isEqual tokenIn (token (mainToken p)) then
       if isEqual tokenOut (wt_token (wrappedToken p))
       then _exactMainTokenInForWrappedOut p swapAmount
       else _exactMainTokenInForBptOut p swapAmount
     else if isEqual tokenIn (wt_token (wrappedToken p)) then
       if isEqual tokenOut (token (mainToken p))
       then _exactWrappedTokenInForMainOut p swapAmount
       else _exactWrappedTokenInForBptOut p swapAmount
     else if isEqual tokenIn (bpt_token (bptToken p)) then
       if isEqual tokenOut (token (mainToken p))
       then _exactBptInForMainOut p swapAmount
       else _exactBptInForWrappedOut p swapAmount
     else Err PoolDoesNotContainTokens);
  tOut ← defined (at_index (tokens p) tOutIndex);
  if amount tOut <? amount output then Err ExceedsPoolLimit
  else Ok output.

(** [swapGivenOut(tokenIn, tokenOut, swapAmount)] *)
Definition swapGivenOut `{LinearMath} (p : LinearPool)
    (tokenIn tokenOut : Token) (swapAmount : TokenAmount)
  : result TokenAmount :=
  let tOutIndex := findIndex (hasAddress (address tokenOut)) (tokens p) in
  tOut ← defined (at_index (tokens p) tOutIndex);
  if amount tOut <? amount swapAmount then Err ExceedsPoolLimit
  else if isEqual tokenIn (token (mainToken p)) then
    if isEqual tokenOut (wt_token (wrappedToken p))
    then _mainTokenInForExactWrappedOut p swapAmount
    else _mainTokenInForExactBptOut p swapAmount
  else if isEqual tokenIn (wt_token (wrappedToken p)) then
    if isEqual tokenOut (token (mainToken p))
    then _wrappedTokenInForExactMainOut p swapAmount
    else _wrappedTokenInForExactBptOut p swapAmount
  else if isEqual tokenIn (bpt_token (bptToken p)) then
    if isEqual tokenOut (token (mainToken p))
    then _bptInForExactMainOut p swapAmount
    else _bptInForExactWrappedOut p swapAmount
  else Err PoolDoesNotContainTokens.

(** [getNormalizedLiquidity(tokenIn, tokenOut)] *)
Definition getNormalizedLiquidity (p : LinearPool) (tokenIn tokenOut : Token)
  : result Z :=
  match List.find (hasAddress (address tokenIn)) (tokens p),
        List.find (hasAddress (address tokenOut)) (tokens p) with
  | Some tIn, Some tOut => Ok (amount tOut)
  | _, _ => Err PoolDoesNotContainTokens
  end.

(** [getLimitAmountSwap(tokenIn, tokenOut, swapKind)] *)
Definition getLimitAmountSwap `{LinearMath} `{Constants} (p : LinearPool)
    (tokenIn tokenOut : Token) (swapKind : SwapKind) : result Z :=
  match List.find (hasAddress (address tokenIn)) (tokens p),
        List.find (hasAddress (address tokenOut)) (tokens p) with
  | Some tIn, Some tOut =>
      match swapKind with
      | GivenIn =>
          if isEqual tokenOut (bpt_token (bptToken p))
          then Ok MAX_TOKEN_BALANCE
          else
            a ← TokenAmount.fromRawAmount tokenOut
                   ((amount tOut * ALMOST_ONE) ÷ ONE);
            r ← swapGivenOut p tokenIn tokenOut a;
            Ok (amount r)
      | GivenOut =>
          if isEqual tokenOut (bpt_token (bptToken p))
          then Ok ((amount tOut * MAX_RATIO) ÷ ONE)
          else Ok ((amount tOut * ALMOST_ONE) ÷ ONE)
      end
  | _, _ => Err PoolDoesNotContainTokens
  end.

End Linear.

(* ================================================================== *)
(** * Predicates used in the statements *)
(* ================================================================== *)

(** Ascending order of the on-chain index. *)
Definition byIndex (x y : RawToken) : Prop := rt_index x ≤ rt_index y.

(** Decimals for which [10n ** BigInt(18 - decimals)] is defined. *)
Definition validDecimals (t : Token) : Prop := 0 ≤ decimals t ≤ 18.

(** [keeps h0 m Q]: run from any store that agrees with [h0] on the
    locations of [h0], [m] ends in such a store, and a returned value
    satisfies [Q]. *)
Definition keeps {C A} (h0 : gmap nat C) (m : M C A) (Q : A → Prop) : Prop :=
  ∀ h r h', preserves h0 h → m h = (r, h') →
            preserves h0 h' ∧ ∀ a, r = Ok a → Q a.

Definition anyValue {A} : A → Prop := λ _, True.

(** The [n]-th Newton iterate from the starting value [D0]. *)
Definition iterate (step : Z → Z) (D0 : Z) (n : nat) : Z := Nat.iter n step D0.

(* ================================================================== *)
(** * Instances and pools used to run the code *)
(* ================================================================== *)

(** A decimal parser: digits, optionally a dot and a fraction, cut or padded
    to the number of decimals. *)
Module Decimal.

Definition digit (c : ascii) : option Z :=
  let n := nat_of_ascii c in
  if ((48 <=? n) && (n <=? 57))%nat then Some (Z.of_nat (n - 48)) else None.

Fixpoint digits (s : string) (acc : Z) : option Z :=
  match s with
  | EmptyString => Some acc
  | String c s' => d ← digit c; digits s' (10 * acc + d)
  end.

Fixpoint splitDot (s : string) : string * string :=
  match s with
  | EmptyString => (EmptyString, EmptyString)
  | String c s' =>
      if Ascii.eqb c "."%char then (EmptyString, s')
      else let '(i, f) := splitDot s' in (String c i, f)
  end.

Definition parse (s : string) (d : Z) : result Z :=
  let '(i, f) := splitDot s in
  let f' := String.substring 0 (Z.to_nat d) f in
  match i, digits i 0, digits f' 0 with
  | String _ _, Some iv, Some fv =>
      Ok (iv * 10 ^ d + fv * 10 ^ (d - Z.of_nat (String.length f')))
  | _, _, _ => Err SyntaxError
  end.

End Decimal.

Definition decimalParsers : Parsers :=
  {| unsafeFastParseEther := λ s, Decimal.parse s 18;
     parseUnits := Decimal.parse;
     toBigInt := λ s, Decimal.parse s 0 |}.

Definition mainnetConstants : Constants :=
  {| PREMINTED_STABLE_BPT := 2 ^ 111;
     MAX_UINT112 := 2 ^ 112 - 1 |}.

(** The constant-sum curve, the pegged limit of the stable invariant: the
    invariant is the sum of the balances and tokens trade one for one.  Its
    routines leave a mark in the balance array they are handed. *)
Definition sumZ (l : list Z) : Z := foldr Z.add 0 l.

Definition constantSumMath : StableMath :=
  {| newtonStep := λ _ balances _, sumZ balances;
     maxIterations := 255;
     _calcOutGivenIn := λ _ bs i _ x _, (Ok x, assign_at bs i x);
     _calcInGivenOut := λ _ bs _ j x _, (Ok x, assign_at bs j x);
     _calcBptOutGivenExactTokensIn :=
       λ _ bs amounts _ _ _, (Ok (sumZ amounts), (amounts, bs));
     _calcTokenInGivenExactBptOut := λ _ bs i x _ _ _, (Ok x, assign_at bs i x);
     _calcBptInGivenExactTokensOut :=
       λ _ bs amounts _ _ _, (Ok (sumZ amounts), (amounts, bs));
     _calcTokenOutGivenExactBptIn :=
       λ _ bs i x _ _ _, (Ok x, assign_at bs i x) |}.

(** A Newton update that never settles. *)
Definition oscillatingMath : StableMath :=
  {| newtonStep := λ _ _ D, D + 2;
     maxIterations := 255;
     _calcOutGivenIn := _calcOutGivenIn (StableMath := constantSumMath);
     _calcInGivenOut := _calcInGivenOut (StableMath := constantSumMath);
     _calcBptOutGivenExactTokensIn :=
       _calcBptOutGivenExactTokensIn (StableMath := constantSumMath);
     _calcTokenInGivenExactBptOut :=
       _calcTokenInGivenExactBptOut (StableMath := constantSumMath);
     _calcBptInGivenExactTokensOut :=
       _calcBptInGivenExactTokensOut (StableMath := constantSumMath);
     _calcTokenOutGivenExactBptIn :=
       _calcTokenOutGivenExactBptIn (StableMath := constantSumMath) |}.

(** Linear conversions at par. *)
Definition parityLinearMath : LinearMath :=
  {| _calcWrappedOutPerMainIn := λ x _ _, Ok x;
     _calcBptOutPerMainIn := λ x _ _ _ _, Ok x;
     _calcMainOutPerWrappedIn := λ x _ _, Ok x;
     _calcBptOutPerWrappedIn := λ x _ _ _ _, Ok x;
     _calcMainOutPerBptIn := λ x _ _ _ _, Ok x;
     _calcWrappedOutPerBptIn := λ x _ _ _ _, Ok x;
     _calcMainInPerWrappedOut := λ x _ _, Ok x;
     _calcMainInPerBptOut := λ x _ _ _ _, Ok x;
     _calcWrappedInPerMainOut := λ x _ _, Ok x;
     _calcWrappedInPerBptOut := λ x _ _ _ _, Ok x;
     _calcBptInPerMainOut := λ x _ _ _ _, Ok x;
     _calcBptInPerWrappedOut := λ x _ _ _ _, Ok x |}.

Module Sample.

Definition poolId : string :=
  "0xbbbbbbbbbbbbbbbbbbbbbbbbbbbbbbbbbbbbbbbb000000000000000000000001".
Definition poolAddr : string :=
  "0xbbbbbbbbbbbbbbbbbbbbbbbbbbbbbbbbbbbbbbbb".

Definition tokA : Token := mkToken 1 "0xaa" 18 (Some "A"%string) None.
Definition tokB : Token := mkToken 1 "0xcc" 6 (Some "B"%string) None.
Definition tokBPT : Token := mkToken 1 poolAddr 18 (Some "BPT"%string) None.
Definition tokX : Token := mkToken 1 "0xdd" 18 (Some "X"%string) None.

(** A raw stable record: 100 A at rate 1.5 (index 2), 5 BPT (index 1),
    10 B at rate 1 (index 0), listed out of order. *)
Definition rawA : RawToken :=
  mkRawToken "0xaa" 18 (Some "A"%string) None "100" 2 (Some "1.5"%string).
Definition rawBPT : RawToken :=
  mkRawToken poolAddr 18 (Some "BPT"%string) None "5" 1 (Some "1"%string).
Definition rawB : RawToken :=
  mkRawToken "0xcc" 6 (Some "B"%string) None "10" 0 (Some "1"%string).

Definition rawEntries : list RawToken := [rawA; rawBPT; rawB].

Definition rawStore : gmap nat Stable.cell :=
  {[ 0%nat := Stable.RawArr rawEntries ]}.

Definition rawStable : Stable.RawComposableStablePool :=
  Stable.mkRawPool poolId poolAddr 0 "1000" "200" "0.0004".

(** A store whose record lists a token without a price rate. *)
Definition unrated : RawToken :=
  mkRawToken "0xaa" 18 (Some "A"%string) None "100" 1 None.

Definition unratedStore : gmap nat Stable.cell :=
  {[ 0%nat := Stable.RawArr [unrated; rawB] ]}.

(** The pool [fromRawPool] builds from that record, and the store it
    leaves. *)
Definition tokenA : Stable.StablePoolToken :=
  Stable.mkStablePoolToken tokA 100000000000000000000
    1500000000000000000 150000000000000000000.
Definition tokenB : Stable.StablePoolToken :=
  Stable.mkStablePoolToken tokB 10000000
    1000000000000000000 10000000000000000000.
Definition tokenBPT : Stable.BPT :=
  Stable.mkBPT tokBPT 5000000000000000000 1000000000000000000
    (2 ^ 111 - 5000000000000000000).

Definition stableTokens : list Stable.PoolToken :=
  [Stable.IsToken tokenB; Stable.IsBPT tokenBPT; Stable.IsToken tokenA].

Definition stableStore : gmap nat Stable.cell :=
  <[ 2%nat := Stable.TokArr [Stable.IsToken tokenB; Stable.IsToken tokenA] ]>
    (<[ 1%nat := Stable.TokArr stableTokens ]>
       {[ 0%nat := Stable.RawArr [rawB; rawBPT; rawA] ]}).

Definition stablePool : Stable.StablePool :=
  Stable.mkStablePool poolId poolAddr 200000 400000000000000 1 2
    1000000000000000000000 1.

(** The same pool with a Newton update that does not converge is
    [stablePool] run with [oscillatingMath]. *)

(** A raw linear record: BPT at index 0, main at 1, wrapped at 2. *)
Definition rawMain : RawToken :=
  mkRawToken "0xaa" 18 (Some "M"%string) None "100" 1 None.
Definition rawWrapped : RawToken :=
  mkRawToken "0xcc" 18 (Some "W"%string) None "50" 2 (Some "1.05"%string).
Definition rawLinearBPT : RawToken :=
  mkRawToken poolAddr 18 (Some "BPT"%string) None "1000" 0 None.

Definition rawLinearEntries : list RawToken :=
  [rawMain; rawWrapped; rawLinearBPT].

Definition rawLinearStore : gmap nat (list RawToken) :=
  {[ 0%nat := rawLinearEntries ]}.

Definition rawLinear : Linear.RawLinearPool :=
  Linear.mkRawPool poolId poolAddr 1 0 "0.0002" 1 2 "10" "500".

Definition tokW : Token := mkToken 1 "0xcc" 18 (Some "W"%string) None.
Definition tokM : Token := mkToken 1 "0xaa" 18 (Some "M"%string) None.

(** The pool [Linear.fromRawPool] builds from that record. *)
Definition linearPool : Linear.LinearPool :=
  Linear.mkLinearPool poolId poolAddr 1 200000000000000
    (mkTokenAmount tokM 100000000000000000000)
    (Linear.mkWrappedToken tokW 50000000000000000000
       1050000000000000000 52500000000000000000)
    (Linear.mkBPT tokBPT 1000000000000000000000 1000000000000000000
       (2 ^ 112 - 1 - 1 - 1000000000000000000000))
    (mkParams 200000000000000 1050000000000000000
       10000000000000000000 500000000000000000000).

End Sample.

(** A constant-sum curve whose swap formulas are balance deltas: an amount
    out is what the balance of the output token can give, and a join or an
    exit trades pool shares in proportion to the total supply. *)
Definition balanceAt (balances : list Z) (i : Z) : Z :=
  default 0 (at_index balances i).

Definition cappedSumMath : StableMath :=
  {| newtonStep := λ _ balances _, sumZ balances;
     maxIterations := 255;
     _calcOutGivenIn :=
       λ _ bs _ j x _, (Ok (Z.min x (balanceAt bs j)), bs);
     _calcInGivenOut := λ _ bs _ _ x _, (Ok x, bs);
     _calcBptOutGivenExactTokensIn :=
       λ _ bs amounts total inv _,
         (bigdiv (total * sumZ amounts) inv, (bs, amounts));
     _calcTokenInGivenExactBptOut :=
       λ _ bs _ x total inv _, (bigdiv (x * inv) total, bs);
     _calcBptInGivenExactTokensOut :=
       λ _ bs amounts total inv _,
         (bigdiv (total * sumZ amounts) inv, (bs, amounts));
     _calcTokenOutGivenExactBptIn :=
       λ _ bs j x total inv _,
         (r ← bigdiv (x * inv) total; Ok (Z.min r (balanceAt bs j)), bs) |}.

Module Sample3.

(** Token A of the sample pool as another chain names it: the same address,
    chain 5. *)
Definition tokA5 : Token := mkToken 5 "0xaa" 18 (Some "A"%string) None.

(** Token W of the linear sample pool on chain 5. *)
Definition tokW5 : Token := mkToken 5 "0xcc" 18 (Some "W"%string) None.


End Sample3.

(* ================================================================== *)
(** * More pools used to run the code *)
(* ================================================================== *)

Module Sample2.

(** The pool the constructor builds from the list B, A, which does not hold
    the pool's BPT: [bptIndex] is -1 and [tokensNoBpt] lost its last token. *)
Definition orphanStore : gmap nat Stable.cell :=
  <[ 3%nat := Stable.TokArr [Stable.IsToken Sample.tokenB] ]>
    Sample.stableStore.

Definition orphanPool : Stable.StablePool :=
  Stable.mkStablePool Sample.poolId Sample.poolAddr 200000 400000000000000
    2 3 1000000000000000000000 (-1).

End Sample2.

(** Two computations whose outcome is the same from any two stores. *)
Definition sameResult {C A} (m1 m2 : M C A) : Prop :=
  ∀ h1 h2, (m1 h1).1 = (m2 h2).1.


(** [RemoveLiquidityComposableStable] of
    [src/entities/pools/weighted/factory.ts]: the list of minimum amounts
    without the BPT entry, as [query] and [buildCall] build it. *)
Module RemoveLiquidityComposableStable.

(** [arr.slice(start, end)]: a negative bound counts from the end, both are
    clamped to the array; [end] left out is the length. *)
Definition slice {A} (l : list A) (start : Z) (end_ : option Z) : list A :=
  let len := Z.of_nat (length l) in
  let clamp i := if i <? 0 then Z.max (len + i) 0 else Z.min i len in
  let k := clamp start in
  let final := match end_ with None => len | Some e => clamp e end in
  take (Z.to_nat (final - k)) (drop (Z.to_nat k) l).

(** [[...minAmountsOut.slice(0, bptIndex),
      ...minAmountsOut.slice(bptIndex + 1)]] *)
Definition minAmountsOutWithoutBpt {A} (minAmountsOut : list A)
    (bptIndex : Z) : list A :=
  slice minAmountsOut 0 (Some bptIndex)
  ++ slice minAmountsOut (bptIndex + 1) None.

End RemoveLiquidityComposableStable.

(* ================================================================== *)
(** * Arrays: lemmas *)
(* ================================================================== *)

Lemma findIndex_range {A} (f : A → bool) (l : list A) :
  -1 ≤ findIndex f l < Z.of_nat (length l).
Proof.
  induction l as [|x l IH]; simpl; [lia|].
  destruct (f x); [lia|].
  destruct (findIndex f l <? 0) eqn:E; lia.
Qed.

Lemma find_None_findIndex {A} (f : A → bool) (l : list A) :
  List.find f l = None ↔ findIndex f l < 0.
Proof.
  induction l as [|x l IH]; simpl; [split; [lia|done]|].
  destruct (f x); [split; [done|lia]|].
  pose proof (findIndex_range f l).
  destruct (findIndex f l <? 0) eqn:E; rewrite IH; lia.
Qed.

Lemma find_Some_findIndex {A} (f : A → bool) (l : list A) (x : A) :
  List.find f l = Some x →
  0 ≤ findIndex f l ∧ at_index l (findIndex f l) = Some x.
Proof.
  induction l as [|y l IH]; simpl; [done|].
  destruct (f y) eqn:Ef.
  - intros [= ->]. split; [lia|]. reflexivity.
  - intros Hx. destruct (IH Hx) as [H0 Hat].
    destruct (findIndex f l <? 0) eqn:E; [lia|].
    split; [lia|]. unfold at_index in *.
    destruct (findIndex f l + 1 <? 0) eqn:E2; [lia|].
    destruct (findIndex f l <? 0) eqn:E3; [done|].
    replace (Z.to_nat (findIndex f l + 1))
      with (S (Z.to_nat (findIndex f l))) by lia.
    exact Hat.
Qed.

Lemma find_Some_holds {A} (f : A → bool) (l : list A) (x : A) :
  List.find f l = Some x → f x = true ∧ x ∈ l.
Proof.
  induction l as [|y l IH]; simpl; [done|].
  destruct (f y) eqn:Ef.
  - intros [= ->]. split; [done|]. left.
  - intros Hx. destruct (IH Hx). split; [done|]. by right.
Qed.

Lemma mapM_Ok_Forall2 {A B} (f : A → result B) (l : list A) (l' : list B) :
  mapM f l = Ok l' → Forall2 (λ x y, f x = Ok y) l l'.
Proof.
  revert l'. induction l as [|x l IH]; simpl; intros l'.
  - intros [= <-]. constructor.
  - destruct (f x) as [y|e] eqn:Ef; simpl; [|done].
    destruct (mapM f l) as [ys|e] eqn:Em; simpl; [|done].
    intros [= <-]. constructor; auto.
Qed.

Lemma mapM_Err_elem {A B} (f : A → result B) (l : list A) (x : A) :
  x ∈ l → failed (f x) → failed (mapM f l).
Proof.
  intros Hin [e He]. induction l as [|y l IH]; [by apply elem_of_nil in Hin|].
  simpl. apply elem_of_cons in Hin as [->|Hin].
  - rewrite He. by exists e.
  - destruct (f y); simpl; [|by eexists].
    destruct (IH Hin) as [e' ->]. by exists e'.
Qed.

(* ================================================================== *)
(** * Sorting by index: lemmas *)
(* ================================================================== *)

Lemma insertByIndex_perm x l : insertByIndex x l ≡ₚ x :: l.
Proof.
  induction l as [|y l IH]; simpl; [done|].
  destruct (rt_index x <=? rt_index y); [done|].
  rewrite IH. apply Permutation_swap.
Qed.

Lemma sortByIndex_perm l : sortByIndex l ≡ₚ l.
Proof.
  induction l as [|x l IH]; simpl; [done|].
  rewrite insertByIndex_perm. by rewrite IH.
Qed.

Lemma insertByIndex_sorted x l :
  Sorted byIndex l → Sorted byIndex (insertByIndex x l).
Proof.
  induction l as [|y l IH]; simpl; intros Hs.
  - repeat constructor.
  - destruct (rt_index x <=? rt_index y) eqn:E.
    + constructor; [done|]. constructor. unfold byIndex. lia.
    + apply Sorted_inv in Hs as [Hs Hhd].
      constructor; [by apply IH|].
      destruct l as [|z l]; simpl.
      * constructor. unfold byIndex. lia.
      * destruct (rt_index x <=? rt_index z) eqn:E2.
        -- constructor. unfold byIndex. lia.
        -- constructor. by apply HdRel_inv in Hhd.
Qed.

Lemma sortByIndex_sorted l : Sorted byIndex (sortByIndex l).
Proof.
  induction l as [|x l IH]; simpl; [constructor|].
  by apply insertByIndex_sorted.
Qed.

Lemma sortByIndex_elem x l : x ∈ sortByIndex l ↔ x ∈ l.
Proof. by rewrite (sortByIndex_perm l). Qed.

(* ================================================================== *)
(** * Fixed-point arithmetic: lemmas *)
(* ================================================================== *)

Lemma WAD_pos : 0 < WAD.
Proof. reflexivity. Qed.

Lemma quot_spec a b : 0 ≤ a → 0 < b → (a ÷ b) * b ≤ a < (a ÷ b + 1) * b.
Proof.
  intros Ha Hb. rewrite Z.quot_div_nonneg by lia.
  pose proof (Z.div_mod a b ltac:(lia)).
  pose proof (Z.mod_pos_bound a b Hb). lia.
Qed.

Lemma quot_unique a b q : 0 < b → q * b ≤ a < (q + 1) * b → 0 ≤ q → a ÷ b = q.
Proof.
  intros Hb Hq Hq0. assert (0 ≤ a) by nia.
  pose proof (quot_spec a b ltac:(done) Hb). nia.
Qed.

Lemma scalar_pos (t : Token) :
  validDecimals t → 1 ≤ TokenAmount.scalar t.
Proof.
  unfold validDecimals. intros H. unfold TokenAmount.scalar.
  assert (0 < 10 ^ (18 - decimals t)) by (apply Z.pow_pos_nonneg; lia). lia.
Qed.

(** Rounding down: the result is the floor of the exact value. *)
Lemma mulDownFixed_floor a b :
  0 ≤ a → 0 ≤ b →
  MathSol.mulDownFixed a b * WAD ≤ a * b
    < (MathSol.mulDownFixed a b + 1) * WAD.
Proof.
  intros. unfold MathSol.mulDownFixed. apply quot_spec; [nia|apply WAD_pos].
Qed.

(** Rounding up: the result is the ceiling of the exact value. *)
Lemma mulUpFixed_ceil a b :
  0 ≤ a → 0 ≤ b →
  (MathSol.mulUpFixed a b - 1) * WAD < a * b ≤ MathSol.mulUpFixed a b * WAD.
Proof.
  intros Ha Hb. unfold MathSol.mulUpFixed. pose proof WAD_pos.
  destruct (a * b =? 0) eqn:E; [lia|].
  pose proof (quot_spec (a * b - 1) WAD ltac:(nia) WAD_pos). lia.
Qed.

Lemma divDownFixed_floor a b r :
  0 ≤ a → 0 < b → MathSol.divDownFixed a b = Ok r →
  r * b ≤ a * WAD < (r + 1) * b.
Proof.
  intros Ha Hb. unfold MathSol.divDownFixed. pose proof WAD_pos.
  destruct (b =? 0) eqn:Eb; [lia|].
  destruct (a =? 0) eqn:Ea; intros [= <-]; [nia|].
  apply quot_spec; nia.
Qed.

Lemma divUpFixed_ceil a b r :
  0 ≤ a → 0 < b → MathSol.divUpFixed a b = Ok r →
  (r - 1) * b < a * WAD ≤ r * b.
Proof.
  intros Ha Hb. unfold MathSol.divUpFixed. pose proof WAD_pos.
  destruct (b =? 0) eqn:Eb; [lia|].
  destruct (a =? 0) eqn:Ea; intros [= <-]; [nia|].
  pose proof (quot_spec (a * WAD - 1) b ltac:(nia) Hb). lia.
Qed.

Lemma divUp_ceil a b r :
  0 ≤ a → 0 < b → MathSol.divUp a b = Ok r → (r - 1) * b < a ≤ r * b.
Proof.
  intros Ha Hb. unfold MathSol.divUp.
  destruct (b =? 0) eqn:Eb; [lia|].
  destruct (a =? 0) eqn:Ea; intros [= <-]; [nia|].
  pose proof (quot_spec (a - 1) b ltac:(lia) Hb). lia.
Qed.

Lemma floor_unique b q q' x :
  0 < b → q * b ≤ x < (q + 1) * b → q' * b ≤ x < (q' + 1) * b → q = q'.
Proof. intros. nia. Qed.

Lemma ceil_unique b r r' x :
  0 < b → (r - 1) * b < x ≤ r * b → (r' - 1) * b < x ≤ r' * b → r = r'.
Proof. intros. nia. Qed.

(* ================================================================== *)
(** * Token amounts: the operators on raw amounts *)
(* ================================================================== *)

Lemma new_Ok t raw :
  validDecimals t → 0 ≤ raw → TokenAmount.new t raw = Ok (mkTokenAmount t raw).
Proof.
  unfold validDecimals, TokenAmount.new. intros Hd Hr.
  destruct (18 <? decimals t) eqn:E; [lia|].
  destruct (raw <? 0) eqn:E2; [lia|]. done.
Qed.

Lemma fromScale18Amount_down t n :
  validDecimals t → 0 ≤ n →
  TokenAmount.fromScale18Amount t n false
  = Ok (mkTokenAmount t (n ÷ TokenAmount.scalar t)).
Proof.
  intros Hd Hn. pose proof (scalar_pos t Hd) as Hs.
  unfold TokenAmount.fromScale18Amount, bigdiv.
  destruct (decide (TokenAmount.scalar t = 0)); [lia|]. simpl.
  apply new_Ok; [done|]. apply Z.quot_pos; lia.
Qed.

Lemma fromScale18Amount_up t n :
  validDecimals t → 0 ≤ n →
  ∃ r, TokenAmount.fromScale18Amount t n true = Ok (mkTokenAmount t r)
       ∧ (r - 1) * TokenAmount.scalar t < n ≤ r * TokenAmount.scalar t.
Proof.
  intros Hd Hn. pose proof (scalar_pos t Hd) as Hs.
  unfold TokenAmount.fromScale18Amount.
  destruct (MathSol.divUp n (TokenAmount.scalar t)) as [r|e] eqn:E.
  - assert (0 < TokenAmount.scalar t) as Hs' by lia.
    pose proof (divUp_ceil _ _ _ Hn Hs' E) as Hc.
    exists r. split; [|done]. simpl. apply new_Ok; [done|].
    apply (Z.mul_nonneg_cancel_r _ (TokenAmount.scalar t)); lia.
  - unfold MathSol.divUp in E.
    destruct (TokenAmount.scalar t =? 0) eqn:E0; [lia|].
    by destruct (n =? 0).
Qed.

Lemma mulDownFixed_amount a x :
  validDecimals (token a) → 0 ≤ amount a → 0 ≤ x →
  TokenAmount.mulDownFixed a x
  = Ok (mkTokenAmount (token a) (MathSol.mulDownFixed (amount a) x)).
Proof.
  intros Hd Ha Hx. pose proof (scalar_pos _ Hd) as Hs. pose proof WAD_pos.
  unfold TokenAmount.mulDownFixed, TokenAmount.scale18.
  set (s := TokenAmount.scalar (token a)) in *.
  pose proof (mulDownFixed_floor (amount a * s) x ltac:(nia) Hx) as H1.
  pose proof (mulDownFixed_floor (amount a) x Ha Hx) as H2.
  rewrite fromScale18Amount_down; [|done|nia].
  f_equal. f_equal. fold s.
  apply quot_unique; [lia|nia|nia].
Qed.

Lemma mulUpFixed_amount a x :
  validDecimals (token a) → 0 ≤ amount a → 0 ≤ x →
  TokenAmount.mulUpFixed a x
  = Ok (mkTokenAmount (token a) (MathSol.mulUpFixed (amount a) x)).
Proof.
  intros Hd Ha Hx. pose proof (scalar_pos _ Hd) as Hs. pose proof WAD_pos.
  unfold TokenAmount.mulUpFixed, TokenAmount.scale18.
  set (s := TokenAmount.scalar (token a)) in *.
  pose proof (mulUpFixed_ceil (amount a * s) x ltac:(nia) Hx) as H1.
  pose proof (mulUpFixed_ceil (amount a) x Ha Hx) as H2.
  destruct (fromScale18Amount_up (token a)
              (MathSol.mulUpFixed (amount a * s) x) Hd ltac:(nia))
    as (r & -> & Hr).
  fold s in Hr. f_equal. f_equal.
  apply (ceil_unique WAD _ _ (amount a * x)); [lia| |done]. nia.
Qed.

Lemma divDownFixed_amount a x r :
  validDecimals (token a) → 0 ≤ amount a → 0 < x →
  MathSol.divDownFixed (amount a) x = Ok r →
  TokenAmount.divDownFixed a x = Ok (mkTokenAmount (token a) r).
Proof.
  intros Hd Ha Hx Hr. pose proof (scalar_pos _ Hd) as Hs. pose proof WAD_pos.
  pose proof (divDownFixed_floor _ _ _ Ha Hx Hr) as H2.
  unfold TokenAmount.divDownFixed, TokenAmount.scale18.
  set (s := TokenAmount.scalar (token a)) in *.
  destruct (MathSol.divDownFixed (amount a * s) x) as [n|e] eqn:E.
  - assert (0 ≤ amount a * s) as Has by nia.
    pose proof (divDownFixed_floor _ _ _ Has Hx E) as H1. simpl.
    rewrite fromScale18Amount_down; [|done|nia].
    f_equal. f_equal. fold s. apply quot_unique; [lia|nia|nia].
  - unfold MathSol.divDownFixed in E.
    destruct (x =? 0) eqn:E0; [lia|]. by destruct (amount a * s =? 0).
Qed.

Lemma divUpFixed_amount a x r :
  validDecimals (token a) → 0 ≤ amount a → 0 < x →
  MathSol.divUpFixed (amount a) x = Ok r →
  TokenAmount.divUpFixed a x = Ok (mkTokenAmount (token a) r).
Proof.
  intros Hd Ha Hx Hr. pose proof (scalar_pos _ Hd) as Hs. pose proof WAD_pos.
  pose proof (divUpFixed_ceil _ _ _ Ha Hx Hr) as H2.
  unfold TokenAmount.divUpFixed, TokenAmount.scale18.
  set (s := TokenAmount.scalar (token a)) in *.
  destruct (MathSol.divUpFixed (amount a * s) x) as [n|e] eqn:E.
  - assert (0 ≤ amount a * s) as Has by nia.
    pose proof (divUpFixed_ceil _ _ _ Has Hx E) as H1. simpl.
    destruct (fromScale18Amount_up (token a) n Hd ltac:(nia))
      as (r' & -> & Hr').
    fold s in Hr'. f_equal. f_equal.
    apply (ceil_unique x _ _ (amount a * WAD)); [lia| |done]. nia.
  - unfold MathSol.divUpFixed in E.
    destruct (x =? 0) eqn:E0; [lia|]. by destruct (amount a * s =? 0).
Qed.

Lemma sub_amount a b :
  validDecimals (token a) → token b = token a →
  0 ≤ amount b ≤ amount a →
  TokenAmount.sub a b
  = Ok (mkTokenAmount (token a) (amount a - amount b)).
Proof.
  intros Hd Ht Hab. pose proof (scalar_pos _ Hd) as Hs.
  unfold TokenAmount.sub, TokenAmount.scale18. rewrite Ht.
  set (s := TokenAmount.scalar (token a)) in *.
  destruct (amount a * s <? amount b * s) eqn:E; [nia|].
  rewrite fromScale18Amount_down; [|done|nia].
  f_equal. f_equal. fold s. apply quot_unique; [lia|nia|lia].
Qed.

(* ================================================================== *)
(** * The store: frame rules *)
(* ================================================================== *)

Section Frame.
Context {C : Type}.
Implicit Types h : gmap nat C.

Lemma preserves_refl h : preserves h h.
Proof. by intros l _. Qed.

Lemma preserves_dom h h' l : preserves h h' → l ∈ dom h → l ∈ dom h'.
Proof.
  intros Hp Hl. apply elem_of_dom. rewrite (Hp l Hl). by apply elem_of_dom.
Qed.

Lemma preserves_trans h1 h2 h3 :
  preserves h1 h2 → preserves h2 h3 → preserves h1 h3.
Proof.
  intros H12 H23 l Hl. rewrite <- (H12 l Hl).
  apply H23. by eapply preserves_dom.
Qed.

Lemma bind_run {A B} (m : M C A) (f : A → M C B) h :
  (m ≫= f) h = match m h with
               | (Ok a, h') => f a h'
               | (Err e, h') => (Err e, h')
               end.
Proof. reflexivity. Qed.

Lemma keeps_ret {A} h0 (a : A) (Q : A → Prop) :
  Q a → keeps h0 (mret a : M C A) Q.
Proof. intros HQ h r h' Hp [= <- <-]. split; [done|]. by intros ? [= <-]. Qed.

Lemma keeps_throw {A} h0 e (Q : A → Prop) : keeps h0 (throw e : M C A) Q.
Proof. intros h r h' Hp [= <- <-]. split; [done|]. by intros ? [=]. Qed.

Lemma keeps_liftR {A} h0 (r : result A) : keeps h0 (liftR r : M C A) anyValue.
Proof. intros h r' h' Hp [= <- <-]. split; [done|]. done. Qed.

Lemma keeps_readArr h0 l : keeps h0 (readArr l : M C C) anyValue.
Proof.
  intros h r h' Hp. unfold readArr.
  destruct (h !! l); intros [= <- <-]; by split.
Qed.

Lemma keeps_allocArr h0 (c : C) : keeps h0 (allocArr c) (λ l, l ∉ dom h0).
Proof.
  intros h r h' Hp [= <- <-].
  assert (fresh (dom h) ∉ dom h0) as Hfresh.
  { intros Hin. apply (is_fresh (dom h)). by eapply preserves_dom. }
  split.
  - intros l Hl. rewrite lookup_insert_ne; [by apply Hp|].
    intros Heq. by subst l.
  - by intros a [= <-].
Qed.

Lemma keeps_writeArr h0 l (c : C) :
  l ∉ dom h0 → keeps h0 (writeArr l c) anyValue.
Proof.
  intros Hl h r h' Hp [= <- <-]. split; [|done].
  intros l' Hl'. rewrite lookup_insert_ne; [by apply Hp|].
  intros Heq. by subst l'.
Qed.

Lemma keeps_bind {A B} h0 (m : M C A) (f : A → M C B) Q R :
  keeps h0 m Q → (∀ a, Q a → keeps h0 (f a) R) → keeps h0 (m ≫= f) R.
Proof.
  intros Hm Hf h r h' Hp. rewrite bind_run.
  destruct (m h) as [[a|e] h1] eqn:Em.
  - destruct (Hm _ _ _ Hp Em) as [Hp1 HQ].
    intros Hrun. exact (Hf a (HQ a eq_refl) _ _ _ Hp1 Hrun).
  - destruct (Hm _ _ _ Hp Em) as [Hp1 _].
    intros [= <- <-]. split; [done|]. by intros ? [=].
Qed.

Lemma keeps_weaken {A} h0 (m : M C A) (Q R : A → Prop) :
  keeps h0 m Q → (∀ a, Q a → R a) → keeps h0 m R.
Proof.
  intros Hm HQR h r h' Hp Hrun. destruct (Hm _ _ _ Hp Hrun) as [? HQ].
  split; [done|]. intros a Ha. apply HQR, HQ, Ha.
Qed.

Lemma keeps_frame {A} h (m : M C A) Q r h' :
  keeps h m Q → m h = (r, h') → preserves h h'.
Proof. intros Hm Hrun. by destruct (Hm _ _ _ (preserves_refl h) Hrun). Qed.

End Frame.

Ltac keeps_any :=
  first [ apply keeps_throw
        | apply keeps_liftR
        | apply keeps_readArr
        | apply keeps_ret; exact I
        | eapply keeps_weaken; [apply keeps_allocArr | intros; exact I] ].

Ltac keeps_go :=
  repeat first
    [ progress keeps_any
    | apply keeps_writeArr; assumption
    | eapply keeps_bind;
      [ first [ apply keeps_allocArr | keeps_any
              | apply keeps_writeArr; assumption | eassumption ]
      | intros ? ? ]
    | match goal with
      | |- keeps _ (if ?b then _ else _) _ => destruct b
      | |- keeps _ (match ?x with _ => _ end) _ => destruct x
      end ].

(* ================================================================== *)
(** * The stable pool: what its operations leave untouched *)
(* ================================================================== *)

Section StableFrame.
Context `{StableMath} `{Parsers} `{Constants}.
Implicit Types h : gmap nat Stable.cell.

Lemma readRaw_keeps h0 l : keeps h0 (Stable.readRaw l) anyValue.
Proof. unfold Stable.readRaw. keeps_go. Qed.

Lemma readTok_keeps h0 l : keeps h0 (Stable.readTok l) anyValue.
Proof. unfold Stable.readTok. keeps_go. Qed.

Lemma handBack1_keeps h0 l out :
  l ∉ dom h0 → keeps h0 (Stable.handBack1 l out) anyValue.
Proof. intros. unfold Stable.handBack1. keeps_go. Qed.

Lemma handBack2_keeps h0 l1 l2 out :
  l1 ∉ dom h0 → l2 ∉ dom h0 → keeps h0 (Stable.handBack2 l1 l2 out) anyValue.
Proof. intros. unfold Stable.handBack2. keeps_go. Qed.

Lemma tokenOutScale18_keeps h0 p tIn tOut bpt bs n i j x inv :
  keeps h0 (Stable.tokenOutScale18 p tIn tOut bpt bs n i j x inv) anyValue.
Proof.
  unfold Stable.tokenOutScale18. cbv zeta.
  keeps_go; first [ by apply handBack1_keeps | by apply handBack2_keeps ].
Qed.

Lemma tokenInScale18_keeps h0 p tIn tOut bpt bs n i j x inv :
  keeps h0 (Stable.tokenInScale18 p tIn tOut bpt bs n i j x inv) anyValue.
Proof.
  unfold Stable.tokenInScale18. cbv zeta.
  keeps_go; first [ by apply handBack1_keeps | by apply handBack2_keeps ].
Qed.

Lemma swapGivenIn_keeps h0 p tIn tOut a :
  keeps h0 (Stable.swapGivenIn p tIn tOut a) anyValue.
Proof.
  unfold Stable.swapGivenIn. cbv zeta.
  eapply keeps_bind; [apply readTok_keeps|intros ts _].
  destruct (_ || _); [keeps_go|].
  eapply keeps_bind; [keeps_any|intros tI _].
  destruct (_ <? _); [keeps_go|].
  eapply keeps_bind; [apply readTok_keeps|intros noBpt _].
  do 6 (eapply keeps_bind; [keeps_any|intros ? _]).
  eapply keeps_bind; [apply tokenOutScale18_keeps|intros ? _].
  keeps_go.
Qed.

Lemma swapGivenOut_keeps h0 p tIn tOut a :
  keeps h0 (Stable.swapGivenOut p tIn tOut a) anyValue.
Proof.
  unfold Stable.swapGivenOut. cbv zeta.
  eapply keeps_bind; [apply readTok_keeps|intros ts _].
  destruct (_ || _); [keeps_go|].
  eapply keeps_bind; [keeps_any|intros tO _].
  destruct (_ <? _); [keeps_go|].
  eapply keeps_bind; [apply readTok_keeps|intros noBpt _].
  do 5 (eapply keeps_bind; [keeps_any|intros ? _]).
  eapply keeps_bind; [apply tokenInScale18_keeps|intros ? _].
  keeps_go.
Qed.

Lemma getNormalizedLiquidity_keeps h0 p tIn tOut :
  keeps h0 (Stable.getNormalizedLiquidity p tIn tOut) anyValue.
Proof.
  unfold Stable.getNormalizedLiquidity.
  eapply keeps_bind; [apply readTok_keeps|intros ts _]. keeps_go.
Qed.

Lemma getLimitAmountSwap_keeps h0 p tIn tOut k :
  keeps h0 (Stable.getLimitAmountSwap p tIn tOut k) anyValue.
Proof.
  unfold Stable.getLimitAmountSwap.
  eapply keeps_bind; [apply readTok_keeps|intros ts _]. keeps_go.
Qed.

Lemma constructor_keeps h0 id amp fee toks total :
  keeps h0 (Stable.constructor id amp fee toks total)
    (λ p, Stable.tokens p = toks ∧ Stable.tokensNoBpt p ∉ dom h0).
Proof.
  unfold Stable.constructor. cbv zeta.
  eapply keeps_bind; [keeps_any|intros addr _].
  eapply keeps_bind; [apply readTok_keeps|intros ts _].
  eapply keeps_bind; [apply keeps_allocArr|intros l Hl].
  eapply keeps_bind; [apply readTok_keeps|intros copy _].
  eapply keeps_bind; [by apply keeps_writeArr|intros _ _].
  apply keeps_ret. by split.
Qed.

End StableFrame.

(* ================================================================== *)
(** * Running the stable pool code *)
(* ================================================================== *)

Lemma readTok_run (h : gmap nat Stable.cell) l ts :
  h !! l = Some (Stable.TokArr ts) → Stable.readTok l h = (Ok ts, h).
Proof.
  intros Hl. unfold Stable.readTok. rewrite bind_run.
  unfold readArr. by rewrite Hl.
Qed.

Lemma readRaw_run (h : gmap nat Stable.cell) l es :
  h !! l = Some (Stable.RawArr es) → Stable.readRaw l h = (Ok es, h).
Proof.
  intros Hl. unfold Stable.readRaw. rewrite bind_run.
  unfold readArr. by rewrite Hl.
Qed.

Lemma isEqual_sameAddress t u :
  isEqual t u = true → sameAddress (address u) (address t) = true.
Proof.
  unfold isEqual, sameAddress. intros [_ He]%andb_true_iff.
  by rewrite String.eqb_sym.
Qed.

Lemma hasAddress_false_isEqual a t u :
  sameAddress (address u) a = false → a = address t → isEqual t u = false.
Proof.
  intros Hf ->. destruct (isEqual t u) eqn:E; [|done].
  apply isEqual_sameAddress in E. congruence.
Qed.

Lemma linear_absent_isEqual p t :
  List.find (Linear.hasAddress (address t)) (Linear.tokens p) = None →
  isEqual t (token (Linear.mainToken p)) = false
  ∧ isEqual t (Linear.wt_token (Linear.wrappedToken p)) = false
  ∧ isEqual t (Linear.bpt_token (Linear.bptToken p)) = false.
Proof.
  unfold Linear.tokens, Linear.hasAddress. cbn [List.find token].
  destruct (sameAddress (address (token (Linear.mainToken p))) _) eqn:E1;
    [done|].
  destruct (sameAddress (address (Linear.wt_token _)) _) eqn:E2; [done|].
  destruct (sameAddress (address (Linear.bpt_token _)) _) eqn:E3; [done|].
  intros _. repeat split; by eapply hasAddress_false_isEqual.
Qed.

Lemma stable_swap_unknown_token `{StableMath}
    (h : gmap nat Stable.cell) p ts tokenIn tokenOut swapAmount :
  h !! Stable.tokens p = Some (Stable.TokArr ts) →
  List.find (Stable.hasAddress (address tokenIn)) ts = None
  ∨ List.find (Stable.hasAddress (address tokenOut)) ts = None →
  (Stable.swapGivenIn p tokenIn tokenOut swapAmount h).1
    = Err PoolDoesNotContainTokens
  ∧ (Stable.swapGivenOut p tokenIn tokenOut swapAmount h).1
    = Err PoolDoesNotContainTokens.
Proof.
  intros Hh Habs.
  assert ((findIndex (Stable.hasAddress (address tokenIn)) ts <? 0)
          || (findIndex (Stable.hasAddress (address tokenOut)) ts <? 0) = true)
    as Hguard.
  { apply orb_true_iff.
    destruct Habs as [Hn|Hn]; apply find_None_findIndex in Hn; [left|right];
      by apply Z.ltb_lt. }
  split.
  - unfold Stable.swapGivenIn. rewrite bind_run, (readTok_run _ _ _ Hh).
    cbv zeta. by rewrite Hguard.
  - unfold Stable.swapGivenOut. rewrite bind_run, (readTok_run _ _ _ Hh).
    cbv zeta. by rewrite Hguard.
Qed.

Lemma linear_swap_unknown_token `{LinearMath} p tokenIn tokenOut swapAmount :
  List.find (Linear.hasAddress (address tokenIn)) (Linear.tokens p) = None
  ∨ List.find (Linear.hasAddress (address tokenOut)) (Linear.tokens p) = None →
  failed (Linear.swapGivenIn p tokenIn tokenOut swapAmount)
  ∧ failed (Linear.swapGivenOut p tokenIn tokenOut swapAmount).
Proof.
  intros [Hn|Hn].
  - destruct (linear_absent_isEqual _ _ Hn) as (E1 & E2 & E3). split.
    + unfold Linear.swapGivenIn. cbv zeta. rewrite E1, E2, E3.
      by exists PoolDoesNotContainTokens.
    + unfold Linear.swapGivenOut. cbv zeta.
      destruct (defined _) as [tO|e]; simpl; [|by exists e].
      destruct (_ <? _); [by eexists|]. rewrite E1, E2, E3. by eexists.
  - apply find_None_findIndex in Hn.
    assert (at_index (Linear.tokens p)
              (findIndex (Linear.hasAddress (address tokenOut))
                 (Linear.tokens p)) = None) as Hat.
    { unfold at_index. by apply Z.ltb_lt in Hn as ->. }
    split.
    + unfold Linear.swapGivenIn. cbv zeta. rewrite Hat.
      match goal with |- failed (?m ≫= _) => destruct m as [o|e] end;
        simpl; by eexists.
    + unfold Linear.swapGivenOut. cbv zeta. rewrite Hat. by eexists.
Qed.

(* ================================================================== *)
(** * C2: a token the pool does not hold *)
(* ================================================================== *)

(** C2, as stated, fails: a token is told from another by chain and address
    ([isEqual]), but the swaps look a token up by its address alone.  The
    chain-5 token at the address of A equals none of the three tokens of the
    sample stable pool, and both of its swaps quote for it as the input
    token; the chain-5 token at the address of W equals none of the three
    tokens of the sample linear pool, and [swapGivenIn] quotes for it as the
    output token. *)
Lemma C2_counterexample :
  Forall (λ t, isEqual Sample3.tokA5 (Stable.pt_token t) = false)
    Sample.stableTokens
  ∧ (Stable.swapGivenIn (H := cappedSumMath) Sample.stablePool Sample3.tokA5
       Sample.tokB (mkTokenAmount Sample3.tokA5 1000000000000000000)
       Sample.stableStore).1
    = Ok (mkTokenAmount Sample.tokB 1499400)
  ∧ (Stable.swapGivenOut (H := cappedSumMath) Sample.stablePool Sample3.tokA5
       Sample.tokB (mkTokenAmount Sample.tokB 1000000)
       Sample.stableStore).1
    = Ok (mkTokenAmount Sample3.tokA5 666933440042683740)
  ∧ Forall (λ t, isEqual Sample3.tokW5 (token t) = false)
      (Linear.tokens Sample.linearPool)
  ∧ Linear.swapGivenIn (H := parityLinearMath) Sample.linearPool Sample.tokM
      Sample3.tokW5 (mkTokenAmount Sample.tokM 5000000000000000000)
    = Ok (mkTokenAmount Sample.tokBPT 5000000000000000000).
Proof.
  split; [repeat constructor|].
  split; [vm_compute; reflexivity|].
  split; [vm_compute; reflexivity|].
  split; [repeat constructor|].
  vm_compute. reflexivity.
Qed.

(** C2, amended.  In a stable pool, [swapGivenIn] and [swapGivenOut] throw
    'Pool does not contain the tokens provided' whenever no entry of the
    token list has the address of the input token or of the output token,
    whatever the amount and the chain.  In a linear pool both swaps fail
    whenever no entry of the token list has the address of the input token
    or of the output token, and also whenever the input token equals none of
    the pool's three tokens (chain and address). *)
Theorem C2_unknown_token_fails :
  (∀ (SM : StableMath) (h : gmap nat Stable.cell) p ts
     tokenIn tokenOut swapAmount,
     h !! Stable.tokens p = Some (Stable.TokArr ts) →
     List.find (Stable.hasAddress (address tokenIn)) ts = None
     ∨ List.find (Stable.hasAddress (address tokenOut)) ts = None →
     (Stable.swapGivenIn p tokenIn tokenOut swapAmount h).1
       = Err PoolDoesNotContainTokens
     ∧ (Stable.swapGivenOut p tokenIn tokenOut swapAmount h).1
       = Err PoolDoesNotContainTokens)
  ∧ (∀ (LM : LinearMath) p tokenIn tokenOut swapAmount,
     List.find (Linear.hasAddress (address tokenIn)) (Linear.tokens p) = None
     ∨ List.find (Linear.hasAddress (address tokenOut)) (Linear.tokens p)
       = None →
     failed (Linear.swapGivenIn p tokenIn tokenOut swapAmount)
     ∧ failed (Linear.swapGivenOut p tokenIn tokenOut swapAmount))
  ∧ (∀ (LM : LinearMath) p tokenIn tokenOut swapAmount,
     Forall (λ t, isEqual tokenIn (token t) = false) (Linear.tokens p) →
     Linear.swapGivenIn p tokenIn tokenOut swapAmount
       = Err PoolDoesNotContainTokens
     ∧ failed (Linear.swapGivenOut p tokenIn tokenOut swapAmount)).
Proof.
  split; [|split].
  - intros SM h p ts tokenIn tokenOut a. apply stable_swap_unknown_token.
  - intros LM p tokenIn tokenOut a. apply linear_swap_unknown_token.
  - intros LM p tokenIn tokenOut a Hall. unfold Linear.tokens in Hall.
    apply Forall_cons in Hall as [E1 Hall].
    apply Forall_cons in Hall as [E2 Hall].
    apply Forall_cons in Hall as [E3 _].
    cbn [token] in E1, E2, E3. split.
    + unfold Linear.swapGivenIn. cbv zeta. by rewrite E1, E2, E3.
    + unfold Linear.swapGivenOut. cbv zeta.
      destruct (defined _) as [tO|e]; simpl; [|by exists e].
      destruct (_ <? _); [by eexists|]. rewrite E1, E2, E3. by eexists.
Qed.

Lemma C2_unknown_token_fails_witness :
  ((Stable.swapGivenIn (H := constantSumMath) Sample.stablePool Sample.tokX
      Sample.tokA (mkTokenAmount Sample.tokX 1) Sample.stableStore).1
     = Err PoolDoesNotContainTokens
   ∧ (Stable.swapGivenOut (H := constantSumMath) Sample.stablePool Sample.tokX
        Sample.tokA (mkTokenAmount Sample.tokX 1) Sample.stableStore).1
     = Err PoolDoesNotContainTokens)
  ∧ (failed (Linear.swapGivenIn (H := parityLinearMath) Sample.linearPool
               Sample.tokM Sample.tokX (mkTokenAmount Sample.tokM 5))
     ∧ failed (Linear.swapGivenOut (H := parityLinearMath) Sample.linearPool
                 Sample.tokM Sample.tokX (mkTokenAmount Sample.tokM 5)))
  ∧ Linear.swapGivenIn (H := parityLinearMath) Sample.linearPool
      Sample3.tokW5 Sample.tokM (mkTokenAmount Sample3.tokW5 5)
    = Err PoolDoesNotContainTokens.
Proof.
  destruct C2_unknown_token_fails as (HS & HL & HE).
  split; [|split].
  - apply (HS constantSumMath Sample.stableStore Sample.stablePool
             Sample.stableTokens).
    + reflexivity.
    + left. reflexivity.
  - apply (HL parityLinearMath). right. reflexivity.
  - apply (HE parityLinearMath Sample.linearPool Sample3.tokW5 Sample.tokM).
    repeat constructor.
Defined.

(* ================================================================== *)
(** * The steps of a stable swap that returns *)
(* ================================================================== *)

Lemma bind_liftR_run {C A B} (r : result A) (f : A → M C B) h :
  (liftR r ≫= f) h = match r with Ok a => f a h | Err e => (Err e, h) end.
Proof. rewrite bind_run. unfold liftR. by destruct r. Qed.

Lemma bind_alloc_run {C B} (c : C) (f : nat → M C B) h :
  (allocArr c ≫= f) h = f (fresh (dom h)) (<[fresh (dom h) := c]> h).
Proof. by rewrite bind_run. Qed.

Tactic Notation "step_liftR" ident(name) :=
  rewrite bind_liftR_run;
  match goal with
  | |- context [match ?r with Ok _ => _ | Err _ => _ end] =>
      destruct r as [name|?] eqn:?; [|by intros [=]]
  end.

Section StableRun.
Context `{StableMath}.
Implicit Types h : gmap nat Stable.cell.

(** A [swapGivenIn] that returns went through every step: the fee came off
    the amount given, the rate was applied, the invariant converged, the
    swap formula ran on the result, and its outcome was converted back. *)
Lemma swapGivenIn_Ok_steps h p ts noBpt tokenIn tokenOut swapAmount tIn tOut out :
  h !! Stable.tokens p = Some (Stable.TokArr ts) →
  h !! Stable.tokensNoBpt p = Some (Stable.TokArr noBpt) →
  List.find (Stable.hasAddress (address tokenIn)) ts = Some tIn →
  List.find (Stable.hasAddress (address tokenOut)) ts = Some tOut →
  (Stable.swapGivenIn p tokenIn tokenOut swapAmount h).1 = Ok out →
  ∃ amountInWithFee amountInWithRate bs invariant bpt h1 out18 amountOut,
    Stable.subtractSwapFeeAmount p swapAmount = Ok amountInWithFee
    ∧ TokenAmount.mulDownFixed amountInWithFee (Stable.pt_rate tIn)
      = Ok amountInWithRate
    ∧ Stable.scale18s noBpt = Ok bs
    ∧ Stable._calculateInvariant (Stable.amp p) bs = Ok invariant
    ∧ at_index ts (Stable.bptIndex p) = Some bpt
    ∧ (Stable.tokenOutScale18 p tokenIn tokenOut (Stable.pt_token bpt) bs
         (length noBpt)
         (findIndex (Stable.hasAddress (address tokenIn)) noBpt)
         (findIndex (Stable.hasAddress (address tokenOut)) noBpt)
         (TokenAmount.scale18 amountInWithRate) invariant h1).1 = Ok out18
    ∧ TokenAmount.fromScale18Amount tokenOut out18 false = Ok amountOut
    ∧ TokenAmount.divDownFixed amountOut (Stable.pt_rate tOut) = Ok out.
Proof.
  intros Hh Hn Hin Hout.
  apply find_Some_findIndex in Hin as [Hi0 Hiat].
  apply find_Some_findIndex in Hout as [Ho0 Hoat].
  unfold Stable.swapGivenIn. rewrite bind_run, (readTok_run _ _ _ Hh).
  cbv zeta.
  destruct (_ || _); [by intros [=]|].
  rewrite bind_liftR_run, Hiat. cbn [defined].
  destruct (_ <? _); [by intros [=]|].
  rewrite bind_run, (readTok_run _ _ _ Hn).
  step_liftR afee. step_liftR arate. step_liftR bs.
  rewrite bind_alloc_run.
  step_liftR inv.
  rewrite bind_liftR_run.
  destruct (at_index ts (Stable.bptIndex p)) as [bpt|] eqn:Hbpt;
    cbn [defined]; [|by intros [=]].
  rewrite bind_run.
  match goal with
  | |- context [Stable.tokenOutScale18 ?a ?b ?c ?d ?e ?f ?g ?i ?j ?k ?s] =>
      destruct (Stable.tokenOutScale18 a b c d e f g i j k s)
        as [[out18|?] h2] eqn:Hmath; [|by intros [=]]
  end.
  step_liftR amountOut.
  rewrite bind_liftR_run, Hoat. cbn [defined].
  unfold liftR. cbn [fst]. intros Hfinal.
  eexists afee, arate, bs, inv, bpt, _, out18, amountOut.
  rewrite Hmath. repeat split; done.
Qed.

(** A [swapGivenOut] that returns: the rate was applied to the amount asked
    for, the invariant converged, the swap formula ran, its outcome was
    converted to a raw amount rounding up, the fee was added, and the
    result was divided by the rate of the input token. *)
Lemma swapGivenOut_Ok_steps h p ts noBpt tokenIn tokenOut swapAmount tIn tOut out :
  h !! Stable.tokens p = Some (Stable.TokArr ts) →
  h !! Stable.tokensNoBpt p = Some (Stable.TokArr noBpt) →
  List.find (Stable.hasAddress (address tokenIn)) ts = Some tIn →
  List.find (Stable.hasAddress (address tokenOut)) ts = Some tOut →
  (Stable.swapGivenOut p tokenIn tokenOut swapAmount h).1 = Ok out →
  ∃ amountOutWithRate bs invariant bpt h1 in18 amountIn amountInWithFee,
    TokenAmount.mulDownFixed swapAmount (Stable.pt_rate tOut)
      = Ok amountOutWithRate
    ∧ Stable.scale18s noBpt = Ok bs
    ∧ Stable._calculateInvariant (Stable.amp p) bs = Ok invariant
    ∧ at_index ts (Stable.bptIndex p) = Some bpt
    ∧ (Stable.tokenInScale18 p tokenIn tokenOut (Stable.pt_token bpt) bs
         (length noBpt)
         (findIndex (Stable.hasAddress (address tokenIn)) noBpt)
         (findIndex (Stable.hasAddress (address tokenOut)) noBpt)
         (TokenAmount.scale18 amountOutWithRate) invariant h1).1 = Ok in18
    ∧ TokenAmount.fromScale18Amount tokenIn in18 true = Ok amountIn
    ∧ Stable.addSwapFeeAmount p amountIn = Ok amountInWithFee
    ∧ TokenAmount.divDownFixed amountInWithFee (Stable.pt_rate tIn) = Ok out.
Proof.
  intros Hh Hn Hin Hout.
  apply find_Some_findIndex in Hin as [Hi0 Hiat].
  apply find_Some_findIndex in Hout as [Ho0 Hoat].
  unfold Stable.swapGivenOut. rewrite bind_run, (readTok_run _ _ _ Hh).
  cbv zeta.
  destruct (_ || _); [by intros [=]|].
  rewrite bind_liftR_run, Hoat. cbn [defined].
  destruct (_ <? _); [by intros [=]|].
  rewrite bind_run, (readTok_run _ _ _ Hn).
  step_liftR arate. step_liftR bs.
  rewrite bind_alloc_run.
  step_liftR inv.
  rewrite bind_liftR_run.
  destruct (at_index ts (Stable.bptIndex p)) as [bpt|] eqn:Hbpt;
    cbn [defined]; [|by intros [=]].
  rewrite bind_run.
  match goal with
  | |- context [Stable.tokenInScale18 ?a ?b ?c ?d ?e ?f ?g ?i ?j ?k ?s] =>
      destruct (Stable.tokenInScale18 a b c d e f g i j k s)
        as [[in18|?] h2] eqn:Hmath; [|by intros [=]]
  end.
  step_liftR amountIn. step_liftR afee.
  rewrite bind_liftR_run, Hiat. cbn [defined].
  unfold liftR. cbn [fst]. intros Hfinal.
  eexists arate, bs, inv, bpt, _, in18, amountIn, afee.
  rewrite Hmath. repeat split; done.
Qed.

End StableRun.

(* ================================================================== *)
(** * C3: the swap fee *)
(* ================================================================== *)

(** C3, as stated, fails: [addSwapFeeAmount] divides by the complement of the
    fee rounding UP ([divUpFixed]), not down.  In the sample pool (fee
    0.04%) one raw unit becomes 2 with the fee added; the round-down
    quotient is 1. *)
Lemma C3_counterexample :
  ∃ up down,
    Stable.addSwapFeeAmount Sample.stablePool (mkTokenAmount Sample.tokA 1)
      = Ok up
    ∧ TokenAmount.divDownFixed (mkTokenAmount Sample.tokA 1)
        (MathSol.complementFixed (Stable.swapFee Sample.stablePool)) = Ok down
    ∧ amount down < amount up.
Proof.
  exists (mkTokenAmount Sample.tokA 2), (mkTokenAmount Sample.tokA 1).
  repeat split; vm_compute; reflexivity.
Qed.

Lemma subtractSwapFeeAmount_amount p a a' :
  validDecimals (token a) → 0 ≤ amount a → 0 ≤ Stable.swapFee p →
  Stable.subtractSwapFeeAmount p a = Ok a' →
  a' = mkTokenAmount (token a)
         (amount a - MathSol.mulUpFixed (amount a) (Stable.swapFee p)).
Proof.
  intros Hd Ha Hf. unfold Stable.subtractSwapFeeAmount.
  rewrite mulUpFixed_amount by done. cbn [mbind result_bind].
  set (feeAmount := mkTokenAmount (token a) _).
  pose proof (mulUpFixed_ceil (amount a) (Stable.swapFee p) Ha Hf) as Hc.
  pose proof WAD_pos. pose proof (scalar_pos _ Hd) as Hs.
  assert (0 ≤ amount feeAmount) as Hfee0 by (simpl; nia).
  intros Hsub.
  destruct (decide (amount feeAmount ≤ amount a)) as [Hle|Hgt].
  - rewrite (sub_amount a feeAmount Hd eq_refl) in Hsub by lia.
    by injection Hsub as <-.
  - unfold TokenAmount.sub, TokenAmount.scale18 in Hsub.
    change (token feeAmount) with (token a) in Hsub.
    destruct (_ <? _) eqn:E in Hsub; [done|].
    apply Z.ltb_ge in E. nia.
Qed.

Lemma addSwapFeeAmount_amount p a a' :
  validDecimals (token a) → 0 ≤ amount a → 0 ≤ Stable.swapFee p < WAD →
  Stable.addSwapFeeAmount p a = Ok a' →
  token a' = token a
  ∧ MathSol.divUpFixed (amount a) (WAD - Stable.swapFee p) = Ok (amount a').
Proof.
  intros Hd Ha Hf. unfold Stable.addSwapFeeAmount, MathSol.complementFixed.
  destruct (Stable.swapFee p <? WAD) eqn:E; [|lia].
  destruct (MathSol.divUpFixed (amount a) (WAD - Stable.swapFee p))
    as [r|e] eqn:Hr.
  - assert (0 < WAD - Stable.swapFee p) as Hx by lia.
    rewrite (divUpFixed_amount a _ r Hd Ha Hx Hr).
    by intros [= <-].
  - unfold MathSol.divUpFixed in Hr.
    destruct (WAD - Stable.swapFee p =? 0) eqn:E0; [lia|].
    by destruct (amount a =? 0).
Qed.

(** C3, amended.  In a stable pool the swap fee is a round-up product
    ([mulUpFixed]) taken off the amount given before the invariant and the
    swap formula run ([swapGivenIn]); in [swapGivenOut] the formula runs on
    the amount asked for, and the fee is then added to its outcome by a
    round-UP division by the complement of the fee ([divUpFixed]).  Both
    roundings are against the trader. *)
Theorem C3_fee_rounding :
  (∀ p a a',
     validDecimals (token a) → 0 ≤ amount a → 0 ≤ Stable.swapFee p →
     Stable.subtractSwapFeeAmount p a = Ok a' →
     ∃ feeAmount,
       amount a' = amount a - feeAmount
       ∧ (feeAmount - 1) * WAD < amount a * Stable.swapFee p ≤ feeAmount * WAD)
  ∧ (∀ p a a',
     validDecimals (token a) → 0 ≤ amount a → 0 ≤ Stable.swapFee p < WAD →
     Stable.addSwapFeeAmount p a = Ok a' →
     (amount a' - 1) * (WAD - Stable.swapFee p) < amount a * WAD
       ≤ amount a' * (WAD - Stable.swapFee p))
  ∧ (∀ (SM : StableMath) (h : gmap nat Stable.cell) p ts noBpt
       tokenIn tokenOut swapAmount tIn tOut out,
     h !! Stable.tokens p = Some (Stable.TokArr ts) →
     h !! Stable.tokensNoBpt p = Some (Stable.TokArr noBpt) →
     List.find (Stable.hasAddress (address tokenIn)) ts = Some tIn →
     List.find (Stable.hasAddress (address tokenOut)) ts = Some tOut →
     ((Stable.swapGivenIn p tokenIn tokenOut swapAmount h).1 = Ok out →
      ∃ amountInWithFee amountInWithRate bs invariant bpt h1 out18,
        Stable.subtractSwapFeeAmount p swapAmount = Ok amountInWithFee
        ∧ TokenAmount.mulDownFixed amountInWithFee (Stable.pt_rate tIn)
          = Ok amountInWithRate
        ∧ Stable._calculateInvariant (Stable.amp p) bs = Ok invariant
        ∧ (Stable.tokenOutScale18 p tokenIn tokenOut (Stable.pt_token bpt) bs
             (length noBpt)
             (findIndex (Stable.hasAddress (address tokenIn)) noBpt)
             (findIndex (Stable.hasAddress (address tokenOut)) noBpt)
             (TokenAmount.scale18 amountInWithRate) invariant h1).1
          = Ok out18)
     ∧ ((Stable.swapGivenOut p tokenIn tokenOut swapAmount h).1 = Ok out →
        ∃ amountOutWithRate bs invariant bpt h1 in18 amountIn amountInWithFee,
          TokenAmount.mulDownFixed swapAmount (Stable.pt_rate tOut)
            = Ok amountOutWithRate
          ∧ Stable._calculateInvariant (Stable.amp p) bs = Ok invariant
          ∧ (Stable.tokenInScale18 p tokenIn tokenOut (Stable.pt_token bpt) bs
               (length noBpt)
               (findIndex (Stable.hasAddress (address tokenIn)) noBpt)
               (findIndex (Stable.hasAddress (address tokenOut)) noBpt)
               (TokenAmount.scale18 amountOutWithRate) invariant h1).1
            = Ok in18
          ∧ TokenAmount.fromScale18Amount tokenIn in18 true = Ok amountIn
          ∧ Stable.addSwapFeeAmount p amountIn = Ok amountInWithFee
          ∧ TokenAmount.divDownFixed amountInWithFee (Stable.pt_rate tIn)
            = Ok out)).
Proof.
  split; [|split].
  - intros p a a' Hd Ha Hf Hsub.
    rewrite (subtractSwapFeeAmount_amount p a a' Hd Ha Hf Hsub). simpl.
    eexists. split; [reflexivity|]. by apply mulUpFixed_ceil.
  - intros p a a' Hd Ha Hf Hadd.
    destruct (addSwapFeeAmount_amount p a a' Hd Ha Hf Hadd) as [_ Hdiv].
    assert (0 < WAD - Stable.swapFee p) as Hx by lia.
    apply (divUpFixed_ceil _ _ _ Ha Hx Hdiv).
  - intros SM h p ts noBpt tokenIn tokenOut a tIn tOut out Hh Hn Hin Hout.
    split; intros Hrun.
    + destruct (swapGivenIn_Ok_steps _ _ _ _ _ _ _ _ _ _ Hh Hn Hin Hout Hrun)
        as (afee & arate & bs & inv & bpt & h1 & out18 & aOut
            & ? & ? & ? & ? & ? & ? & ? & ?).
      by exists afee, arate, bs, inv, bpt, h1, out18.
    + destruct (swapGivenOut_Ok_steps _ _ _ _ _ _ _ _ _ _ Hh Hn Hin Hout Hrun)
        as (arate & bs & inv & bpt & h1 & in18 & aIn & afee
            & ? & ? & ? & ? & ? & ? & ? & ?).
      by exists arate, bs, inv, bpt, h1, in18, aIn, afee.
Qed.

Lemma C3_fee_rounding_witness :
  (∃ feeAmount,
     999 = 1000 - feeAmount
     ∧ (feeAmount - 1) * WAD < 1000 * 400000000000000 ≤ feeAmount * WAD)
  ∧ ((2 - 1) * (WAD - 400000000000000) < 1 * WAD
       ≤ 2 * (WAD - 400000000000000))
  ∧ (∃ amountInWithFee amountInWithRate,
       Stable.subtractSwapFeeAmount Sample.stablePool
         (mkTokenAmount Sample.tokA 50000000000000000000)
         = Ok amountInWithFee
       ∧ TokenAmount.mulDownFixed amountInWithFee 1500000000000000000
         = Ok amountInWithRate)
  ∧ (∃ amountIn amountInWithFee,
       Stable.addSwapFeeAmount Sample.stablePool amountIn = Ok amountInWithFee
       ∧ TokenAmount.divDownFixed amountInWithFee 1500000000000000000
         = Ok (mkTokenAmount Sample.tokA 666933440043)).
Proof.
  destruct C3_fee_rounding as (Hsub & Hadd & Hswap).
  split; [|split; [|split]].
  - apply (Hsub Sample.stablePool (mkTokenAmount Sample.tokA 1000)
             (mkTokenAmount Sample.tokA 999)).
    + unfold validDecimals. simpl. lia.
    + simpl. lia.
    + simpl. lia.
    + vm_compute. reflexivity.
  - apply (Hadd Sample.stablePool (mkTokenAmount Sample.tokA 1)
             (mkTokenAmount Sample.tokA 2)).
    + unfold validDecimals. simpl. lia.
    + simpl. lia.
    + simpl. unfold WAD. lia.
    + vm_compute. reflexivity.
  - destruct (proj1 (Hswap constantSumMath Sample.stableStore
                       Sample.stablePool Sample.stableTokens
                       [Stable.IsToken Sample.tokenB;
                        Stable.IsToken Sample.tokenA]
                       Sample.tokA Sample.tokB
                       (mkTokenAmount Sample.tokA 50000000000000000000)
                       (Stable.IsToken Sample.tokenA)
                       (Stable.IsToken Sample.tokenB)
                       (mkTokenAmount Sample.tokB 74970000)
                       eq_refl eq_refl eq_refl eq_refl)
                ltac:(vm_compute; reflexivity))
      as (afee & arate & _ & _ & _ & _ & _ & Hf & Hr & _).
    exists afee, arate. split; [exact Hf|exact Hr].
  - destruct (proj2 (Hswap constantSumMath Sample.stableStore
                       Sample.stablePool Sample.stableTokens
                       [Stable.IsToken Sample.tokenB;
                        Stable.IsToken Sample.tokenA]
                       Sample.tokA Sample.tokB
                       (mkTokenAmount Sample.tokB 1)
                       (Stable.IsToken Sample.tokenA)
                       (Stable.IsToken Sample.tokenB)
                       (mkTokenAmount Sample.tokA 666933440043)
                       eq_refl eq_refl eq_refl eq_refl)
                ltac:(vm_compute; reflexivity))
      as (_ & _ & _ & _ & _ & _ & aIn & afee & _ & _ & _ & _ & Hf & Hr).
    exists aIn, afee. split; [exact Hf|exact Hr].
Defined.

(* ================================================================== *)
(** * C4: rounding directions *)
(* ================================================================== *)

(** What [swapGivenIn] returns is rounded down twice: the 18-decimal outcome
    of the formula to a raw amount, and the division by the rate. *)
Lemma swapGivenIn_rounds_down `{StableMath}
    (h : gmap nat Stable.cell) p ts noBpt tokenIn tokenOut swapAmount
    tIn tOut out :
  h !! Stable.tokens p = Some (Stable.TokArr ts) →
  h !! Stable.tokensNoBpt p = Some (Stable.TokArr noBpt) →
  List.find (Stable.hasAddress (address tokenIn)) ts = Some tIn →
  List.find (Stable.hasAddress (address tokenOut)) ts = Some tOut →
  (Stable.swapGivenIn p tokenIn tokenOut swapAmount h).1 = Ok out →
  ∃ out18 amountOut,
    TokenAmount.fromScale18Amount tokenOut out18 false = Ok amountOut
    ∧ TokenAmount.divDownFixed amountOut (Stable.pt_rate tOut) = Ok out
    ∧ (validDecimals tokenOut → 0 ≤ out18 → 0 < Stable.pt_rate tOut →
       amount amountOut * TokenAmount.scalar tokenOut ≤ out18
         < (amount amountOut + 1) * TokenAmount.scalar tokenOut
       ∧ amount out * Stable.pt_rate tOut ≤ amount amountOut * WAD
         < (amount out + 1) * Stable.pt_rate tOut).
Proof.
  intros Hh Hn Hin Hout Hrun.
  destruct (swapGivenIn_Ok_steps _ _ _ _ _ _ _ _ _ _ Hh Hn Hin Hout Hrun)
    as (afee & arate & bs & inv & bpt & h1 & out18 & aOut
        & _ & _ & _ & _ & _ & _ & Hfrom & Hdiv).
  exists out18, aOut. split; [done|]. split; [done|].
  intros Hd H18 Hrate. pose proof (scalar_pos _ Hd) as Hs.
  rewrite fromScale18Amount_down in Hfrom by done.
  injection Hfrom as <-. cbn [amount token] in *.
  split; [apply quot_spec; lia|].
  assert (0 ≤ out18 ÷ TokenAmount.scalar tokenOut) as Hraw
    by (apply Z.quot_pos; lia).
  destruct (MathSol.divDownFixed (out18 ÷ TokenAmount.scalar tokenOut)
              (Stable.pt_rate tOut)) as [r|e] eqn:Hr.
  - erewrite divDownFixed_amount in Hdiv; [|done|done|done|exact Hr].
    injection Hdiv as <-. cbn [amount].
    by apply divDownFixed_floor.
  - unfold MathSol.divDownFixed in Hr.
    destruct (Stable.pt_rate tOut =? 0) eqn:E0; [lia|].
    by destruct (_ =? 0) in Hr.
Qed.

(** C4 at the failing input.  The sample pool holds token A at price rate
    1.5.  Asking [swapGivenOut] for one raw unit of B paid in A: the formula
    gives 10^12 (18 decimals), the raw amount is 10^12, the fee makes it
    1000400160065 (rounded up), and the last step, the division by the rate
    of the input token, is [divDownFixed]: it returns 666933440043, below the
    exact quotient, where rounding up gives 666933440044. *)
Theorem C4_swapGivenOut_divides_by_rate_rounding_down :
  ∃ amountInWithFee out,
    (Stable.swapGivenOut (H := constantSumMath) Sample.stablePool
       Sample.tokA Sample.tokB (mkTokenAmount Sample.tokB 1)
       Sample.stableStore).1 = Ok out
    ∧ Stable.addSwapFeeAmount Sample.stablePool
        (mkTokenAmount Sample.tokA 1000000000000) = Ok amountInWithFee
    ∧ TokenAmount.divDownFixed amountInWithFee
        (Stable.pt_rate (Stable.IsToken Sample.tokenA)) = Ok out
    ∧ amount out = 666933440043
    ∧ amount out * Stable.pt_rate (Stable.IsToken Sample.tokenA)
      < amount amountInWithFee * WAD
    ∧ MathSol.divUpFixed (amount amountInWithFee)
        (Stable.pt_rate (Stable.IsToken Sample.tokenA))
      = Ok (amount out + 1).
Proof.
  exists (mkTokenAmount Sample.tokA 1000400160065),
         (mkTokenAmount Sample.tokA 666933440043).
  repeat split; vm_compute; reflexivity.
Qed.

(** What [swapGivenOut] returns is rounded up twice and then down: the
    18-decimal outcome of the formula to a raw amount (up), the fee (up), the
    division by the rate of the input token (down). *)
Lemma swapGivenOut_rounds_up_up_down `{StableMath}
    (h : gmap nat Stable.cell) p ts noBpt tokenIn tokenOut swapAmount
    tIn tOut out :
  h !! Stable.tokens p = Some (Stable.TokArr ts) →
  h !! Stable.tokensNoBpt p = Some (Stable.TokArr noBpt) →
  List.find (Stable.hasAddress (address tokenIn)) ts = Some tIn →
  List.find (Stable.hasAddress (address tokenOut)) ts = Some tOut →
  (Stable.swapGivenOut p tokenIn tokenOut swapAmount h).1 = Ok out →
  ∃ in18 amountIn amountInWithFee,
    TokenAmount.fromScale18Amount tokenIn in18 true = Ok amountIn
    ∧ Stable.addSwapFeeAmount p amountIn = Ok amountInWithFee
    ∧ TokenAmount.divDownFixed amountInWithFee (Stable.pt_rate tIn) = Ok out
    ∧ (validDecimals tokenIn → 0 ≤ in18 → 0 ≤ Stable.swapFee p < WAD →
       0 < Stable.pt_rate tIn →
       (amount amountIn - 1) * TokenAmount.scalar tokenIn < in18
         ≤ amount amountIn * TokenAmount.scalar tokenIn
       ∧ (amount amountInWithFee - 1) * (WAD - Stable.swapFee p)
           < amount amountIn * WAD
           ≤ amount amountInWithFee * (WAD - Stable.swapFee p)
       ∧ amount out * Stable.pt_rate tIn ≤ amount amountInWithFee * WAD
           < (amount out + 1) * Stable.pt_rate tIn).
Proof.
  intros Hh Hn Hin Hout Hrun.
  destruct (swapGivenOut_Ok_steps _ _ _ _ _ _ _ _ _ _ Hh Hn Hin Hout Hrun)
    as (arate & bs & inv & bpt & h1 & in18 & aIn & afee
        & _ & _ & _ & _ & _ & Hfrom & Hadd & Hdiv).
  exists in18, aIn, afee. repeat (split; [done|]).
  intros Hd H18 Hfee Hrate. pose proof (scalar_pos _ Hd) as Hs.
  destruct (fromScale18Amount_up tokenIn in18 Hd H18) as (r & Hr & Hceil).
  rewrite Hr in Hfrom. injection Hfrom as <-. cbn [amount token] in *.
  split; [done|].
  assert (0 ≤ r) as Hr0.
  { apply (Z.mul_nonneg_cancel_r _ (TokenAmount.scalar tokenIn)); lia. }
  destruct (addSwapFeeAmount_amount p (mkTokenAmount tokenIn r) afee
              Hd Hr0 Hfee Hadd) as [Htok Hup].
  cbn [amount token] in *.
  assert (0 < WAD - Stable.swapFee p) as Hc by lia.
  pose proof (divUpFixed_ceil _ _ _ Hr0 Hc Hup) as Hfeeceil.
  split; [done|].
  assert (0 ≤ amount afee) as Hafee.
  { apply (Z.mul_nonneg_cancel_r _ (WAD - Stable.swapFee p)); [lia|].
    pose proof WAD_pos. nia. }
  destruct (MathSol.divDownFixed (amount afee) (Stable.pt_rate tIn))
    as [q|e] eqn:Hq.
  - erewrite divDownFixed_amount in Hdiv;
      [|by rewrite Htok|done|done|exact Hq].
    injection Hdiv as <-. cbn [amount].
    by apply divDownFixed_floor.
  - unfold MathSol.divDownFixed in Hq.
    destruct (Stable.pt_rate tIn =? 0) eqn:E0; [lia|].
    by destruct (_ =? 0) in Hq.
Qed.

(* ================================================================== *)
(** * C5: the swap limit *)
(* ================================================================== *)

Lemma almost_all (balance : Z) :
  0 ≤ balance →
  100 * ((balance * Linear.ALMOST_ONE) ÷ Linear.ONE) ≤ 99 * balance
    < 100 * ((balance * Linear.ALMOST_ONE) ÷ Linear.ONE + 1).
Proof.
  intros Hb.
  pose proof (quot_spec (balance * Linear.ALMOST_ONE) Linear.ONE) as Hq.
  unfold Linear.ALMOST_ONE, Linear.ONE in *. lia.
Qed.

(** C5, as stated, fails.  For a stable pool the given-out limit toward the
    pool's own BPT is 99% of the BPT balance, as for any token of rate one,
    not a multiple of it: 4.95 for the 5 BPT of the sample pool.  For a
    linear pool the given-in limit toward the BPT is the constant
    [MAX_TOKEN_BALANCE], while [swapGivenOut] at 99% of the BPT balance
    (990 of 1000) returns 990 at par. *)
Lemma C5_counterexample :
  ((Stable.getLimitAmountSwap Sample.stablePool Sample.tokA Sample.tokBPT
      GivenOut Sample.stableStore).1 = Ok 4950000000000000000
   ∧ 4950000000000000000 < Stable.pt_amount (Stable.IsBPT Sample.tokenBPT))
  ∧ (Linear.getLimitAmountSwap (H := parityLinearMath)
       (H0 := mainnetConstants) Sample.linearPool
       Sample.tokM Sample.tokBPT GivenIn = Ok (2 ^ 112 - 2)
     ∧ Linear.swapGivenOut (H := parityLinearMath) Sample.linearPool
         Sample.tokM Sample.tokBPT
         (mkTokenAmount Sample.tokBPT 990000000000000000000)
       = Ok (mkTokenAmount Sample.tokM 990000000000000000000)).
Proof. repeat split; vm_compute; reflexivity. Qed.

(** C5, amended.  For member tokens.  Linear pool: the given-in limit is the
    input amount [swapGivenOut] returns at 99% of the balance of the output
    token when that token is not the BPT, and the constant
    [MAX_TOKEN_BALANCE] when it is; the given-out limit is 99% of the
    balance of the output token, and ten times the balance for the BPT.
    Stable pool: the given-out limit is the balance of the output token times
    0.99 divided by its rate, for the BPT as for any other token: 99% of the
    balance at rate one, which is the rate of every BPT. *)
Theorem C5_limit_amounts :
  (∀ (LM : LinearMath) (K : Constants) p tokenIn tokenOut tIn tOut,
     List.find (Linear.hasAddress (address tokenIn)) (Linear.tokens p)
       = Some tIn →
     List.find (Linear.hasAddress (address tokenOut)) (Linear.tokens p)
       = Some tOut →
     let almost := (amount tOut * Linear.ALMOST_ONE) ÷ Linear.ONE in
     (0 ≤ amount tOut → 100 * almost ≤ 99 * amount tOut < 100 * (almost + 1))
     ∧ (isEqual tokenOut (Linear.bpt_token (Linear.bptToken p)) = false →
        (∀ a r,
           TokenAmount.fromRawAmount tokenOut almost = Ok a →
           Linear.swapGivenOut p tokenIn tokenOut a = Ok r →
           Linear.getLimitAmountSwap p tokenIn tokenOut GivenIn
             = Ok (amount r))
        ∧ Linear.getLimitAmountSwap p tokenIn tokenOut GivenOut = Ok almost)
     ∧ (isEqual tokenOut (Linear.bpt_token (Linear.bptToken p)) = true →
        Linear.getLimitAmountSwap p tokenIn tokenOut GivenIn
          = Ok Linear.MAX_TOKEN_BALANCE
        ∧ Linear.getLimitAmountSwap p tokenIn tokenOut GivenOut
          = Ok (10 * amount tOut)))
  ∧ (∀ (h : gmap nat Stable.cell) p ts tokenIn tokenOut tIn tOut,
     h !! Stable.tokens p = Some (Stable.TokArr ts) →
     List.find (Stable.hasAddress (address tokenIn)) ts = Some tIn →
     List.find (Stable.hasAddress (address tokenOut)) ts = Some tOut →
     (Stable.pt_rate tOut ≠ 0 →
      (Stable.getLimitAmountSwap p tokenIn tokenOut GivenOut h).1
        = Ok ((Stable.pt_amount tOut * Stable.ALMOST_ONE)
              ÷ Stable.pt_rate tOut))
     ∧ (Stable.pt_rate tOut = WAD → 0 ≤ Stable.pt_amount tOut →
        ∃ limit,
          (Stable.getLimitAmountSwap p tokenIn tokenOut GivenOut h).1
            = Ok limit
          ∧ 100 * limit ≤ 99 * Stable.pt_amount tOut < 100 * (limit + 1))
     ∧ (∀ (K : Constants) t amt b,
        Stable.newBPT t amt = Ok b → Stable.pt_rate (Stable.IsBPT b) = WAD)).
Proof.
  split.
  - intros LM K p tokenIn tokenOut tIn tOut Hin Hout almost.
    split; [apply almost_all|].
    unfold Linear.getLimitAmountSwap. rewrite Hin, Hout. split.
    + intros ->. split; [|done].
      intros a r Ha Hr. fold almost. by rewrite Ha; simpl; rewrite Hr.
    + intros ->. split; [done|]. f_equal.
      unfold Linear.MAX_RATIO, Linear.ONE.
      change 10000000000000000000 with (10 * 1000000000000000000).
      rewrite Z.mul_assoc, Z.quot_mul by done. lia.
  - intros h p ts tokenIn tokenOut tIn tOut Hh Hin Hout.
    assert (∀ k, Stable.getLimitAmountSwap p tokenIn tokenOut k h
                 = match k with
                   | GivenIn => liftR (bigdiv (Stable.pt_amount tIn *
                                  Stable.ALMOST_ONE) (Stable.pt_rate tIn)) h
                   | GivenOut => liftR (bigdiv (Stable.pt_amount tOut *
                                  Stable.ALMOST_ONE) (Stable.pt_rate tOut)) h
                   end) as Hrun.
    { intros k. unfold Stable.getLimitAmountSwap.
      rewrite bind_run, (readTok_run _ _ _ Hh), Hin, Hout. by destruct k. }
    split; [|split].
    + intros Hrate. rewrite Hrun. unfold liftR, bigdiv. cbn [fst].
      by destruct (decide (Stable.pt_rate tOut = 0)).
    + intros Hrate Hbal. rewrite Hrun, Hrate. unfold liftR, bigdiv. cbn [fst].
      destruct (decide (WAD = 0)) as [E|_]; [done|].
      eexists. split; [reflexivity|]. apply almost_all, Hbal.
    + intros K t amt b. unfold Stable.newBPT.
      destruct (TokenAmount.new t amt); simpl; [|done]. by intros [= <-].
Qed.

Lemma C5_limit_amounts_witness :
  (Linear.getLimitAmountSwap (H := parityLinearMath) (H0 := mainnetConstants)
     Sample.linearPool Sample.tokM Sample.tokW GivenIn
     = Ok 49500000000000000000
   ∧ Linear.getLimitAmountSwap (H := parityLinearMath)
       (H0 := mainnetConstants) Sample.linearPool Sample.tokM Sample.tokW
       GivenOut = Ok 49500000000000000000)
  ∧ (Linear.getLimitAmountSwap (H := parityLinearMath)
       (H0 := mainnetConstants) Sample.linearPool Sample.tokM Sample.tokBPT
       GivenIn = Ok (2 ^ 112 - 2)
     ∧ Linear.getLimitAmountSwap (H := parityLinearMath)
         (H0 := mainnetConstants) Sample.linearPool Sample.tokM Sample.tokBPT
         GivenOut = Ok 10000000000000000000000)
  ∧ (Stable.getLimitAmountSwap Sample.stablePool Sample.tokA Sample.tokB
       GivenOut Sample.stableStore).1 = Ok 9900000
  ∧ (∃ limit,
       (Stable.getLimitAmountSwap Sample.stablePool Sample.tokA Sample.tokBPT
          GivenOut Sample.stableStore).1 = Ok limit
       ∧ 100 * limit ≤ 99 * 5000000000000000000 < 100 * (limit + 1)).
Proof.
  destruct C5_limit_amounts as [HL HS].
  split; [|split; [|split]].
  - destruct (HL parityLinearMath mainnetConstants Sample.linearPool
                Sample.tokM Sample.tokW
                (mkTokenAmount Sample.tokM 100000000000000000000)
                (mkTokenAmount Sample.tokW 50000000000000000000)
                eq_refl eq_refl) as (_ & Hother & _).
    destruct (Hother eq_refl) as [Hin Hout]. split.
    + apply (Hin (mkTokenAmount Sample.tokW 49500000000000000000)
                 (mkTokenAmount Sample.tokM 49500000000000000000));
        reflexivity.
    + exact Hout.
  - destruct (HL parityLinearMath mainnetConstants Sample.linearPool
                Sample.tokM Sample.tokBPT
                (mkTokenAmount Sample.tokM 100000000000000000000)
                (mkTokenAmount Sample.tokBPT 1000000000000000000000)
                eq_refl eq_refl) as (_ & _ & Hbpt).
    exact (Hbpt eq_refl).
  - refine (proj1 (HS Sample.stableStore Sample.stablePool Sample.stableTokens
                     Sample.tokA Sample.tokB (Stable.IsToken Sample.tokenA)
                     (Stable.IsToken Sample.tokenB)
                     eq_refl eq_refl eq_refl) _).
    simpl. lia.
  - refine (proj1 (proj2 (HS Sample.stableStore Sample.stablePool
                            Sample.stableTokens Sample.tokA Sample.tokBPT
                            (Stable.IsToken Sample.tokenA)
                            (Stable.IsBPT Sample.tokenBPT)
                            eq_refl eq_refl eq_refl)) _ _).
    + reflexivity.
    + simpl. lia.
Defined.

(* ================================================================== *)
(** * C6: the stable invariant solver *)
(* ================================================================== *)

Lemma iterate_shift step D n :
  iterate step (step D) n = step (iterate step D n).
Proof.
  unfold iterate. induction n as [|n IH]; simpl; [done|]. by rewrite IH.
Qed.

Lemma newton_Ok step fuel D0 r :
  Stable.newton step fuel D0 = Ok r →
  ∃ n, (n < fuel)%nat
       ∧ r = iterate step D0 (S n)
       ∧ Z.abs (iterate step D0 (S n) - iterate step D0 n) ≤ 1
       ∧ ∀ m, (m < n)%nat →
              1 < Z.abs (iterate step D0 (S m) - iterate step D0 m).
Proof.
  revert D0.
  induction fuel as [|fuel IH]; intros D0; cbn [Stable.newton]; [done|].
  destruct (Z.abs (step D0 - D0) <=? 1) eqn:E.
  - apply Z.leb_le in E. intros [= <-]. exists 0%nat.
    split; [lia|]. split; [reflexivity|]. split; [exact E|]. lia.
  - apply Z.leb_gt in E.
    intros Hr. destruct (IH _ Hr) as (n & Hn & Hrn & Hclose & Hfar).
    assert (∀ k, iterate step D0 (S k) = iterate step (step D0) k) as Hshift.
    { intros k. by rewrite iterate_shift. }
    exists (S n). split; [lia|].
    split; [by rewrite Hshift|].
    split; [by rewrite !Hshift|].
    intros [|m] Hm; [exact E|]. rewrite !Hshift. apply Hfar. lia.
Qed.

Lemma newton_Err step fuel D0 e :
  Stable.newton step fuel D0 = Err e →
  e = InvariantDidNotConverge
  ∧ ∀ n, (n < fuel)%nat →
         1 < Z.abs (iterate step D0 (S n) - iterate step D0 n).
Proof.
  revert D0.
  induction fuel as [|fuel IH]; intros D0; cbn [Stable.newton].
  - intros [= <-]. split; [done|]. lia.
  - destruct (Z.abs (step D0 - D0) <=? 1) eqn:E; [done|].
    apply Z.leb_gt in E.
    intros Hr. destruct (IH _ Hr) as [-> Hfar]. split; [done|].
    assert (∀ k, iterate step D0 (S k) = iterate step (step D0) k) as Hshift.
    { intros k. by rewrite iterate_shift. }
    intros [|n] Hn; [exact E|]. rewrite !Hshift. apply Hfar. lia.
Qed.

Lemma newton_diverges step fuel D0 :
  (∀ n, (n < fuel)%nat →
        1 < Z.abs (iterate step D0 (S n) - iterate step D0 n)) →
  Stable.newton step fuel D0 = Err InvariantDidNotConverge.
Proof.
  intros Hfar. destruct (Stable.newton step fuel D0) as [r|e] eqn:E.
  - destruct (newton_Ok _ _ _ _ E) as (n & Hn & _ & Hclose & _).
    specialize (Hfar n Hn). lia.
  - by destruct (newton_Err _ _ _ _ E) as [-> _].
Qed.

Section InvariantFailure.
Context `{StableMath}.
Implicit Types h : gmap nat Stable.cell.

(** No swap returns when the invariant of the pool's balances did not
    converge. *)
Lemma swap_needs_invariant h p ts noBpt bs e tokenIn tokenOut swapAmount :
  h !! Stable.tokens p = Some (Stable.TokArr ts) →
  h !! Stable.tokensNoBpt p = Some (Stable.TokArr noBpt) →
  Stable.scale18s noBpt = Ok bs →
  Stable._calculateInvariant (Stable.amp p) bs = Err e →
  failed (Stable.swapGivenIn p tokenIn tokenOut swapAmount h).1
  ∧ failed (Stable.swapGivenOut p tokenIn tokenOut swapAmount h).1.
Proof.
  intros Hh Hn Hbs Hinv.
  destruct (List.find (Stable.hasAddress (address tokenIn)) ts)
    as [tIn|] eqn:Hin;
    [|destruct (stable_swap_unknown_token h p ts tokenIn tokenOut
                  swapAmount Hh (or_introl Hin)) as [-> ->];
      split; by eexists].
  destruct (List.find (Stable.hasAddress (address tokenOut)) ts)
    as [tOut|] eqn:Hout;
    [|destruct (stable_swap_unknown_token h p ts tokenIn tokenOut
                  swapAmount Hh (or_intror Hout)) as [-> ->];
      split; by eexists].
  split.
  - destruct (Stable.swapGivenIn p tokenIn tokenOut swapAmount h).1
      as [out|e'] eqn:Hrun; [|by eexists].
    destruct (swapGivenIn_Ok_steps _ _ _ _ _ _ _ _ _ _ Hh Hn Hin Hout Hrun)
      as (? & ? & bs' & inv & ? & ? & ? & ? & _ & _ & Hbs' & Hinv' & _).
    congruence.
  - destruct (Stable.swapGivenOut p tokenIn tokenOut swapAmount h).1
      as [out|e'] eqn:Hrun; [|by eexists].
    destruct (swapGivenOut_Ok_steps _ _ _ _ _ _ _ _ _ _ Hh Hn Hin Hout Hrun)
      as (? & bs' & inv & ? & ? & ? & ? & ? & _ & Hbs' & Hinv' & _).
    congruence.
Qed.

(** The error of the solver is the error of the swap, once the guards and
    the fee and rate arithmetic before the solver have passed. *)
Lemma swapGivenIn_propagates h p ts noBpt bs e tokenIn tokenOut swapAmount
    tIn tOut amountInWithFee amountInWithRate :
  h !! Stable.tokens p = Some (Stable.TokArr ts) →
  h !! Stable.tokensNoBpt p = Some (Stable.TokArr noBpt) →
  List.find (Stable.hasAddress (address tokenIn)) ts = Some tIn →
  List.find (Stable.hasAddress (address tokenOut)) ts = Some tOut →
  amount swapAmount ≤ Stable.pt_amount tIn →
  Stable.subtractSwapFeeAmount p swapAmount = Ok amountInWithFee →
  TokenAmount.mulDownFixed amountInWithFee (Stable.pt_rate tIn)
    = Ok amountInWithRate →
  Stable.scale18s noBpt = Ok bs →
  Stable._calculateInvariant (Stable.amp p) bs = Err e →
  (Stable.swapGivenIn p tokenIn tokenOut swapAmount h).1 = Err e.
Proof.
  intros Hh Hn Hin Hout Hle Hfee Hrate Hbs Hinv.
  apply find_Some_findIndex in Hin as [Hi0 Hiat].
  apply find_Some_findIndex in Hout as [Ho0 Hoat].
  unfold Stable.swapGivenIn. rewrite bind_run, (readTok_run _ _ _ Hh).
  cbv zeta.
  assert ((findIndex (Stable.hasAddress (address tokenIn)) ts <? 0)
          || (findIndex (Stable.hasAddress (address tokenOut)) ts <? 0)
          = false) as ->.
  { apply orb_false_iff. split; apply Z.ltb_ge; lia. }
  rewrite bind_liftR_run, Hiat. cbn [defined].
  destruct (Stable.pt_amount tIn <? amount swapAmount) eqn:Hlt;
    [apply Z.ltb_lt in Hlt; lia|].
  rewrite bind_run, (readTok_run _ _ _ Hn).
  rewrite bind_liftR_run, Hfee, bind_liftR_run, Hrate, bind_liftR_run, Hbs.
  rewrite bind_alloc_run, bind_liftR_run, Hinv. done.
Qed.

Lemma swapGivenOut_propagates h p ts noBpt bs e tokenIn tokenOut swapAmount
    tIn tOut amountOutWithRate :
  h !! Stable.tokens p = Some (Stable.TokArr ts) →
  h !! Stable.tokensNoBpt p = Some (Stable.TokArr noBpt) →
  List.find (Stable.hasAddress (address tokenIn)) ts = Some tIn →
  List.find (Stable.hasAddress (address tokenOut)) ts = Some tOut →
  amount swapAmount ≤ Stable.pt_amount tOut →
  TokenAmount.mulDownFixed swapAmount (Stable.pt_rate tOut)
    = Ok amountOutWithRate →
  Stable.scale18s noBpt = Ok bs →
  Stable._calculateInvariant (Stable.amp p) bs = Err e →
  (Stable.swapGivenOut p tokenIn tokenOut swapAmount h).1 = Err e.
Proof.
  intros Hh Hn Hin Hout Hle Hrate Hbs Hinv.
  apply find_Some_findIndex in Hin as [Hi0 Hiat].
  apply find_Some_findIndex in Hout as [Ho0 Hoat].
  unfold Stable.swapGivenOut. rewrite bind_run, (readTok_run _ _ _ Hh).
  cbv zeta.
  assert ((findIndex (Stable.hasAddress (address tokenIn)) ts <? 0)
          || (findIndex (Stable.hasAddress (address tokenOut)) ts <? 0)
          = false) as ->.
  { apply orb_false_iff. split; apply Z.ltb_ge; lia. }
  rewrite bind_liftR_run, Hoat. cbn [defined].
  destruct (Stable.pt_amount tOut <? amount swapAmount) eqn:Hlt;
    [apply Z.ltb_lt in Hlt; lia|].
  rewrite bind_run, (readTok_run _ _ _ Hn).
  rewrite bind_liftR_run, Hrate, bind_liftR_run, Hbs.
  rewrite bind_alloc_run, bind_liftR_run, Hinv. done.
Qed.

End InvariantFailure.

(** C6.  The solver (modelled from section 4.5 of the spec) always
    terminates.  It returns an iterate [D (n+1)] only when it differs from
    [D n] by at most one unit, and then it is the first such iterate, reached
    within the iteration budget.  Otherwise, and only then, it fails, always
    with InvariantDidNotConverge: it never returns an iterate that has not
    converged.  A stable pool swap never returns when the solver failed on
    the pool's balances, and the caller of [swapGivenIn] or [swapGivenOut]
    receives the solver's error. *)
Theorem C6_invariant_convergence :
  ∀ (SM : StableMath) amp balances,
    let D := iterate (newtonStep amp balances) (foldr Z.add 0 balances) in
    (∀ r, Stable._calculateInvariant amp balances = Ok r →
          ∃ n, (n < maxIterations)%nat
               ∧ r = D (S n)
               ∧ Z.abs (D (S n) - D n) ≤ 1
               ∧ ∀ m, (m < n)%nat → 1 < Z.abs (D (S m) - D m))
    ∧ (Stable._calculateInvariant amp balances = Err InvariantDidNotConverge
       ↔ ∀ n, (n < maxIterations)%nat → 1 < Z.abs (D (S n) - D n))
    ∧ (∀ e, Stable._calculateInvariant amp balances = Err e →
            e = InvariantDidNotConverge)
    ∧ (∀ (h : gmap nat Stable.cell) p ts noBpt tokenIn tokenOut swapAmount,
         amp = Stable.amp p →
         h !! Stable.tokens p = Some (Stable.TokArr ts) →
         h !! Stable.tokensNoBpt p = Some (Stable.TokArr noBpt) →
         Stable.scale18s noBpt = Ok balances →
         Stable._calculateInvariant amp balances
           = Err InvariantDidNotConverge →
         (failed (Stable.swapGivenIn p tokenIn tokenOut swapAmount h).1
          ∧ failed (Stable.swapGivenOut p tokenIn tokenOut swapAmount h).1)
         ∧ ∀ tIn tOut,
             List.find (Stable.hasAddress (address tokenIn)) ts = Some tIn →
             List.find (Stable.hasAddress (address tokenOut)) ts = Some tOut →
             (amount swapAmount ≤ Stable.pt_amount tIn →
              isOk (afee ← Stable.subtractSwapFeeAmount p swapAmount;
                    TokenAmount.mulDownFixed afee (Stable.pt_rate tIn))
                = true →
              (Stable.swapGivenIn p tokenIn tokenOut swapAmount h).1
                = Err InvariantDidNotConverge)
             ∧ (amount swapAmount ≤ Stable.pt_amount tOut →
                isOk (TokenAmount.mulDownFixed swapAmount
                        (Stable.pt_rate tOut)) = true →
                (Stable.swapGivenOut p tokenIn tokenOut swapAmount h).1
                  = Err InvariantDidNotConverge)).
Proof.
  intros SM amp balances D. unfold Stable._calculateInvariant.
  split; [|split; [|split]].
  - intros r Hr. by apply newton_Ok in Hr.
  - split.
    + intros He. by apply newton_Err in He as [_ ?].
    + apply newton_diverges.
  - intros e He. by apply newton_Err in He as [-> _].
  - intros h p ts noBpt tokenIn tokenOut a -> Hh Hn Hbs Hinv. split.
    + by eapply swap_needs_invariant.
    + intros tIn tOut Hin Hout. split.
      * intros Hle Hok.
        destruct (Stable.subtractSwapFeeAmount p a) as [afee|] eqn:Hfee;
          [|done].
        cbn [mbind result_bind] in Hok.
        destruct (TokenAmount.mulDownFixed afee _) as [arate|] eqn:Hrate;
          [|done].
        by eapply swapGivenIn_propagates.
      * intros Hle Hok.
        destruct (TokenAmount.mulDownFixed a _) as [arate|] eqn:Hrate;
          [|done].
        by eapply swapGivenOut_propagates.
Qed.

Lemma C6_invariant_convergence_witness :
  (∃ n, (n < 255)%nat
        ∧ 160000000000000000000
          = iterate (newtonStep (StableMath := constantSumMath) 200000
                       [10000000000000000000; 150000000000000000000])
              160000000000000000000 (S n))
  ∧ (∀ n, (n < 255)%nat →
          1 < Z.abs
                (iterate (newtonStep (StableMath := oscillatingMath) 200000
                            [10000000000000000000; 150000000000000000000])
                   160000000000000000000 (S n)
                 - iterate (newtonStep (StableMath := oscillatingMath) 200000
                              [10000000000000000000; 150000000000000000000])
                     160000000000000000000 n))
  ∧ (Stable.swapGivenIn (H := oscillatingMath) Sample.stablePool Sample.tokA
       Sample.tokB (mkTokenAmount Sample.tokA 50000000000000000000)
       Sample.stableStore).1 = Err InvariantDidNotConverge
  ∧ (Stable.swapGivenOut (H := oscillatingMath) Sample.stablePool Sample.tokA
       Sample.tokB (mkTokenAmount Sample.tokB 1)
       Sample.stableStore).1 = Err InvariantDidNotConverge.
Proof.
  split; [|split].
  - destruct (C6_invariant_convergence constantSumMath 200000
                [10000000000000000000; 150000000000000000000])
      as (Hok & _).
    destruct (Hok 160000000000000000000 ltac:(vm_compute; reflexivity))
      as (n & Hn & Hr & _).
    exists n. split; [exact Hn|exact Hr].
  - destruct (C6_invariant_convergence oscillatingMath 200000
                [10000000000000000000; 150000000000000000000])
      as (_ & Hiff & _).
    apply (proj1 Hiff). vm_compute. reflexivity.
  - destruct (C6_invariant_convergence oscillatingMath 200000
                [10000000000000000000; 150000000000000000000])
      as (_ & _ & _ & Hswap).
    destruct (Hswap Sample.stableStore Sample.stablePool Sample.stableTokens
                [Stable.IsToken Sample.tokenB; Stable.IsToken Sample.tokenA]
                Sample.tokA Sample.tokB
                (mkTokenAmount Sample.tokA 50000000000000000000)
                eq_refl eq_refl eq_refl eq_refl
                ltac:(vm_compute; reflexivity)) as [_ Hin].
    destruct (Hswap Sample.stableStore Sample.stablePool Sample.stableTokens
                [Stable.IsToken Sample.tokenB; Stable.IsToken Sample.tokenA]
                Sample.tokA Sample.tokB (mkTokenAmount Sample.tokB 1)
                eq_refl eq_refl eq_refl eq_refl
                ltac:(vm_compute; reflexivity)) as [_ Hout].
    split.
    + apply (proj1 (Hin (Stable.IsToken Sample.tokenA)
                        (Stable.IsToken Sample.tokenB) eq_refl eq_refl)).
      * simpl. lia.
      * vm_compute. reflexivity.
    + apply (proj2 (Hout (Stable.IsToken Sample.tokenA)
                         (Stable.IsToken Sample.tokenB) eq_refl eq_refl)).
      * simpl. lia.
      * vm_compute. reflexivity.
Defined.

(* ================================================================== *)
(** * Building a stable pool *)
(* ================================================================== *)

Section StableBuild.
Context `{Parsers} `{Constants}.
Implicit Types h : gmap nat Stable.cell.

Lemma constructor_run h id amp fee toks total ts addr :
  getPoolAddress id = Ok addr →
  h !! toks = Some (Stable.TokArr ts) →
  Stable.constructor id amp fee toks total h
  = (Ok (Stable.mkStablePool id addr amp fee toks (fresh (dom h)) total
           (findIndex (Stable.hasAddress addr) ts)),
     <[fresh (dom h) :=
         Stable.TokArr (splice1 (findIndex (Stable.hasAddress addr) ts) ts)]>
       h).
Proof.
  intros Haddr Hts. unfold Stable.constructor.
  rewrite bind_liftR_run, Haddr, bind_run, (readTok_run _ _ _ Hts).
  cbv zeta. rewrite bind_alloc_run, bind_run.
  rewrite (readTok_run _ _ ts) by apply lookup_insert_eq.
  rewrite bind_run. unfold writeArr. cbn [mret M_ret].
  by rewrite insert_insert_eq.
Qed.

Lemma constructor_Ok h id amp fee toks total p h' :
  Stable.constructor id amp fee toks total h = (Ok p, h') →
  ∃ addr ts,
    getPoolAddress id = Ok addr
    ∧ h !! toks = Some (Stable.TokArr ts)
    ∧ p = Stable.mkStablePool id addr amp fee toks (fresh (dom h)) total
            (findIndex (Stable.hasAddress addr) ts)
    ∧ h' = <[fresh (dom h) :=
               Stable.TokArr
                 (splice1 (findIndex (Stable.hasAddress addr) ts) ts)]> h.
Proof.
  intros Hrun.
  destruct (getPoolAddress id) as [addr|e] eqn:Haddr;
    [|by unfold Stable.constructor in Hrun;
         rewrite bind_liftR_run, Haddr in Hrun].
  destruct (h !! toks) as [[| ts |]|] eqn:Hts;
    try (unfold Stable.constructor in Hrun;
         rewrite bind_liftR_run, Haddr, bind_run in Hrun;
         unfold Stable.readTok in Hrun; rewrite bind_run in Hrun;
         unfold readArr in Hrun; rewrite Hts in Hrun; done).
  rewrite (constructor_run _ _ _ _ _ _ _ _ Haddr Hts) in Hrun.
  injection Hrun as <- <-. by exists addr, ts.
Qed.

(** What [fromRawPool] does when it returns a pool. *)
Lemma fromRawPool_Ok h raw es p h' :
  h !! Stable.raw_tokens raw = Some (Stable.RawArr es) →
  Stable.fromRawPool raw h = (Ok p, h') →
  ∃ mapped total a fee addr,
    mapM (Stable.toPoolToken raw) (sortByIndex es) = Ok mapped
    ∧ unsafeFastParseEther (Stable.raw_totalShares raw) = Ok total
    ∧ toBigInt (Stable.raw_amp raw) = Ok a
    ∧ unsafeFastParseEther (Stable.raw_swapFee raw) = Ok fee
    ∧ getPoolAddress (Stable.raw_id raw) = Ok addr
    ∧ let h1 := <[Stable.raw_tokens raw := Stable.RawArr (sortByIndex es)]> h in
      let h2 := <[fresh (dom h1) := Stable.TokArr mapped]> h1 in
      p = Stable.mkStablePool (Stable.raw_id raw) addr (a * 1000) fee
            (fresh (dom h1)) (fresh (dom h2)) total
            (findIndex (Stable.hasAddress addr) mapped)
      ∧ h' = <[fresh (dom h2) :=
                 Stable.TokArr
                   (splice1 (findIndex (Stable.hasAddress addr) mapped)
                      mapped)]> h2.
Proof.
  intros Hes. unfold Stable.fromRawPool.
  rewrite bind_run, (readRaw_run _ _ _ Hes), bind_run.
  unfold writeArr at 1. cbv zeta.
  rewrite bind_run, (readRaw_run _ _ (sortByIndex es))
    by apply lookup_insert_eq.
  step_liftR mapped. rewrite bind_alloc_run.
  step_liftR shares.
  rewrite bind_liftR_run.
  destruct (toBigInt (Stable.raw_amp raw)) as [a|] eqn:Ha;
    cbn [mbind result_bind]; [|by intros [=]].
  step_liftR fee.
  intros Hc. apply constructor_Ok in Hc as (addr & ts & Haddr & Hts & -> & ->).
  rewrite lookup_insert_eq in Hts. injection Hts as <-.
  by exists mapped, shares, a, fee, addr.
Qed.

(** [fromRawPool] fails when the callback of [map] fails on an entry. *)
Lemma fromRawPool_map_fails h raw es :
  h !! Stable.raw_tokens raw = Some (Stable.RawArr es) →
  failed (mapM (Stable.toPoolToken raw) (sortByIndex es)) →
  failed (Stable.fromRawPool raw h).1.
Proof.
  intros Hes [e He]. unfold Stable.fromRawPool.
  rewrite bind_run, (readRaw_run _ _ _ Hes), bind_run.
  unfold writeArr at 1. cbv zeta.
  rewrite bind_run, (readRaw_run _ _ (sortByIndex es))
    by apply lookup_insert_eq.
  rewrite bind_liftR_run, He. by exists e.
Qed.

Lemma fromRawPool_keeps h0 raw :
  Stable.raw_tokens raw ∉ dom h0 →
  keeps h0 (Stable.fromRawPool raw) anyValue.
Proof.
  intros Hl. unfold Stable.fromRawPool. cbv zeta.
  eapply keeps_bind; [apply readRaw_keeps|intros ? _].
  eapply keeps_bind; [by apply keeps_writeArr|intros ? _].
  eapply keeps_bind; [apply readRaw_keeps|intros ? _].
  eapply keeps_bind; [keeps_any|intros ? _].
  eapply keeps_bind; [keeps_any|intros ? _].
  do 3 (eapply keeps_bind; [keeps_any|intros ? _]).
  eapply keeps_weaken; [apply constructor_keeps|done].
Qed.

(** The entry of the pool's own address becomes a BPT. *)
Lemma toPoolToken_Ok raw e t :
  Stable.toPoolToken raw e = Ok t →
  truthy (rt_priceRate e) ≠ None
  ∧ address (Stable.pt_token t) = rt_address e
  ∧ decimals (Stable.pt_token t) = rt_decimals e
  ∧ (String.eqb (rt_address e) (Stable.raw_address raw) = true →
     ∃ b, t = Stable.IsBPT b
          ∧ Stable.bpt_virtualBalance b
            = PREMINTED_STABLE_BPT - Stable.bpt_amount b)
  ∧ (∀ b, t = Stable.IsBPT b →
          String.eqb (rt_address e) (Stable.raw_address raw) = true
          ∧ Stable.bpt_virtualBalance b
            = PREMINTED_STABLE_BPT - Stable.bpt_amount b).
Proof.
  unfold Stable.toPoolToken.
  destruct (truthy (rt_priceRate e)) as [rate|]; [|done].
  destruct (TokenAmountParse.fromHumanAmount _ _) as [ta|]; simpl; [|done].
  destruct (String.eqb (rt_address e) (Stable.raw_address raw)).
  - unfold Stable.newBPT, TokenAmount.new.
    destruct (18 <? _); simpl; [done|].
    destruct (amount ta <? 0); simpl; [done|].
    intros [= <-]. cbn. split; [done|]. split; [done|]. split; [done|].
    split.
    + intros _. by eexists.
    + intros b [= <-]. cbn. by split.
  - destruct (unsafeFastParseEther rate) as [r|]; simpl; [|done].
    unfold Stable.newStablePoolToken, TokenAmount.new.
    destruct (18 <? _); simpl; [done|].
    destruct (amount ta <? 0); simpl; [done|].
    intros [= <-]. cbn. split; [done|]. split; [done|]. split; [done|].
    split; [done|]. by intros b [=].
Qed.

End StableBuild.

Lemma Forall2_elem_l {A B} (P : A → B → Prop) l k x :
  Forall2 P l k → x ∈ l → ∃ y, y ∈ k ∧ P x y.
Proof.
  induction 1 as [|a b l k Hab _ IH]; [by intros ?%elem_of_nil|].
  intros [->|Hx]%elem_of_cons.
  - exists b. split; [left|done].
  - destruct (IH Hx) as (y & Hy & HP). exists y. split; [by right|done].
Qed.

Lemma Forall2_elem_r {A B} (P : A → B → Prop) l k y :
  Forall2 P l k → y ∈ k → ∃ x, x ∈ l ∧ P x y.
Proof.
  induction 1 as [|a b l k Hab _ IH]; [by intros ?%elem_of_nil|].
  intros [->|Hy]%elem_of_cons.
  - exists a. split; [left|done].
  - destruct (IH Hy) as (x & Hx & HP). exists x. split; [by right|done].
Qed.

Lemma truthy_None s :
  truthy s = None ↔ s = None ∨ s = Some EmptyString.
Proof.
  destruct s as [[|c s]|]; simpl; split; try done; try tauto;
    by intros [|].
Qed.

Lemma at_index_elem {A} (l : list A) i x : at_index l i = Some x → x ∈ l.
Proof.
  unfold at_index. destruct (i <? 0); [done|].
  intros Hl. apply list_elem_of_lookup. eauto.
Qed.

Lemma findIndex_at_holds {A} (f : A → bool) l x :
  at_index l (findIndex f l) = Some x → f x = true.
Proof.
  destruct (List.find f l) as [y|] eqn:Hf.
  - destruct (find_Some_holds _ _ _ Hf) as [Hy _].
    destruct (find_Some_findIndex _ _ _ Hf) as [_ Hat]. congruence.
  - apply find_None_findIndex in Hf. unfold at_index.
    by apply Z.ltb_lt in Hf as ->.
Qed.

(* ================================================================== *)
(** * Building a linear pool *)
(* ================================================================== *)

Section LinearBuild.
Context `{Parsers} `{Constants}.
Implicit Types h : gmap nat (list RawToken).

Lemma linear_fromRawPool_store h raw es :
  h !! Linear.raw_tokens raw = Some es →
  (Linear.fromRawPool raw h).2
  = <[Linear.raw_tokens raw := sortByIndex es]> h.
Proof.
  intros Hes. unfold Linear.fromRawPool.
  rewrite bind_run. unfold readArr at 1. rewrite Hes.
  rewrite bind_run. unfold writeArr at 1.
  rewrite bind_run. unfold readArr at 1. rewrite lookup_insert_eq.
  unfold liftR. done.
Qed.

Lemma linear_fromRawPool_Ok h raw es p h' :
  h !! Linear.raw_tokens raw = Some es →
  Linear.fromRawPool raw h = (Ok p, h') →
  ∃ mT wT bT,
    at_index (sortByIndex es) (Linear.raw_mainIndex raw) = Some mT
    ∧ at_index (sortByIndex es) (Linear.raw_wrappedIndex raw) = Some wT
    ∧ at_index (sortByIndex es)
        (findIndex (λ t, String.eqb (rt_address t) (Linear.raw_address raw))
           (sortByIndex es)) = Some bT
    ∧ token (Linear.mainToken p) = Linear.toToken mT
    ∧ Linear.wt_token (Linear.wrappedToken p) = Linear.toToken wT
    ∧ Linear.bpt_token (Linear.bptToken p) = Linear.toToken bT
    ∧ Linear.bpt_virtualBalance (Linear.bptToken p)
      = Linear.MAX_TOKEN_BALANCE - Linear.bpt_amount (Linear.bptToken p).
Proof.
  intros Hes. unfold Linear.fromRawPool.
  rewrite bind_run. unfold readArr at 1. rewrite Hes.
  rewrite bind_run. unfold writeArr at 1.
  rewrite bind_run. unfold readArr at 1. rewrite lookup_insert_eq.
  unfold liftR. cbv zeta.
  destruct (unsafeFastParseEther (Linear.raw_swapFee raw)) as [fee|];
    cbn [mbind result_bind]; [|by intros [=]].
  destruct (at_index (sortByIndex es) (Linear.raw_mainIndex raw))
    as [mT|] eqn:HmT; cbn [defined mbind result_bind]; [|by intros [=]].
  destruct (TokenAmountParse.fromHumanAmount _ (Linear.raw_lowerTarget raw))
    as [lo|]; cbn [mbind result_bind]; [|by intros [=]].
  destruct (TokenAmountParse.fromHumanAmount _ (Linear.raw_upperTarget raw))
    as [up|]; cbn [mbind result_bind]; [|by intros [=]].
  destruct (TokenAmountParse.fromHumanAmount _ (rt_balance mT))
    as [mA|] eqn:HmA; cbn [mbind result_bind]; [|by intros [=]].
  destruct (at_index (sortByIndex es) (Linear.raw_wrappedIndex raw))
    as [wT|] eqn:HwT; cbn [defined mbind result_bind]; [|by intros [=]].
  destruct (unsafeFastParseEther _) as [wRate|];
    cbn [mbind result_bind]; [|by intros [=]].
  destruct (TokenAmountParse.fromHumanAmount _ (rt_balance wT))
    as [wA|]; cbn [mbind result_bind]; [|by intros [=]].
  destruct (Linear.newWrappedToken _ _ _) as [wrapped|] eqn:Hw;
    cbn [mbind result_bind]; [|by intros [=]].
  destruct (at_index (sortByIndex es) (findIndex _ _)) as [bT|] eqn:HbT;
    cbn [defined mbind result_bind]; [|by intros [=]].
  destruct (TokenAmountParse.fromHumanAmount _ (rt_balance bT))
    as [bA|]; cbn [mbind result_bind]; [|by intros [=]].
  destruct (Linear.newBPT _ _) as [bpt|] eqn:Hb;
    cbn [mbind result_bind]; [|by intros [=]].
  unfold Linear.constructor.
  destruct (getPoolAddress _) as [addr|];
    cbn [mbind result_bind]; [|by intros [=]].
  intros [= <- <-]. exists mT, wT, bT. cbn.
  unfold TokenAmountParse.fromHumanAmount, TokenAmount.new in HmA.
  destruct (parseUnits _ _); cbn [mbind result_bind] in HmA; [|done].
  destruct (18 <? _) in HmA; [done|]. destruct (_ <? 0) in HmA; [done|].
  injection HmA as <-.
  unfold Linear.newWrappedToken, TokenAmount.new in Hw.
  destruct (18 <? _) in Hw; [done|]. destruct (_ <? 0) in Hw; [done|].
  injection Hw as <-.
  unfold Linear.newBPT, TokenAmount.new in Hb.
  destruct (18 <? _) in Hb; [done|]. destruct (_ <? 0) in Hb; [done|].
  injection Hb as <-. done.
Qed.

End LinearBuild.

Section StableBuilt.
Context `{Parsers} `{Constants}.
Implicit Types h : gmap nat Stable.cell.

(** The token list of a pool that [fromRawPool] returned. *)
Lemma fromRawPool_tokens h raw es p h' :
  h !! Stable.raw_tokens raw = Some (Stable.RawArr es) →
  Stable.fromRawPool raw h = (Ok p, h') →
  ∃ ts a,
    h' !! Stable.tokens p = Some (Stable.TokArr ts)
    ∧ Forall2 (λ e t, Stable.toPoolToken raw e = Ok t) (sortByIndex es) ts
    ∧ toBigInt (Stable.raw_amp raw) = Ok a
    ∧ Stable.amp p = a * 1000.
Proof.
  intros Hes Hrun.
  destruct (fromRawPool_Ok _ _ _ _ _ Hes Hrun)
    as (mapped & total & a & fee & addr & Hmap & _ & Ha & _ & _ & Hp).
  cbv zeta in Hp. destruct Hp as [-> ->].
  exists mapped, a. cbn [Stable.tokens Stable.amp].
  split; [|split; [by apply mapM_Ok_Forall2|done]].
  rewrite lookup_insert_ne, lookup_insert_eq; [done|].
  set (h2 := <[fresh _ := _]> _).
  intros Heq. apply (is_fresh (dom h2)). rewrite Heq.
  unfold h2. rewrite dom_insert_L. set_solver.
Qed.

End StableBuilt.

(* ================================================================== *)
(** * C10: tokens without a price rate *)
(* ================================================================== *)

(** C10.  [StablePool.fromRawPool] fails on every raw record one of whose
    token entries, the entry of the pool's own BPT included, has no price
    rate or an empty one.  When it returns a pool, every entry had a
    non-empty price rate and the pool's [amp] is the record's [amp] times
    1000. *)
Theorem C10_price_rate_required :
  ∀ (P : Parsers) (K : Constants) (h : gmap nat Stable.cell) raw es,
    h !! Stable.raw_tokens raw = Some (Stable.RawArr es) →
    (∀ e, e ∈ es →
          rt_priceRate e = None ∨ rt_priceRate e = Some EmptyString →
          failed (Stable.fromRawPool raw h).1)
    ∧ (∀ p h', Stable.fromRawPool raw h = (Ok p, h') →
               (∀ e, e ∈ es →
                     ∃ s, rt_priceRate e = Some s ∧ s ≠ EmptyString)
               ∧ ∃ a, toBigInt (Stable.raw_amp raw) = Ok a
                      ∧ Stable.amp p = a * 1000).
Proof.
  intros P K h raw es Hes. split.
  - intros e He Hrate. apply fromRawPool_map_fails with es; [done|].
    apply mapM_Err_elem with e; [by apply sortByIndex_elem|].
    exists NoPriceRate. unfold Stable.toPoolToken.
    by apply truthy_None in Hrate as ->.
  - intros p h' Hrun.
    destruct (fromRawPool_tokens _ _ _ _ _ Hes Hrun)
      as (ts & a & _ & Hall & Ha & Hamp).
    split; [|by exists a].
    intros e He. apply sortByIndex_elem in He.
    destruct (Forall2_elem_l _ _ _ _ Hall He) as (t & _ & Hconv).
    destruct (toPoolToken_Ok _ _ _ Hconv) as (Htruthy & _).
    destruct (rt_priceRate e) as [[|c s]|]; try done.
    by eexists.
Qed.

Lemma C10_price_rate_required_witness :
  failed (Stable.fromRawPool (H := decimalParsers) (H0 := mainnetConstants)
            Sample.rawStable Sample.unratedStore).1
  ∧ ((∀ e, e ∈ Sample.rawEntries →
           ∃ s, rt_priceRate e = Some s ∧ s ≠ EmptyString)
     ∧ ∃ a, toBigInt (Parsers := decimalParsers)
              (Stable.raw_amp Sample.rawStable) = Ok a
            ∧ Stable.amp Sample.stablePool = a * 1000).
Proof.
  split.
  - apply (proj1 (C10_price_rate_required decimalParsers mainnetConstants
                    Sample.unratedStore Sample.rawStable
                    [Sample.unrated; Sample.rawB] eq_refl)
             Sample.unrated).
    + left.
    + left. reflexivity.
  - apply (proj2 (C10_price_rate_required decimalParsers mainnetConstants
                    Sample.rawStore Sample.rawStable Sample.rawEntries
                    eq_refl) Sample.stablePool Sample.stableStore).
    vm_compute. reflexivity.
Defined.

(* ================================================================== *)
(** * C8: the order of the token list *)
(* ================================================================== *)

(** C8, as stated, fails on the linear pool: its token list is always
    main, wrapped, BPT, whatever their indices.  The sample record has the
    BPT at index 0, the main token at 1 and the wrapped token at 2; the pool
    built from it lists them in the index order 1, 2, 0. *)
Lemma C8_counterexample :
  ∃ p h',
    Linear.fromRawPool (H := decimalParsers) (H0 := mainnetConstants)
      Sample.rawLinear Sample.rawLinearStore = (Ok p, h')
    ∧ map (λ t, address (token t)) (Linear.tokens p)
      = map rt_address [Sample.rawMain; Sample.rawWrapped; Sample.rawLinearBPT]
    ∧ map rt_index [Sample.rawMain; Sample.rawWrapped; Sample.rawLinearBPT]
      = [1; 2; 0]
    ∧ ¬ Sorted byIndex
          [Sample.rawMain; Sample.rawWrapped; Sample.rawLinearBPT].
Proof.
  exists Sample.linearPool,
         {[ 0%nat := [Sample.rawLinearBPT; Sample.rawMain;
                      Sample.rawWrapped] ]}.
  split; [vm_compute; reflexivity|]. split; [reflexivity|].
  split; [reflexivity|].
  intros Hs. apply Sorted_inv in Hs as [Hs _].
  apply Sorted_inv in Hs as [_ Hhd]. apply HdRel_inv in Hhd.
  unfold byIndex in Hhd. simpl in Hhd. lia.
Qed.

(** C8, amended.  The token list of the stable pool that [fromRawPool]
    builds follows the entries of the record in ascending order of their
    index, and no operation of the pool changes that list.  The token list of
    a linear pool is main, wrapped, BPT: the entries at the positions
    [mainIndex] and [wrappedIndex] of the sorted record and the entry of the
    pool's address. *)
Theorem C8_token_order :
  (∀ (P : Parsers) (K : Constants) (h : gmap nat Stable.cell) raw es p h',
     h !! Stable.raw_tokens raw = Some (Stable.RawArr es) →
     Stable.fromRawPool raw h = (Ok p, h') →
     ∃ ts,
       h' !! Stable.tokens p = Some (Stable.TokArr ts)
       ∧ Forall2 (λ e t, address (Stable.pt_token t) = rt_address e
                          ∧ decimals (Stable.pt_token t) = rt_decimals e)
           (sortByIndex es) ts
       ∧ Sorted byIndex (sortByIndex es)
       ∧ sortByIndex es ≡ₚ es)
  ∧ (∀ (SM : StableMath) (h : gmap nat Stable.cell) p
       tokenIn tokenOut swapAmount swapKind,
     Stable.tokens p ∈ dom h →
     (Stable.swapGivenIn p tokenIn tokenOut swapAmount h).2 !! Stable.tokens p
       = h !! Stable.tokens p
     ∧ (Stable.swapGivenOut p tokenIn tokenOut swapAmount h).2
         !! Stable.tokens p = h !! Stable.tokens p
     ∧ (Stable.getLimitAmountSwap p tokenIn tokenOut swapKind h).2
         !! Stable.tokens p = h !! Stable.tokens p
     ∧ (Stable.getNormalizedLiquidity p tokenIn tokenOut h).2
         !! Stable.tokens p = h !! Stable.tokens p)
  ∧ (∀ (P : Parsers) (K : Constants) (h : gmap nat (list RawToken))
       raw es p h',
     h !! Linear.raw_tokens raw = Some es →
     Linear.fromRawPool raw h = (Ok p, h') →
     ∃ mT wT,
       at_index (sortByIndex es) (Linear.raw_mainIndex raw) = Some mT
       ∧ at_index (sortByIndex es) (Linear.raw_wrappedIndex raw) = Some wT
       ∧ map (λ t, address (token t)) (Linear.tokens p)
         = [rt_address mT; rt_address wT; Linear.raw_address raw]).
Proof.
  split; [|split].
  - intros P K h raw es p h' Hes Hrun.
    destruct (fromRawPool_tokens _ _ _ _ _ Hes Hrun)
      as (ts & a & Hts & Hall & _).
    exists ts. split; [done|].
    split; [|split; [apply sortByIndex_sorted|apply sortByIndex_perm]].
    eapply Forall2_impl; [exact Hall|].
    intros e t Hconv. simpl in Hconv.
    by destruct (toPoolToken_Ok _ _ _ Hconv) as (_ & ? & ? & _).
  - intros SM h p tokenIn tokenOut a k Hl.
    repeat split.
    + destruct (Stable.swapGivenIn p tokenIn tokenOut a h) as [r h'] eqn:E.
      exact (keeps_frame _ _ _ _ _ (swapGivenIn_keeps _ _ _ _ _) E _ Hl).
    + destruct (Stable.swapGivenOut p tokenIn tokenOut a h) as [r h'] eqn:E.
      exact (keeps_frame _ _ _ _ _ (swapGivenOut_keeps _ _ _ _ _) E _ Hl).
    + destruct (Stable.getLimitAmountSwap p tokenIn tokenOut k h)
        as [r h'] eqn:E.
      exact (keeps_frame _ _ _ _ _ (getLimitAmountSwap_keeps _ _ _ _ _) E _ Hl).
    + destruct (Stable.getNormalizedLiquidity p tokenIn tokenOut h)
        as [r h'] eqn:E.
      exact (keeps_frame _ _ _ _ _
               (getNormalizedLiquidity_keeps _ _ _ _) E _ Hl).
  - intros P K h raw es p h' Hes Hrun.
    destruct (linear_fromRawPool_Ok _ _ _ _ _ Hes Hrun)
      as (mT & wT & bT & HmT & HwT & HbT & Hm & Hw & Hb & _).
    exists mT, wT. split; [done|]. split; [done|].
    unfold Linear.tokens. cbn [map token]. rewrite Hm, Hw, Hb. simpl.
    apply findIndex_at_holds in HbT. apply String.eqb_eq in HbT.
    by rewrite HbT.
Qed.

Lemma C8_token_order_witness :
  (∃ ts,
     Sample.stableStore !! Stable.tokens Sample.stablePool
       = Some (Stable.TokArr ts)
     ∧ Forall2 (λ e t, address (Stable.pt_token t) = rt_address e
                        ∧ decimals (Stable.pt_token t) = rt_decimals e)
         (sortByIndex Sample.rawEntries) ts)
  ∧ (Stable.swapGivenIn (H := constantSumMath) Sample.stablePool Sample.tokA
       Sample.tokB (mkTokenAmount Sample.tokA 50000000000000000000)
       Sample.stableStore).2 !! Stable.tokens Sample.stablePool
    = Sample.stableStore !! Stable.tokens Sample.stablePool
  ∧ (∃ mT wT,
       at_index (sortByIndex Sample.rawLinearEntries)
         (Linear.raw_mainIndex Sample.rawLinear) = Some mT
       ∧ at_index (sortByIndex Sample.rawLinearEntries)
           (Linear.raw_wrappedIndex Sample.rawLinear) = Some wT
       ∧ map (λ t, address (token t)) (Linear.tokens Sample.linearPool)
         = [rt_address mT; rt_address wT;
            Linear.raw_address Sample.rawLinear]).
Proof.
  destruct C8_token_order as (Hbuilt & Hops & Hlinear).
  split; [|split].
  - destruct (Hbuilt decimalParsers mainnetConstants Sample.rawStore
                Sample.rawStable Sample.rawEntries Sample.stablePool
                Sample.stableStore eq_refl
                ltac:(vm_compute; reflexivity)) as (ts & Hts & Hall & _).
    exists ts. split; [exact Hts|exact Hall].
  - apply (Hops constantSumMath Sample.stableStore Sample.stablePool
             Sample.tokA Sample.tokB
             (mkTokenAmount Sample.tokA 50000000000000000000) GivenIn).
    apply elem_of_dom. eexists. reflexivity.
  - apply (Hlinear decimalParsers mainnetConstants Sample.rawLinearStore
             Sample.rawLinear Sample.rawLinearEntries Sample.linearPool
             {[ 0%nat := [Sample.rawLinearBPT; Sample.rawMain;
                          Sample.rawWrapped] ]}).
    + reflexivity.
    + vm_compute. reflexivity.
Defined.

(* ================================================================== *)
(** * C9: arrays changed in place *)
(* ================================================================== *)

(** C9, as stated, fails: [fromRawPool] sorts [pool.tokens] in place.  The
    token array of the sample record is A, BPT, B before the call and
    B, BPT, A after it. *)
Lemma C9_counterexample :
  Sample.rawStore !! Stable.raw_tokens Sample.rawStable
    = Some (Stable.RawArr [Sample.rawA; Sample.rawBPT; Sample.rawB])
  ∧ (Stable.fromRawPool (H := decimalParsers) (H0 := mainnetConstants)
       Sample.rawStable Sample.rawStore).2
      !! Stable.raw_tokens Sample.rawStable
    = Some (Stable.RawArr [Sample.rawB; Sample.rawBPT; Sample.rawA])
  ∧ (Stable.fromRawPool (H := decimalParsers) (H0 := mainnetConstants)
       Sample.rawStable Sample.rawStore).2
      !! Stable.raw_tokens Sample.rawStable
    ≠ Sample.rawStore !! Stable.raw_tokens Sample.rawStable.
Proof.
  split; [reflexivity|]. split; [vm_compute; reflexivity|].
  vm_compute. discriminate.
Qed.

Section StableSorts.
Context `{Parsers} `{Constants}.
Implicit Types h : gmap nat Stable.cell.

(** [fromRawPool] leaves the record's token array sorted, whether it
    returns or throws, and touches no other array in use. *)
Lemma fromRawPool_sorts_in_place h raw es :
  h !! Stable.raw_tokens raw = Some (Stable.RawArr es) →
  (Stable.fromRawPool raw h).2 !! Stable.raw_tokens raw
    = Some (Stable.RawArr (sortByIndex es))
  ∧ ∀ l, l ∈ dom h → l ≠ Stable.raw_tokens raw →
         (Stable.fromRawPool raw h).2 !! l = h !! l.
Proof.
  intros Hes.
  destruct (Stable.fromRawPool raw h) as [r h'] eqn:Hrun. cbn [snd].
  split.
  - pose (h0 := {[ Stable.raw_tokens raw :=
                     Stable.RawArr (sortByIndex es) ]}
                : gmap nat Stable.cell).
    revert Hrun. unfold Stable.fromRawPool.
    rewrite bind_run, (readRaw_run _ _ _ Hes), bind_run.
    unfold writeArr at 1. cbv zeta.
    set (h1 := <[_ := _]> h).
    match goal with |- ?m h1 = _ → _ =>
      assert (keeps h0 m anyValue) as Hk end.
    { eapply keeps_bind; [apply readRaw_keeps|intros ? _].
      eapply keeps_bind; [keeps_any|intros ? _].
      eapply keeps_bind; [keeps_any|intros ? _].
      do 3 (eapply keeps_bind; [keeps_any|intros ? _]).
      eapply keeps_weaken; [apply constructor_keeps|done]. }
    intros Hrun.
    assert (preserves h0 h1) as Hp01.
    { intros l Hl. unfold h0 in *. apply elem_of_dom in Hl as [c Hc].
      apply lookup_singleton_Some in Hc as [<- <-].
      unfold h1. by rewrite lookup_insert_eq, lookup_singleton_eq. }
    destruct (Hk _ _ _ Hp01 Hrun) as [Hp _].
    rewrite (Hp (Stable.raw_tokens raw)).
    + unfold h0. by rewrite lookup_singleton_eq.
    + unfold h0. rewrite dom_singleton_L. set_solver.
  - intros l Hl Hne.
    assert (keeps (delete (Stable.raw_tokens raw) h)
              (Stable.fromRawPool raw) anyValue) as Hk.
    { apply fromRawPool_keeps. rewrite dom_delete_L. set_solver. }
    assert (preserves (delete (Stable.raw_tokens raw) h) h) as Hp0.
    { intros l' Hl'. rewrite dom_delete_L in Hl'.
      rewrite lookup_delete_ne; [done|]. set_solver. }
    destruct (Hk _ _ _ Hp0 Hrun) as [Hp _].
    rewrite (Hp l); [by rewrite lookup_delete_ne|].
    rewrite dom_delete_L. set_solver.
Qed.

End StableSorts.

(** C9, amended.  The constructor of the stable pool, its two swaps and its
    two queries change no array that existed before the call: the
    constructor stores the reference of its token array, copies the array
    and splices the copy; a swap builds its balance array afresh and hands
    the swap formulas copies of it, so whatever a formula writes in the
    arrays it receives reaches no array of the pool or of the caller.
    [fromRawPool] is the exception: it sorts the token array of the raw
    record in place, ascending by index, and changes no other array. *)
Theorem C9_arrays_left_unchanged :
  (∀ (h : gmap nat Stable.cell) id amp fee toks total r h',
     Stable.constructor id amp fee toks total h = (r, h') →
     preserves h h'
     ∧ ∀ p, r = Ok p →
            Stable.tokens p = toks
            ∧ (Stable.tokensNoBpt p ∉ dom h)
            ∧ ∃ ts, h !! toks = Some (Stable.TokArr ts)
                    ∧ h' !! Stable.tokensNoBpt p
                      = Some (Stable.TokArr
                                (splice1 (Stable.bptIndex p) ts)))
  ∧ (∀ (SM : StableMath) (h : gmap nat Stable.cell) p
       tokenIn tokenOut swapAmount swapKind,
     preserves h (Stable.swapGivenIn p tokenIn tokenOut swapAmount h).2
     ∧ preserves h (Stable.swapGivenOut p tokenIn tokenOut swapAmount h).2
     ∧ preserves h (Stable.getLimitAmountSwap p tokenIn tokenOut swapKind h).2
     ∧ preserves h (Stable.getNormalizedLiquidity p tokenIn tokenOut h).2)
  ∧ (∀ (P : Parsers) (K : Constants) (h : gmap nat Stable.cell) raw es,
     h !! Stable.raw_tokens raw = Some (Stable.RawArr es) →
     (Stable.fromRawPool raw h).2 !! Stable.raw_tokens raw
       = Some (Stable.RawArr (sortByIndex es))
     ∧ sortByIndex es ≡ₚ es
     ∧ Sorted byIndex (sortByIndex es)
     ∧ ∀ l, l ∈ dom h → l ≠ Stable.raw_tokens raw →
            (Stable.fromRawPool raw h).2 !! l = h !! l).
Proof.
  split; [|split].
  - intros h id amp fee toks total r h' Hrun. split.
    + exact (keeps_frame _ _ _ _ _ (constructor_keeps _ _ _ _ _ _) Hrun).
    + intros p ->. destruct (constructor_Ok _ _ _ _ _ _ _ _ Hrun)
        as (addr & ts & _ & Hts & -> & ->).
      cbn [Stable.tokens Stable.tokensNoBpt Stable.bptIndex].
      split; [done|]. split; [apply is_fresh|].
      exists ts. split; [done|]. by rewrite lookup_insert_eq.
  - intros SM h p tokenIn tokenOut a k. repeat split.
    + destruct (Stable.swapGivenIn p tokenIn tokenOut a h) as [r h'] eqn:E.
      exact (keeps_frame _ _ _ _ _ (swapGivenIn_keeps _ _ _ _ _) E).
    + destruct (Stable.swapGivenOut p tokenIn tokenOut a h) as [r h'] eqn:E.
      exact (keeps_frame _ _ _ _ _ (swapGivenOut_keeps _ _ _ _ _) E).
    + destruct (Stable.getLimitAmountSwap p tokenIn tokenOut k h)
        as [r h'] eqn:E.
      exact (keeps_frame _ _ _ _ _ (getLimitAmountSwap_keeps _ _ _ _ _) E).
    + destruct (Stable.getNormalizedLiquidity p tokenIn tokenOut h)
        as [r h'] eqn:E.
      exact (keeps_frame _ _ _ _ _
               (getNormalizedLiquidity_keeps _ _ _ _) E).
  - intros P K h raw es Hes.
    destruct (fromRawPool_sorts_in_place h raw es Hes) as [Hsorted Hrest].
    split; [done|].
    split; [apply sortByIndex_perm|]. split; [apply sortByIndex_sorted|done].
Qed.

Lemma C9_arrays_left_unchanged_witness :
  (preserves Sample.stableStore
     (Stable.constructor Sample.poolId 200000 400000000000000 1
        1000000000000000000000 Sample.stableStore).2)
  ∧ preserves Sample.stableStore
      (Stable.swapGivenIn (H := constantSumMath) Sample.stablePool Sample.tokA
         Sample.tokB (mkTokenAmount Sample.tokA 50000000000000000000)
         Sample.stableStore).2
  ∧ (Stable.fromRawPool (H := decimalParsers) (H0 := mainnetConstants)
       Sample.rawStable Sample.rawStore).2
      !! Stable.raw_tokens Sample.rawStable
    = Some (Stable.RawArr (sortByIndex Sample.rawEntries)).
Proof.
  destruct C9_arrays_left_unchanged as (Hctor & Hops & Hsort).
  split; [|split].
  - destruct (Stable.constructor Sample.poolId 200000 400000000000000 1
                1000000000000000000000 Sample.stableStore) as [r h'] eqn:E.
    exact (proj1 (Hctor _ _ _ _ _ _ _ _ E)).
  - exact (proj1 (Hops constantSumMath Sample.stableStore Sample.stablePool
                    Sample.tokA Sample.tokB
                    (mkTokenAmount Sample.tokA 50000000000000000000)
                    GivenIn)).
  - exact (proj1 (Hsort decimalParsers mainnetConstants Sample.rawStore
                    Sample.rawStable Sample.rawEntries eq_refl)).
Defined.

(* ================================================================== *)
(** * The stable pool constructor: the list without the BPT *)
(* ================================================================== *)

Lemma splice1_in_range {A} (i : nat) (l : list A) :
  (i < length l)%nat →
  splice1 (Z.of_nat i) l = take i l ++ drop (S i) l.
Proof.
  intros Hi. unfold splice1.
  destruct (Z.of_nat i <? 0) eqn:E; [lia|].
  by rewrite Z.min_l, Nat2Z.id by lia.
Qed.

Lemma splice1_minus_one {A} (l : list A) :
  splice1 (-1) l = take (length l - 1) l.
Proof.
  unfold splice1. cbn [Z.ltb Z.compare].
  destruct l as [|x l]; [done|].
  rewrite Z.max_l by (cbn [length]; lia).
  replace (Z.to_nat (Z.of_nat (length (x :: l)) + -1))
    with (length (x :: l) - 1)%nat by (cbn [length]; lia).
  rewrite (drop_ge (x :: l)) by (cbn [length]; lia).
  by rewrite app_nil_r.
Qed.

Lemma splice1_cons {A} (x : A) (l : list A) (b : Z) :
  0 ≤ b → splice1 (b + 1) (x :: l) = x :: splice1 b l.
Proof.
  intros Hb. unfold splice1.
  destruct (b + 1 <? 0) eqn:E1; [lia|].
  destruct (b <? 0) eqn:E2; [lia|].
  cbn [length]. rewrite Nat2Z.inj_succ.
  replace (Z.to_nat (Z.min (b + 1) (Z.succ (Z.of_nat (length l)))))
    with (S (Z.to_nat (Z.min b (Z.of_nat (length l))))) by lia.
  done.
Qed.

Lemma findIndex_lookup {A} (f : A → bool) (l : list A) :
  0 ≤ findIndex f l →
  ∃ x, l !! Z.to_nat (findIndex f l) = Some x
       ∧ f x = true
       ∧ ∀ j y, (j < Z.to_nat (findIndex f l))%nat → l !! j = Some y →
                f y = false.
Proof.
  induction l as [|x l IH]; cbn [findIndex]; [lia|].
  destruct (f x) eqn:Ef.
  - intros _. exists x. split; [done|]. split; [done|]. intros j y Hj. lia.
  - destruct (findIndex f l <? 0) eqn:E; [lia|]. apply Z.ltb_ge in E.
    intros _. destruct (IH E) as (z & Hz & Hfz & Hbefore).
    exists z.
    replace (Z.to_nat (findIndex f l + 1))
      with (S (Z.to_nat (findIndex f l))) by lia.
    split; [done|]. split; [done|].
    intros [|j] y Hj; cbn; [by intros [= <-]|].
    apply Hbefore. lia.
Qed.

Lemma findIndex_none {A} (f : A → bool) (l : list A) :
  findIndex f l < 0 → ∀ x, x ∈ l → f x = false.
Proof.
  intros Hneg x Hx. apply find_None_findIndex in Hneg.
  destruct (f x) eqn:Ef; [|done].
  apply list_elem_of_In in Hx.
  by pose proof (List.find_none _ _ Hneg x Hx) as Hnone; congruence.
Qed.

Lemma findIndex_distinct {A} (f g : A → bool) (l : list A) :
  (∀ x, f x = true → g x = false) →
  0 ≤ findIndex f l → findIndex f l ≠ findIndex g l.
Proof.
  intros Hfg Hf Heq.
  destruct (findIndex_lookup f l Hf) as (x & Hx & Hfx & _).
  destruct (findIndex_lookup g l ltac:(lia)) as (y & Hy & Hgy & _).
  rewrite <- Heq in Hy. rewrite Hx in Hy. injection Hy as <-.
  apply Hfg in Hfx. congruence.
Qed.

(** Positions in the list without the BPT: a token that does not satisfy
    the test of the removed position keeps its index before that position
    and moves down by one after it. *)
Ltac ltb_lia :=
  repeat match goal with
         | |- context [?a <? ?b] =>
             lazymatch a with
             | context [Z.ltb] => fail
             | _ => lazymatch b with
                    | context [Z.ltb] => fail
                    | _ => destruct (Z.ltb_spec a b)
                    end
             end
         end;
  lia.

Lemma findIndex_splice1 {A} (f g : A → bool) (l : list A) :
  (∀ x, f x = true → g x = false) →
  0 ≤ findIndex g l →
  findIndex f (splice1 (findIndex g l) l)
  = if findIndex f l <? findIndex g l then findIndex f l
    else findIndex f l - 1.
Proof.
  intros Hfg. induction l as [|x l IH]; cbn [findIndex]; [lia|].
  pose proof (findIndex_range f l) as Hf.
  pose proof (findIndex_range g l) as Hg.
  destruct (g x) eqn:Eg.
  - intros _.
    assert (f x = false) as ->.
    { destruct (f x) eqn:Ef; [|done]. apply Hfg in Ef. congruence. }
    change (splice1 0 (x :: l)) with (take 0 (x :: l) ++ drop 1 (x :: l)).
    cbn [take drop app]. rewrite ?drop_0. ltb_lia.
  - destruct (Z.ltb_spec (findIndex g l) 0) as [Hneg|Hpos]; [lia|].
    intros _. rewrite splice1_cons by done. cbn [findIndex].
    destruct (f x) eqn:Ef; [ltb_lia|].
    rewrite (IH Hpos).
    pose proof (findIndex_distinct f g l Hfg). ltb_lia.
Qed.

Lemma hasAddress_true a t :
  Stable.hasAddress a t = true ↔ address (Stable.pt_token t) = a.
Proof. unfold Stable.hasAddress, sameAddress. apply String.eqb_eq. Qed.

Lemma hasAddress_false a t :
  Stable.hasAddress a t = false ↔ address (Stable.pt_token t) ≠ a.
Proof. unfold Stable.hasAddress, sameAddress. apply String.eqb_neq. Qed.

(** X1.  The stable pool constructor sets [bptIndex] to the position of the
    first token that carries the pool's address (the 42-character prefix of
    the id), or to -1, and [tokensNoBpt] to a new array: the token list with
    that one position taken out.  When no token carries the pool's address,
    [splice(-1, 1)] takes out the LAST token instead. *)
Theorem X1_constructor_tokensNoBpt :
  ∀ (h : gmap nat Stable.cell) id amp fee toks total p h',
    Stable.constructor id amp fee toks total h = (Ok p, h') →
    ∃ ts noBpt,
      h !! toks = Some (Stable.TokArr ts)
      ∧ h' !! Stable.tokensNoBpt p = Some (Stable.TokArr noBpt)
      ∧ getPoolAddress id = Ok (Stable.poolAddress p)
      ∧ -1 ≤ Stable.bptIndex p < Z.of_nat (length ts)
      ∧ (0 ≤ Stable.bptIndex p →
         ∃ b, ts !! Z.to_nat (Stable.bptIndex p) = Some b
              ∧ address (Stable.pt_token b) = Stable.poolAddress p
              ∧ (∀ j t, (j < Z.to_nat (Stable.bptIndex p))%nat →
                        ts !! j = Some t →
                        address (Stable.pt_token t) ≠ Stable.poolAddress p)
              ∧ noBpt = take (Z.to_nat (Stable.bptIndex p)) ts
                        ++ drop (S (Z.to_nat (Stable.bptIndex p))) ts
              ∧ (length noBpt + 1 = length ts)%nat)
      ∧ (Stable.bptIndex p < 0 →
         (∀ t, t ∈ ts →
               address (Stable.pt_token t) ≠ Stable.poolAddress p)
         ∧ noBpt = take (length ts - 1) ts).
Proof.
  intros h id amp fee toks total p h' Hrun.
  destruct (constructor_Ok _ _ _ _ _ _ _ _ Hrun)
    as (addr & ts & Haddr & Hts & -> & ->).
  cbn [Stable.tokensNoBpt Stable.bptIndex Stable.poolAddress].
  set (i := findIndex (Stable.hasAddress addr) ts).
  pose proof (findIndex_range (Stable.hasAddress addr) ts) as Hrange.
  fold i in Hrange.
  exists ts, (splice1 i ts).
  split; [done|]. split; [by rewrite lookup_insert_eq|].
  split; [done|]. split; [done|]. split.
  - intros Hi.
    destruct (findIndex_lookup (Stable.hasAddress addr) ts Hi)
      as (b & Hb & Hfb & Hbefore).
    fold i in Hb, Hbefore.
    exists b. split; [done|]. split; [by apply hasAddress_true|].
    split; [intros j t Hj Ht; by apply hasAddress_false, (Hbefore j)|].
    assert (splice1 i ts = take (Z.to_nat i) ts ++ drop (S (Z.to_nat i)) ts)
      as ->.
    { rewrite <- (Z2Nat.id i) at 1 by done. apply splice1_in_range. lia. }
    split; [done|].
    rewrite length_app, length_take, length_drop. lia.
  - intros Hi.
    split; [intros t Ht; by apply hasAddress_false,
                              (findIndex_none _ ts Hi)|].
    replace i with (-1) by lia. apply splice1_minus_one.
Qed.

Lemma X1_constructor_tokensNoBpt_witness :
  ∃ p h' ts noBpt,
    Stable.constructor Sample.poolId 200000 400000000000000 1
      1000000000000000000000 Sample.stableStore = (Ok p, h')
    ∧ Sample.stableStore !! 1%nat = Some (Stable.TokArr ts)
    ∧ h' !! Stable.tokensNoBpt p = Some (Stable.TokArr noBpt)
    ∧ -1 ≤ Stable.bptIndex p < Z.of_nat (length ts).
Proof.
  destruct (Stable.constructor Sample.poolId 200000 400000000000000 1
              1000000000000000000000 Sample.stableStore)
    as [r h'] eqn:E.
  assert (∃ p, r = Ok p) as [p ->].
  { vm_compute in E. injection E as <- _. by eexists. }
  destruct (X1_constructor_tokensNoBpt _ _ _ _ _ _ _ _ E)
    as (ts & noBpt & Hts & Hno & _ & Hrange & _).
  exists p, h', ts, noBpt. split; [reflexivity|].
  split; [exact Hts|]. split; [exact Hno|exact Hrange].
Defined.

(** X2.  Where a token sits in [tokensNoBpt]: for a pool whose token list
    holds its BPT, a token with another address than the pool's keeps the
    index it has in [tokens] when it comes before the BPT and has that index
    minus one when it comes after; a token that is not listed has index -1
    in both. *)
Theorem X2_index_without_bpt :
  ∀ (h : gmap nat Stable.cell) id amp fee toks total p h' ts noBpt
    (tok : Token),
    Stable.constructor id amp fee toks total h = (Ok p, h') →
    h !! toks = Some (Stable.TokArr ts) →
    h' !! Stable.tokensNoBpt p = Some (Stable.TokArr noBpt) →
    0 ≤ Stable.bptIndex p →
    address tok ≠ Stable.poolAddress p →
    findIndex (Stable.hasAddress (address tok)) noBpt
    = if findIndex (Stable.hasAddress (address tok)) ts <? Stable.bptIndex p
      then findIndex (Stable.hasAddress (address tok)) ts
      else findIndex (Stable.hasAddress (address tok)) ts - 1.
Proof.
  intros h id amp fee toks total p h' ts noBpt tok Hrun Hts Hno Hi Hne.
  destruct (constructor_Ok _ _ _ _ _ _ _ _ Hrun)
    as (addr & ts' & Haddr & Hts' & -> & ->).
  cbn [Stable.tokensNoBpt Stable.bptIndex Stable.poolAddress] in *.
  rewrite Hts in Hts'. injection Hts' as <-.
  rewrite lookup_insert_eq in Hno. injection Hno as <-.
  apply findIndex_splice1; [|done].
  intros t Ht. apply hasAddress_true in Ht. apply hasAddress_false.
  congruence.
Qed.

Lemma X2_index_without_bpt_witness :
  ∃ noBpt,
    findIndex (Stable.hasAddress (address Sample.tokA)) noBpt = 2 - 1
    ∧ findIndex (Stable.hasAddress (address Sample.tokB)) noBpt = 0.
Proof.
  destruct (Stable.constructor Sample.poolId 200000 400000000000000 1
              1000000000000000000000 Sample.stableStore)
    as [r h'] eqn:E.
  assert (∃ p, r = Ok p ∧ Stable.bptIndex p = 1
               ∧ Stable.poolAddress p = Sample.poolAddr
               ∧ h' !! Stable.tokensNoBpt p
                 = Some (Stable.TokArr [Stable.IsToken Sample.tokenB;
                                        Stable.IsToken Sample.tokenA]))
    as (p & -> & Hb & Ha & Hno).
  { vm_compute in E. injection E as <- <-. eexists.
    split; [reflexivity|]. split; [reflexivity|]. split; reflexivity. }
  exists [Stable.IsToken Sample.tokenB; Stable.IsToken Sample.tokenA].
  split.
  - rewrite (X2_index_without_bpt _ _ _ _ _ _ _ _ Sample.stableTokens _
               Sample.tokA E eq_refl Hno).
    + rewrite Hb. reflexivity.
    + rewrite Hb. lia.
    + rewrite Ha. discriminate.
  - rewrite (X2_index_without_bpt _ _ _ _ _ _ _ _ Sample.stableTokens _
               Sample.tokB E eq_refl Hno).
    + rewrite Hb. reflexivity.
    + rewrite Hb. lia.
    + rewrite Ha. discriminate.
Defined.

(* ================================================================== *)
(** * Stable swaps that cannot return *)
(* ================================================================== *)

Ltac fail_step :=
  first
    [ rewrite bind_liftR_run;
      match goal with
      | |- context [match ?r with Ok _ => _ | Err _ => _ end] =>
          destruct r eqn:?; [|by eexists]
      end
    | rewrite bind_alloc_run
    | match goal with
      | |- context [if ?c then throw _ else _] =>
          destruct c eqn:?; [by eexists|]
      end
    | rewrite bind_run;
      match goal with
      | |- context [match ?m ?h with _ => _ end] =>
          destruct (m h) as [[?|?] ?] eqn:?; [|by eexists]
      end ].

(** X3.  A stable pool whose token list does not hold its own BPT
    ([bptIndex] is -1) cannot quote: [swapGivenIn] and [swapGivenOut] fail
    for every pair of tokens and every amount, at the latest on reading
    [this.tokens[this.bptIndex].token]. *)
Theorem X3_no_bpt_no_swap :
  ∀ (SM : StableMath) (h : gmap nat Stable.cell) p
    tokenIn tokenOut swapAmount,
    Stable.bptIndex p < 0 →
    failed (Stable.swapGivenIn p tokenIn tokenOut swapAmount h).1
    ∧ failed (Stable.swapGivenOut p tokenIn tokenOut swapAmount h).1.
Proof.
  intros SM h p tokenIn tokenOut a Hneg.
  assert (∀ ts : list Stable.PoolToken,
            at_index ts (Stable.bptIndex p) = None) as Hnone.
  { intros ts. unfold at_index. by apply Z.ltb_lt in Hneg as ->. }
  split.
  - unfold Stable.swapGivenIn. cbv zeta.
    do 10 fail_step.
    rewrite bind_liftR_run, Hnone. by eexists.
  - unfold Stable.swapGivenOut. cbv zeta.
    do 9 fail_step.
    rewrite bind_liftR_run, Hnone. by eexists.
Qed.

Lemma X3_no_bpt_no_swap_witness :
  Stable.constructor Sample.poolId 200000 400000000000000 2
    1000000000000000000000 Sample.stableStore
    = (Ok Sample2.orphanPool, Sample2.orphanStore)
  ∧ failed (Stable.swapGivenIn (H := constantSumMath) Sample2.orphanPool
              Sample.tokA Sample.tokB (mkTokenAmount Sample.tokA 1000)
              Sample2.orphanStore).1
  ∧ failed (Stable.swapGivenOut (H := constantSumMath) Sample2.orphanPool
              Sample.tokA Sample.tokB (mkTokenAmount Sample.tokB 1)
              Sample2.orphanStore).1.
Proof.
  split; [vm_compute; reflexivity|]. split.
  - apply (X3_no_bpt_no_swap constantSumMath Sample2.orphanStore
             Sample2.orphanPool Sample.tokA Sample.tokB
             (mkTokenAmount Sample.tokA 1000)).
    simpl. lia.
  - apply (X3_no_bpt_no_swap constantSumMath Sample2.orphanStore
             Sample2.orphanPool Sample.tokA Sample.tokB
             (mkTokenAmount Sample.tokB 1)).
    simpl. lia.
Defined.

(* ================================================================== *)
(** * Queries on tokens the pool does not hold *)
(* ================================================================== *)

(** X4.  [getLimitAmountSwap] and [getNormalizedLiquidity], of a stable and
    of a linear pool, throw 'Pool does not contain the tokens provided'
    whenever no entry of the token list has the address of the input token
    or of the output token.  For member tokens [getNormalizedLiquidity]
    returns the balance of the output token times [amp] (stable) or the
    balance of the output token (linear). *)
Theorem X4_queries_unknown_token :
  (∀ (h : gmap nat Stable.cell) p ts tokenIn tokenOut swapKind,
     h !! Stable.tokens p = Some (Stable.TokArr ts) →
     (List.find (Stable.hasAddress (address tokenIn)) ts = None
      ∨ List.find (Stable.hasAddress (address tokenOut)) ts = None →
      (Stable.getLimitAmountSwap p tokenIn tokenOut swapKind h).1
        = Err PoolDoesNotContainTokens
      ∧ (Stable.getNormalizedLiquidity p tokenIn tokenOut h).1
        = Err PoolDoesNotContainTokens)
     ∧ (∀ tIn tOut,
        List.find (Stable.hasAddress (address tokenIn)) ts = Some tIn →
        List.find (Stable.hasAddress (address tokenOut)) ts = Some tOut →
        (Stable.getNormalizedLiquidity p tokenIn tokenOut h).1
          = Ok (Stable.pt_amount tOut * Stable.amp p)))
  ∧ (∀ (LM : LinearMath) (K : Constants) p tokenIn tokenOut swapKind,
     (List.find (Linear.hasAddress (address tokenIn)) (Linear.tokens p) = None
      ∨ List.find (Linear.hasAddress (address tokenOut)) (Linear.tokens p)
        = None →
      Linear.getLimitAmountSwap p tokenIn tokenOut swapKind
        = Err PoolDoesNotContainTokens
      ∧ Linear.getNormalizedLiquidity p tokenIn tokenOut
        = Err PoolDoesNotContainTokens)
     ∧ (∀ tIn tOut,
        List.find (Linear.hasAddress (address tokenIn)) (Linear.tokens p)
          = Some tIn →
        List.find (Linear.hasAddress (address tokenOut)) (Linear.tokens p)
          = Some tOut →
        Linear.getNormalizedLiquidity p tokenIn tokenOut
          = Ok (amount tOut))).
Proof.
  split.
  - intros h p ts tokenIn tokenOut k Hh. split.
    + intros Habs.
      unfold Stable.getLimitAmountSwap, Stable.getNormalizedLiquidity.
      rewrite !bind_run, !(readTok_run _ _ _ Hh).
      destruct Habs as [Hn|Hn]; rewrite Hn;
        [|destruct (List.find (Stable.hasAddress (address tokenIn)) ts)];
        by split.
    + intros tIn tOut Hin Hout. unfold Stable.getNormalizedLiquidity.
      by rewrite bind_run, (readTok_run _ _ _ Hh), Hin, Hout.
  - intros LM K p tokenIn tokenOut k. split.
    + intros Habs.
      unfold Linear.getLimitAmountSwap, Linear.getNormalizedLiquidity.
      destruct Habs as [Hn|Hn]; rewrite Hn;
        [|destruct (List.find (Linear.hasAddress (address tokenIn))
                      (Linear.tokens p))];
        by split.
    + intros tIn tOut Hin Hout. unfold Linear.getNormalizedLiquidity.
      by rewrite Hin, Hout.
Qed.

Lemma X4_queries_unknown_token_witness :
  ((Stable.getLimitAmountSwap Sample.stablePool Sample.tokX Sample.tokA
      GivenIn Sample.stableStore).1 = Err PoolDoesNotContainTokens
   ∧ (Stable.getNormalizedLiquidity Sample.stablePool Sample.tokX Sample.tokA
        Sample.stableStore).1 = Err PoolDoesNotContainTokens)
  ∧ (Stable.getNormalizedLiquidity Sample.stablePool Sample.tokA Sample.tokB
       Sample.stableStore).1 = Ok (10000000 * 200000)
  ∧ (Linear.getLimitAmountSwap (H := parityLinearMath)
       (H0 := mainnetConstants) Sample.linearPool Sample.tokM Sample.tokX
       GivenOut = Err PoolDoesNotContainTokens
     ∧ Linear.getNormalizedLiquidity Sample.linearPool Sample.tokM Sample.tokX
       = Err PoolDoesNotContainTokens)
  ∧ Linear.getNormalizedLiquidity Sample.linearPool Sample.tokM Sample.tokW
    = Ok 50000000000000000000.
Proof.
  destruct X4_queries_unknown_token as [HS HL].
  destruct (HS Sample.stableStore Sample.stablePool Sample.stableTokens
              Sample.tokX Sample.tokA GivenIn eq_refl) as [Habs _].
  destruct (HS Sample.stableStore Sample.stablePool Sample.stableTokens
              Sample.tokA Sample.tokB GivenIn eq_refl) as [_ Hmem].
  destruct (HL parityLinearMath mainnetConstants Sample.linearPool
              Sample.tokM Sample.tokX GivenOut) as [HLabs _].
  destruct (HL parityLinearMath mainnetConstants Sample.linearPool
              Sample.tokM Sample.tokW GivenOut) as [_ HLmem].
  split; [apply Habs; left; reflexivity|].
  split; [exact (Hmem (Stable.IsToken Sample.tokenA)
                   (Stable.IsToken Sample.tokenB) eq_refl eq_refl)|].
  split; [apply HLabs; right; reflexivity|].
  exact (HLmem (mkTokenAmount Sample.tokM 100000000000000000000)
           (mkTokenAmount Sample.tokW 50000000000000000000)
           eq_refl eq_refl).
Defined.

(* ================================================================== *)
(** * Limits against the pool-limit guards *)
(* ================================================================== *)

(** X5.  The given-out limit of a linear pool against the guard of
    [swapGivenOut].  For an ordinary output token the limit (99% of the
    balance) is within the balance.  For the pool's BPT the limit is ten
    times the balance: with a positive BPT balance it exceeds the balance,
    and [swapGivenOut] asked for that amount of BPT throws 'Swap amount
    exceeds the pool limit'. *)
Theorem X5_linear_given_out_limit :
  ∀ (LM : LinearMath) (K : Constants) p tokenIn tokenOut tIn tOut limit,
    List.find (Linear.hasAddress (address tokenIn)) (Linear.tokens p)
      = Some tIn →
    List.find (Linear.hasAddress (address tokenOut)) (Linear.tokens p)
      = Some tOut →
    Linear.getLimitAmountSwap p tokenIn tokenOut GivenOut = Ok limit →
    (isEqual tokenOut (Linear.bpt_token (Linear.bptToken p)) = false →
     0 ≤ amount tOut → 0 ≤ limit ≤ amount tOut)
    ∧ (isEqual tokenOut (Linear.bpt_token (Linear.bptToken p)) = true →
       0 < amount tOut →
       limit = 10 * amount tOut
       ∧ ∀ a, amount a = limit →
              Linear.swapGivenOut p tokenIn tokenOut a = Err ExceedsPoolLimit).
Proof.
  intros LM K p tokenIn tokenOut tIn tOut limit Hin Hout.
  unfold Linear.getLimitAmountSwap. rewrite Hin, Hout. cbv beta iota.
  intros Hlimit. split.
  - intros Hne Hbal. rewrite Hne in Hlimit. injection Hlimit as <-.
    pose proof (almost_all _ Hbal). lia.
  - intros Heq Hbal. rewrite Heq in Hlimit. injection Hlimit as <-.
    assert ((amount tOut * Linear.MAX_RATIO) ÷ Linear.ONE = 10 * amount tOut)
      as ->.
    { unfold Linear.MAX_RATIO, Linear.ONE.
      change 10000000000000000000 with (10 * 1000000000000000000).
      rewrite Z.mul_assoc, Z.quot_mul by done. lia. }
    split; [done|]. intros a Ha.
    apply find_Some_findIndex in Hout as [_ Hat].
    unfold Linear.swapGivenOut. cbv zeta. rewrite Hat. cbn [defined].
    cbn [mbind result_bind].
    destruct (Z.ltb_spec (amount tOut) (amount a)); [done|lia].
Qed.

Lemma X5_linear_given_out_limit_witness :
  (0 ≤ 49500000000000000000 ≤ 50000000000000000000)
  ∧ Linear.swapGivenOut (H := parityLinearMath) Sample.linearPool
      Sample.tokM Sample.tokBPT
      (mkTokenAmount Sample.tokBPT 10000000000000000000000)
    = Err ExceedsPoolLimit.
Proof.
  split.
  - refine (proj1 (X5_linear_given_out_limit parityLinearMath
                     mainnetConstants Sample.linearPool Sample.tokM
                     Sample.tokW
                     (mkTokenAmount Sample.tokM 100000000000000000000)
                     (mkTokenAmount Sample.tokW 50000000000000000000)
                     49500000000000000000 eq_refl eq_refl eq_refl) _ _).
    + reflexivity.
    + simpl. lia.
  - refine (proj2 (proj2 (X5_linear_given_out_limit parityLinearMath
                     mainnetConstants Sample.linearPool Sample.tokM
                     Sample.tokBPT
                     (mkTokenAmount Sample.tokM 100000000000000000000)
                     (mkTokenAmount Sample.tokBPT 1000000000000000000000)
                     10000000000000000000000 eq_refl eq_refl eq_refl)
                     _ _) _ _).
    + reflexivity.
    + simpl. lia.
    + reflexivity.
Defined.

(** X6.  The limit of a stable pool.  It is computed by a bigint division
    by the rate of the token whose balance it uses: a rate of zero makes
    [getLimitAmountSwap] throw a RangeError.  For a rate of at least 0.99
    and a non-negative balance, the limit is within that balance, so an
    amount at the given-out limit is not above the balance that
    [swapGivenOut] compares it with. *)
Theorem X6_stable_limit_edges :
  ∀ (h : gmap nat Stable.cell) p ts tokenIn tokenOut tIn tOut,
    h !! Stable.tokens p = Some (Stable.TokArr ts) →
    List.find (Stable.hasAddress (address tokenIn)) ts = Some tIn →
    List.find (Stable.hasAddress (address tokenOut)) ts = Some tOut →
    (Stable.pt_rate tOut = 0 →
     (Stable.getLimitAmountSwap p tokenIn tokenOut GivenOut h).1
       = Err RangeError)
    ∧ (Stable.pt_rate tIn = 0 →
       (Stable.getLimitAmountSwap p tokenIn tokenOut GivenIn h).1
         = Err RangeError)
    ∧ (Stable.ALMOST_ONE ≤ Stable.pt_rate tOut → 0 ≤ Stable.pt_amount tOut →
       ∃ limit,
         (Stable.getLimitAmountSwap p tokenIn tokenOut GivenOut h).1
           = Ok limit
         ∧ 0 ≤ limit ≤ Stable.pt_amount tOut).
Proof.
  intros h p ts tokenIn tokenOut tIn tOut Hh Hin Hout.
  unfold Stable.getLimitAmountSwap.
  rewrite !bind_run, !(readTok_run _ _ _ Hh), Hin, Hout.
  unfold liftR, bigdiv. cbn [fst].
  split; [|split].
  - intros ->. done.
  - intros ->. done.
  - intros Hrate Hbal.
    assert (0 < Stable.ALMOST_ONE) as Hpos by done.
    destruct (decide (Stable.pt_rate tOut = 0)) as [E|_]; [lia|].
    eexists. split; [reflexivity|].
    pose proof (quot_spec (Stable.pt_amount tOut * Stable.ALMOST_ONE)
                  (Stable.pt_rate tOut) ltac:(nia) ltac:(lia)) as Hq.
    split; [apply Z.quot_pos; nia|]. nia.
Qed.

Lemma X6_stable_limit_edges_witness :
  ∃ limit,
    (Stable.getLimitAmountSwap Sample.stablePool Sample.tokB Sample.tokA
       GivenOut Sample.stableStore).1 = Ok limit
    ∧ 0 ≤ limit ≤ 100000000000000000000.
Proof.
  refine (proj2 (proj2 (X6_stable_limit_edges Sample.stableStore
                          Sample.stablePool Sample.stableTokens
                          Sample.tokB Sample.tokA
                          (Stable.IsToken Sample.tokenB)
                          (Stable.IsToken Sample.tokenA)
                          eq_refl eq_refl eq_refl)) _ _).
  - vm_compute. discriminate.
  - simpl. lia.
Defined.

(* ================================================================== *)
(** * Building a pool twice from one record *)
(* ================================================================== *)

Lemma sortByIndex_fixed l : Sorted byIndex l → sortByIndex l = l.
Proof.
  induction 1 as [|x l Hs IH Hhd]; [done|].
  cbn [sortByIndex foldr]. fold (sortByIndex l). rewrite IH.
  destruct Hhd as [|y l' Hxy]; [done|].
  cbn [insertByIndex]. unfold byIndex in Hxy.
  by destruct (Z.leb_spec (rt_index x) (rt_index y)); [|lia].
Qed.

Lemma sortByIndex_idempotent l : sortByIndex (sortByIndex l) = sortByIndex l.
Proof. apply sortByIndex_fixed, sortByIndex_sorted. Qed.

Section StableRebuild.
Context `{Parsers} `{Constants}.
Implicit Types h : gmap nat Stable.cell.

Lemma fromRawPool_run h raw es mapped shares a fee addr :
  h !! Stable.raw_tokens raw = Some (Stable.RawArr es) →
  mapM (Stable.toPoolToken raw) (sortByIndex es) = Ok mapped →
  unsafeFastParseEther (Stable.raw_totalShares raw) = Ok shares →
  toBigInt (Stable.raw_amp raw) = Ok a →
  unsafeFastParseEther (Stable.raw_swapFee raw) = Ok fee →
  getPoolAddress (Stable.raw_id raw) = Ok addr →
  let h1 := <[Stable.raw_tokens raw := Stable.RawArr (sortByIndex es)]> h in
  let h2 := <[fresh (dom h1) := Stable.TokArr mapped]> h1 in
  Stable.fromRawPool raw h
  = (Ok (Stable.mkStablePool (Stable.raw_id raw) addr (a * 1000) fee
           (fresh (dom h1)) (fresh (dom h2)) shares
           (findIndex (Stable.hasAddress addr) mapped)),
     <[fresh (dom h2) :=
         Stable.TokArr
           (splice1 (findIndex (Stable.hasAddress addr) mapped) mapped)]> h2).
Proof.
  intros Hes Hmap Hshares Ha Hfee Haddr h1 h2.
  unfold Stable.fromRawPool.
  rewrite bind_run, (readRaw_run _ _ _ Hes), bind_run.
  unfold writeArr at 1. cbv zeta. fold h1.
  rewrite bind_run, (readRaw_run _ _ (sortByIndex es))
    by apply lookup_insert_eq.
  rewrite bind_liftR_run, Hmap, bind_alloc_run. fold h2.
  rewrite bind_liftR_run, Hshares, bind_liftR_run, Ha.
  cbn [mbind result_bind].
  rewrite bind_liftR_run, Hfee.
  apply constructor_run; [done|]. apply lookup_insert_eq.
Qed.

End StableRebuild.

Lemma fresh_insert_ne {C} (h : gmap nat C) (l : nat) (c : C) :
  fresh (dom (<[l := c]> h)) ≠ l.
Proof.
  intros Heq. apply (is_fresh (dom (<[l := c]> h))).
  rewrite Heq at 1. rewrite dom_insert_L.
  apply elem_of_union_l. by apply elem_of_singleton.
Qed.

(** X7.  Sorting is idempotent, so a record can be used again: a second
    [fromRawPool] on the record that a first call has sorted leaves the
    record's token array as it is and returns a pool with the same id,
    address, amp, fee, total shares, BPT index and token list content, held
    in a new array that it does not share with the first pool, whose token
    list is untouched. *)
Theorem X7_fromRawPool_again :
  ∀ (P : Parsers) (K : Constants) (h : gmap nat Stable.cell) raw es p1 h1,
    h !! Stable.raw_tokens raw = Some (Stable.RawArr es) →
    Stable.fromRawPool raw h = (Ok p1, h1) →
    ∃ p2 h2 ts,
      Stable.fromRawPool raw h1 = (Ok p2, h2)
      ∧ h2 !! Stable.raw_tokens raw = h1 !! Stable.raw_tokens raw
      ∧ h1 !! Stable.tokens p1 = Some (Stable.TokArr ts)
      ∧ h2 !! Stable.tokens p1 = Some (Stable.TokArr ts)
      ∧ h2 !! Stable.tokens p2 = Some (Stable.TokArr ts)
      ∧ Stable.tokens p2 ≠ Stable.tokens p1
      ∧ Stable.id p2 = Stable.id p1
      ∧ Stable.poolAddress p2 = Stable.poolAddress p1
      ∧ Stable.amp p2 = Stable.amp p1
      ∧ Stable.swapFee p2 = Stable.swapFee p1
      ∧ Stable.totalShares p2 = Stable.totalShares p1
      ∧ Stable.bptIndex p2 = Stable.bptIndex p1.
Proof.
  intros P K h raw es p1 h1 Hes Hrun.
  destruct (fromRawPool_Ok _ _ _ _ _ Hes Hrun)
    as (mapped & shares & a & fee & addr & Hmap & Hshares & Ha & Hfee
        & Haddr & Hp).
  cbv zeta in Hp. destruct Hp as [Hp1 Hh1].
  set (hA := <[Stable.raw_tokens raw := Stable.RawArr (sortByIndex es)]> h)
    in *.
  set (hB := <[fresh (dom hA) := Stable.TokArr mapped]> hA) in *.
  assert (fresh (dom hA) ≠ Stable.raw_tokens raw) as HneA
    by apply fresh_insert_ne.
  assert (fresh (dom hB) ≠ fresh (dom hA)) as HneB
    by apply fresh_insert_ne.
  assert (fresh (dom hB) ≠ Stable.raw_tokens raw) as HneB'.
  { intros Heq. apply (is_fresh (dom hB)). rewrite Heq at 1.
    unfold hB, hA. rewrite !dom_insert_L.
    apply elem_of_union_r, elem_of_union_l. by apply elem_of_singleton. }
  assert (h1 !! Stable.raw_tokens raw
          = Some (Stable.RawArr (sortByIndex es))) as Hraw1.
  { rewrite Hh1. rewrite lookup_insert_ne by done.
    unfold hB. rewrite lookup_insert_ne by done.
    unfold hA. apply lookup_insert_eq. }
  assert (h1 !! Stable.tokens p1 = Some (Stable.TokArr mapped)) as Htok1.
  { rewrite Hh1, Hp1. cbn [Stable.tokens].
    rewrite lookup_insert_ne by done. unfold hB. apply lookup_insert_eq. }
  pose proof (fromRawPool_run h1 raw (sortByIndex es) mapped shares a fee addr
                Hraw1) as Hrun2.
  rewrite sortByIndex_idempotent in Hrun2.
  specialize (Hrun2 Hmap Hshares Ha Hfee Haddr). cbv zeta in Hrun2.
  rewrite (insert_id h1) in Hrun2 by done.
  eexists _, _, mapped. split; [exact Hrun2|].
  cbn [Stable.tokens Stable.id Stable.poolAddress Stable.amp Stable.swapFee
       Stable.totalShares Stable.bptIndex].
  set (l1 := fresh (dom h1)).
  set (hC := <[l1 := Stable.TokArr mapped]> h1).
  assert (l1 ∉ dom h1) as Hl1 by apply is_fresh.
  assert (fresh (dom hC) ∉ dom hC) as Hl2 by apply is_fresh.
  assert (Stable.raw_tokens raw ∈ dom h1) as Hin_raw
    by (apply elem_of_dom; eauto).
  assert (Stable.tokens p1 ∈ dom h1) as Hin_tok
    by (apply elem_of_dom; eauto).
  assert (∀ l, l ∈ dom h1 → l1 ≠ l) as Hne1
    by (intros l Hl Heq; apply Hl1; by rewrite Heq).
  assert (∀ l, l ∈ dom h1 → fresh (dom hC) ≠ l) as Hne2.
  { intros l Hl Heq. apply Hl2. rewrite Heq. unfold hC.
    rewrite dom_insert_L. by apply elem_of_union_r. }
  assert (fresh (dom hC) ≠ l1) as Hne21 by apply fresh_insert_ne.
  split.
  { rewrite lookup_insert_ne by by apply Hne2.
    unfold hC. rewrite lookup_insert_ne by by apply Hne1. done. }
  split; [done|]. split.
  { rewrite lookup_insert_ne by by apply Hne2.
    unfold hC. rewrite lookup_insert_ne by by apply Hne1. done. }
  split.
  { rewrite lookup_insert_ne by done.
    unfold hC. apply lookup_insert_eq. }
  split; [by apply Hne1|].
  rewrite Hp1. done.
Qed.

Lemma X7_fromRawPool_again_witness :
  ∃ p2 h2 ts,
    Stable.fromRawPool (H := decimalParsers) (H0 := mainnetConstants)
      Sample.rawStable Sample.stableStore = (Ok p2, h2)
    ∧ Sample.stableStore !! Stable.tokens Sample.stablePool
      = Some (Stable.TokArr ts)
    ∧ h2 !! Stable.tokens p2 = Some (Stable.TokArr ts)
    ∧ Stable.tokens p2 ≠ Stable.tokens Sample.stablePool
    ∧ Stable.bptIndex p2 = Stable.bptIndex Sample.stablePool.
Proof.
  destruct (X7_fromRawPool_again decimalParsers mainnetConstants
              Sample.rawStore Sample.rawStable Sample.rawEntries
              Sample.stablePool Sample.stableStore eq_refl
              ltac:(vm_compute; reflexivity))
    as (p2 & h2 & ts & Hrun & _ & Hts1 & _ & Hts2 & Hne & _ & _ & _ & _ & _
        & Hbpt).
  exists p2, h2, ts. repeat split; assumption.
Defined.

(* ================================================================== *)
(** * Records that give a well-formed stable pool *)
(* ================================================================== *)

Lemma splice1_others {A} (key : A → string) (l : list A) (i : nat) x y :
  NoDup (key <$> l) → l !! i = Some x →
  y ∈ take i l ++ drop (S i) l → y ∈ l ∧ key y ≠ key x.
Proof.
  intros Hnd Hx Hy.
  assert (∃ j, j ≠ i ∧ l !! j = Some y) as (j & Hj & Hjy).
  { apply elem_of_app in Hy as [Hy|Hy];
      apply list_elem_of_lookup in Hy as [j Hj].
    - pose proof (lookup_lt_Some _ _ _ Hj) as Hlt.
      rewrite length_take in Hlt.
      exists j. split; [lia|]. rewrite lookup_take_lt in Hj by lia. done.
    - rewrite lookup_drop in Hj. exists (S i + j)%nat. split; [lia|done]. }
  split; [by eapply list_elem_of_lookup_2|].
  intros Heq. apply Hj.
  apply (NoDup_lookup (key <$> l) j i (key x)); [done| |].
  - by rewrite list_lookup_fmap, Hjy; cbn; rewrite Heq.
  - by rewrite list_lookup_fmap, Hx.
Qed.

Lemma scale18s_Ok l :
  Forall (λ t, ∃ s, t = Stable.IsToken s) l →
  ∃ bs, Stable.scale18s l = Ok bs ∧ length bs = length l.
Proof.
  unfold Stable.scale18s.
  induction 1 as [|t l [s ->] _ (bs & Hbs & Hlen)]; [by exists []|].
  exists (Stable.spt_scale18 s :: bs). cbn. rewrite Hbs. cbn.
  by rewrite Hlen.
Qed.

Section WellFormed.
Context `{Parsers} `{Constants}.

Lemma toPoolToken_addresses raw l k :
  Forall2 (λ e t, Stable.toPoolToken raw e = Ok t) l k →
  (λ t, address (Stable.pt_token t)) <$> k = rt_address <$> l.
Proof.
  induction 1 as [|e t l k Ht _ IH]; [done|].
  rewrite !fmap_cons, IH.
  by destruct (toPoolToken_Ok _ _ _ Ht) as (_ & -> & _).
Qed.

End WellFormed.

(** X8.  A record whose entries have distinct addresses, one of them the
    record's own address, and whose id starts with that address gives a
    well-formed pool: [bptIndex] is the position of a BPT, [tokensNoBpt]
    holds every other entry and only StablePoolTokens, so the balance list
    [tokensNoBpt.map(t => t.scale18)] of the swap functions is defined and
    has one entry per token. *)
Theorem X8_well_formed_record :
  ∀ (P : Parsers) (K : Constants) (h : gmap nat Stable.cell) raw es p h',
    h !! Stable.raw_tokens raw = Some (Stable.RawArr es) →
    Stable.fromRawPool raw h = (Ok p, h') →
    NoDup (rt_address <$> es) →
    Stable.raw_address raw ∈ rt_address <$> es →
    Stable.poolAddress p = Stable.raw_address raw →
    ∃ ts noBpt bs b,
      h' !! Stable.tokens p = Some (Stable.TokArr ts)
      ∧ h' !! Stable.tokensNoBpt p = Some (Stable.TokArr noBpt)
      ∧ 0 ≤ Stable.bptIndex p
      ∧ ts !! Z.to_nat (Stable.bptIndex p) = Some (Stable.IsBPT b)
      ∧ (length noBpt + 1 = length es)%nat
      ∧ Forall (λ t, ∃ s, t = Stable.IsToken s) noBpt
      ∧ Stable.scale18s noBpt = Ok bs
      ∧ length bs = length noBpt.
Proof.
  intros P K h raw es p h' Hes Hrun Hnd Hin Haddr.
  destruct (fromRawPool_Ok _ _ _ _ _ Hes Hrun)
    as (mapped & shares & a & fee & addr & Hmap & _ & _ & _ & _ & Hp).
  cbv zeta in Hp. destruct Hp as [Hp Hh'].
  apply mapM_Ok_Forall2 in Hmap.
  pose proof (toPoolToken_addresses _ _ _ Hmap) as Hkeys.
  assert (addr = Stable.raw_address raw) as ->
    by (rewrite <- Haddr, Hp; done).
  assert (NoDup ((λ t, address (Stable.pt_token t)) <$> mapped)) as Hnd'.
  { by rewrite Hkeys, sortByIndex_perm. }
  set (i := findIndex (Stable.hasAddress (Stable.raw_address raw)) mapped)
    in *.
  assert (0 ≤ i) as Hi.
  { destruct (Z.lt_ge_cases i 0) as [Hneg|]; [exfalso|done].
    rewrite <- (sortByIndex_perm es), <- Hkeys in Hin.
    apply list_elem_of_fmap in Hin as (t & Ht & Htin).
    pose proof (findIndex_none _ _ Hneg t Htin) as Hno.
    by apply hasAddress_false in Hno. }
  destruct (findIndex_lookup _ _ Hi) as (b & Hb & Hfb & _). fold i in Hb.
  apply hasAddress_true in Hfb.
  assert (∃ bb, b = Stable.IsBPT bb) as [bb ->].
  { destruct (Forall2_elem_r _ _ _ b Hmap) as (e & _ & He);
      [by eapply list_elem_of_lookup_2|].
    destruct (toPoolToken_Ok _ _ _ He) as (_ & Hadr & _ & Hbpt & _).
    destruct Hbpt as (bb & -> & _); [|by exists bb].
    apply String.eqb_eq. by rewrite <- Hadr. }
  pose proof (lookup_lt_Some _ _ _ Hb) as Hlt.
  assert (splice1 i mapped
          = take (Z.to_nat i) mapped ++ drop (S (Z.to_nat i)) mapped) as Hsp.
  { rewrite <- (Z2Nat.id i) at 1 by done. by apply splice1_in_range. }
  assert (Forall (λ t, ∃ s, t = Stable.IsToken s) (splice1 i mapped))
    as Hall.
  { rewrite Hsp. apply Forall_forall. intros y Hy.
    destruct (splice1_others (λ t, address (Stable.pt_token t)) _ _ _ _
                Hnd' Hb Hy) as [Hymem Hne].
    destruct y as [s|yb]; [by exists s|exfalso].
    destruct (Forall2_elem_r _ _ _ _ Hmap Hymem) as (e & _ & He).
    destruct (toPoolToken_Ok _ _ _ He) as (_ & Hadr & _ & _ & Hbpt).
    destruct (Hbpt yb eq_refl) as [Heq _].
    apply String.eqb_eq in Heq. apply Hne. by rewrite Hadr, Heq, Hfb. }
  destruct (scale18s_Ok _ Hall) as (bs & Hbs & Hlen).
  exists mapped, (splice1 i mapped), bs, bb.
  rewrite Hp, Hh'. cbn [Stable.tokens Stable.tokensNoBpt Stable.bptIndex].
  fold i.
  split.
  { rewrite lookup_insert_ne by apply fresh_insert_ne.
    apply lookup_insert_eq. }
  split; [apply lookup_insert_eq|].
  split; [done|]. split; [done|]. split; [|done].
  rewrite Hsp, length_app, length_take, length_drop.
  apply Forall2_length in Hmap.
  rewrite <- (Permutation_length (sortByIndex_perm es)). lia.
Qed.

Lemma X8_well_formed_record_witness :
  ∃ ts noBpt bs b,
    Sample.stableStore !! Stable.tokens Sample.stablePool
      = Some (Stable.TokArr ts)
    ∧ Sample.stableStore !! Stable.tokensNoBpt Sample.stablePool
      = Some (Stable.TokArr noBpt)
    ∧ ts !! Z.to_nat (Stable.bptIndex Sample.stablePool)
      = Some (Stable.IsBPT b)
    ∧ Stable.scale18s noBpt = Ok bs
    ∧ length bs = 2%nat.
Proof.
  destruct (X8_well_formed_record decimalParsers mainnetConstants
              Sample.rawStore Sample.rawStable Sample.rawEntries
              Sample.stablePool Sample.stableStore eq_refl
              ltac:(vm_compute; reflexivity)
              ltac:(apply (bool_decide_unpack _); vm_compute; exact I)
              ltac:(apply (bool_decide_unpack _); vm_compute; exact I)
              eq_refl)
    as (ts & noBpt & bs & b & Hts & Hno & _ & Hb & Hlen & _ & Hbs & Hlen').
  exists ts, noBpt, bs, b.
  split; [done|]. split; [done|]. split; [done|]. split; [done|].
  rewrite Hlen'. cbn in Hlen. lia.
Defined.

(* ================================================================== *)
(** * Pool ids and pool addresses *)
(* ================================================================== *)

Lemma substring_length (s : string) :
  ∀ n, (n ≤ String.length s)%nat →
       String.length (String.substring 0 n s) = n.
Proof.
  induction s as [|c s IH]; intros [|n] Hn; cbn in *; try done; try lia.
  rewrite IH; [done|lia].
Qed.

Lemma substring_prefix (s : string) :
  ∀ n, (n ≤ String.length s)%nat →
       String.prefix (String.substring 0 n s) s = true.
Proof.
  induction s as [|c s IH]; intros [|n] Hn; cbn in *; try done; try lia.
  destruct (ascii_dec c c); [|done]. apply IH. lia.
Qed.

(** X9.  [getPoolAddress] accepts exactly the ids of 66 characters; the
    address it returns has 42 characters and is the beginning of the id.
    Every other id is rejected with the invariant error. *)
Theorem X9_getPoolAddress_prefix :
  ∀ id,
    (String.length id = 66%nat →
     ∃ a, getPoolAddress id = Ok a
          ∧ String.length a = 42%nat
          ∧ String.prefix a id = true)
    ∧ (String.length id ≠ 66%nat → getPoolAddress id = Err InvalidPoolId).
Proof.
  intros id. unfold getPoolAddress. split; intros Hlen.
  - destruct (decide _) as [_|]; [|done].
    exists (String.substring 0 42 id). split; [done|].
    split; [apply substring_length|apply substring_prefix]; lia.
  - by destruct (decide _).
Qed.

Lemma X9_getPoolAddress_prefix_witness :
  (∃ a, getPoolAddress Sample.poolId = Ok a
        ∧ String.length a = 42%nat
        ∧ String.prefix a Sample.poolId = true)
  ∧ getPoolAddress Sample.poolAddr = Err InvalidPoolId.
Proof.
  split.
  - apply (X9_getPoolAddress_prefix Sample.poolId). reflexivity.
  - apply (X9_getPoolAddress_prefix Sample.poolAddr). vm_compute. lia.
Defined.

(** X10.  A pool id that has not 66 characters makes every way of building
    a pool fail.  The two constructors throw the invariant error of
    [getPoolAddress], the stable one before it reads or copies the token
    list; the two factories throw as well. *)
Theorem X10_malformed_id :
  ∀ id, String.length id ≠ 66%nat →
    (∀ (h : gmap nat Stable.cell) amp fee toks total,
        Stable.constructor id amp fee toks total h = (Err InvalidPoolId, h))
    ∧ (∀ version params m w b,
         Linear.constructor id version params m w b = Err InvalidPoolId)
    ∧ (∀ (P : Parsers) (K : Constants) (h : gmap nat Stable.cell) raw,
         Stable.raw_id raw = id → failed (Stable.fromRawPool raw h).1)
    ∧ (∀ (P : Parsers) (K : Constants) (h : gmap nat (list RawToken)) raw,
         Linear.raw_id raw = id → failed (Linear.fromRawPool raw h).1).
Proof.
  intros id Hlen.
  assert (getPoolAddress id = Err InvalidPoolId) as Hid
    by (unfold getPoolAddress; by destruct (decide _)).
  split; [|split; [|split]].
  - intros h amp fee toks total. unfold Stable.constructor.
    by rewrite bind_liftR_run, Hid.
  - intros version params m w b. unfold Linear.constructor. by rewrite Hid.
  - intros P K h raw <-.
    destruct (Stable.fromRawPool raw h) as [[p|e] h'] eqn:Hrun;
      [exfalso|by exists e].
    destruct (h !! Stable.raw_tokens raw) as [[es|ts|ns]|] eqn:Hes.
    + destruct (fromRawPool_Ok _ _ _ _ _ Hes Hrun)
        as (? & ? & ? & ? & addr & _ & _ & _ & _ & Haddr & _).
      congruence.
    + unfold Stable.fromRawPool in Hrun. rewrite bind_run in Hrun.
      unfold Stable.readRaw in Hrun. rewrite bind_run in Hrun.
      unfold readArr in Hrun. rewrite Hes in Hrun. cbn in Hrun. congruence.
    + unfold Stable.fromRawPool in Hrun. rewrite bind_run in Hrun.
      unfold Stable.readRaw in Hrun. rewrite bind_run in Hrun.
      unfold readArr in Hrun. rewrite Hes in Hrun. cbn in Hrun. congruence.
    + unfold Stable.fromRawPool in Hrun. rewrite bind_run in Hrun.
      unfold Stable.readRaw in Hrun. rewrite bind_run in Hrun.
      unfold readArr in Hrun. rewrite Hes in Hrun. cbn in Hrun. congruence.
  - intros P K h raw <-.
    destruct (Linear.fromRawPool raw h) as [[p|e] h'] eqn:Hrun;
      [exfalso|by exists e].
    destruct (h !! Linear.raw_tokens raw) as [es|] eqn:Hes.
    + revert Hrun. unfold Linear.fromRawPool.
      rewrite bind_run. unfold readArr at 1. rewrite Hes.
      rewrite bind_run. unfold writeArr at 1.
      rewrite bind_run. unfold readArr at 1. rewrite lookup_insert_eq.
      unfold liftR, Linear.constructor. rewrite Hid. cbv zeta.
      repeat (match goal with
              | |- context [mbind _ ?r] =>
                  destruct r; cbn [defined mbind result_bind];
                  try (by intros [=])
              | |- context [defined ?o] =>
                  destruct o; cbn [defined mbind result_bind];
                  try (by intros [=])
              end).
    + unfold Linear.fromRawPool in Hrun. rewrite bind_run in Hrun.
      unfold readArr in Hrun. rewrite Hes in Hrun. cbn in Hrun. congruence.
Qed.

Lemma X10_malformed_id_witness :
  Stable.constructor Sample.poolAddr 200000 400000000000000 1
    1000000000000000000000 Sample.stableStore
  = (Err InvalidPoolId, Sample.stableStore).
Proof.
  apply (X10_malformed_id Sample.poolAddr). vm_compute. lia.
Defined.

(* ================================================================== *)
(** * The linear pool factory *)
(* ================================================================== *)

Section LinearFactory.
Context `{Parsers} `{Constants}.
Implicit Types h : gmap nat (list RawToken).

Lemma linear_fromRawPool_inv h raw es p h' :
  h !! Linear.raw_tokens raw = Some es →
  Linear.fromRawPool raw h = (Ok p, h') →
  ∃ sf mT lo up mA wT wRate wA wrapped bT bA bpt addr,
    unsafeFastParseEther (Linear.raw_swapFee raw) = Ok sf
    ∧ at_index (sortByIndex es) (Linear.raw_mainIndex raw) = Some mT
    ∧ TokenAmountParse.fromHumanAmount (Linear.toToken mT)
        (Linear.raw_lowerTarget raw) = Ok lo
    ∧ TokenAmountParse.fromHumanAmount (Linear.toToken mT)
        (Linear.raw_upperTarget raw) = Ok up
    ∧ TokenAmountParse.fromHumanAmount (Linear.toToken mT) (rt_balance mT)
      = Ok mA
    ∧ at_index (sortByIndex es) (Linear.raw_wrappedIndex raw) = Some wT
    ∧ unsafeFastParseEther (default "1.0"%string (truthy (rt_priceRate wT)))
      = Ok wRate
    ∧ TokenAmountParse.fromHumanAmount (Linear.toToken wT) (rt_balance wT)
      = Ok wA
    ∧ Linear.newWrappedToken (Linear.toToken wT) (amount wA) wRate
      = Ok wrapped
    ∧ at_index (sortByIndex es)
        (findIndex (λ t, String.eqb (rt_address t) (Linear.raw_address raw))
           (sortByIndex es)) = Some bT
    ∧ TokenAmountParse.fromHumanAmount (Linear.toToken bT) (rt_balance bT)
      = Ok bA
    ∧ Linear.newBPT (Linear.toToken bT) (amount bA) = Ok bpt
    ∧ getPoolAddress (Linear.raw_id raw) = Ok addr
    ∧ p = Linear.mkLinearPool (Linear.raw_id raw) addr
            (Linear.raw_poolTypeVersion raw) sf mA wrapped bpt
            {| fee := sf; rate := wRate;
               lowerTarget := TokenAmount.scale18 lo;
               upperTarget := TokenAmount.scale18 up |}.
Proof.
  intros Hes. unfold Linear.fromRawPool.
  rewrite bind_run. unfold readArr at 1. rewrite Hes.
  rewrite bind_run. unfold writeArr at 1.
  rewrite bind_run. unfold readArr at 1. rewrite lookup_insert_eq.
  unfold liftR. cbv zeta.
  destruct (unsafeFastParseEther (Linear.raw_swapFee raw)) as [sf|] eqn:Hsf;
    cbn [mbind result_bind]; [|by intros [=]].
  destruct (at_index (sortByIndex es) (Linear.raw_mainIndex raw))
    as [mT|] eqn:HmT; cbn [defined mbind result_bind]; [|by intros [=]].
  destruct (TokenAmountParse.fromHumanAmount _ (Linear.raw_lowerTarget raw))
    as [lo|] eqn:Hlo; cbn [mbind result_bind]; [|by intros [=]].
  destruct (TokenAmountParse.fromHumanAmount _ (Linear.raw_upperTarget raw))
    as [up|] eqn:Hup; cbn [mbind result_bind]; [|by intros [=]].
  destruct (TokenAmountParse.fromHumanAmount _ (rt_balance mT))
    as [mA|] eqn:HmA; cbn [mbind result_bind]; [|by intros [=]].
  destruct (at_index (sortByIndex es) (Linear.raw_wrappedIndex raw))
    as [wT|] eqn:HwT; cbn [defined mbind result_bind]; [|by intros [=]].
  destruct (unsafeFastParseEther (default _ (truthy (rt_priceRate wT))))
    as [wRate|] eqn:HwRate;
    cbn [mbind result_bind]; [|by intros [=]].
  destruct (TokenAmountParse.fromHumanAmount _ (rt_balance wT))
    as [wA|] eqn:HwA; cbn [mbind result_bind]; [|by intros [=]].
  destruct (Linear.newWrappedToken _ (amount wA) _) as [wrapped|] eqn:Hw;
    cbn [mbind result_bind]; [|by intros [=]].
  destruct (at_index (sortByIndex es) (findIndex _ _)) as [bT|] eqn:HbT;
    cbn [defined mbind result_bind]; [|by intros [=]].
  destruct (TokenAmountParse.fromHumanAmount _ (rt_balance bT))
    as [bA|] eqn:HbA; cbn [mbind result_bind]; [|by intros [=]].
  destruct (Linear.newBPT _ (amount bA)) as [bpt|] eqn:Hb;
    cbn [mbind result_bind]; [|by intros [=]].
  unfold Linear.constructor.
  destruct (getPoolAddress (Linear.raw_id raw)) as [addr|] eqn:Haddr;
    cbn [mbind result_bind]; [|by intros [=]].
  intros [= <- <-].
  exists sf, mT, lo, up, mA, wT, wRate, wA, wrapped, bT, bA, bpt, addr.
  repeat (split; [done|]). done.
Qed.

Lemma at_index_range {A} (l : list A) i x :
  at_index l i = Some x → 0 ≤ i < Z.of_nat (length l).
Proof.
  unfold at_index. destruct (Z.ltb_spec i 0); [done|].
  intros Hx%lookup_lt_Some. lia.
Qed.

End LinearFactory.

(** X11.  What [LinearPool.fromRawPool] puts in the pool: the fee is the
    parsed swap fee, in the pool and in its parameters; the rate of the
    parameters is the rate of the wrapped token, parsed from its price rate,
    and from '1.0' when the record gives none (the factory does not throw
    for a missing price rate, unlike the stable one); the wrapped token's
    18-decimal balance is its amount times that rate, rounded down; the
    targets are read in the decimals of the main token; the pool's address
    is the beginning of the id. *)
Theorem X11_linear_factory_fields :
  ∀ (P : Parsers) (K : Constants) (h : gmap nat (list RawToken)) raw es p h',
    h !! Linear.raw_tokens raw = Some es →
    Linear.fromRawPool raw h = (Ok p, h') →
    ∃ mT wT lo up,
      at_index (sortByIndex es) (Linear.raw_mainIndex raw) = Some mT
      ∧ at_index (sortByIndex es) (Linear.raw_wrappedIndex raw) = Some wT
      ∧ unsafeFastParseEther (Linear.raw_swapFee raw) = Ok (Linear.swapFee p)
      ∧ fee (Linear.params p) = Linear.swapFee p
      ∧ unsafeFastParseEther
          (default "1.0"%string (truthy (rt_priceRate wT)))
        = Ok (Linear.wt_rate (Linear.wrappedToken p))
      ∧ (truthy (rt_priceRate wT) = None →
         unsafeFastParseEther "1.0"%string
         = Ok (Linear.wt_rate (Linear.wrappedToken p)))
      ∧ rate (Linear.params p) = Linear.wt_rate (Linear.wrappedToken p)
      ∧ Linear.wt_scale18 (Linear.wrappedToken p)
        = (Linear.wt_amount (Linear.wrappedToken p)
           * TokenAmount.scalar (Linear.wt_token (Linear.wrappedToken p))
           * Linear.wt_rate (Linear.wrappedToken p)) ÷ WAD
      ∧ TokenAmountParse.fromHumanAmount (Linear.toToken mT)
          (Linear.raw_lowerTarget raw) = Ok lo
      ∧ TokenAmountParse.fromHumanAmount (Linear.toToken mT)
          (Linear.raw_upperTarget raw) = Ok up
      ∧ lowerTarget (Linear.params p) = TokenAmount.scale18 lo
      ∧ upperTarget (Linear.params p) = TokenAmount.scale18 up
      ∧ Linear.id p = Linear.raw_id raw
      ∧ getPoolAddress (Linear.raw_id raw) = Ok (Linear.poolAddress p).
Proof.
  intros P K h raw es p h' Hes Hrun.
  destruct (linear_fromRawPool_inv _ _ _ _ _ Hes Hrun)
    as (sf & mT & lo & up & mA & wT & wRate & wA & wrapped & bT & bA & bpt
        & addr & Hfee & HmT & Hlo & Hup & HmA & HwT & HwRate & HwA & Hw
        & HbT & HbA & Hb & Haddr & ->).
  exists mT, wT, lo, up.
  cbn [Linear.swapFee Linear.params Linear.wrappedToken Linear.id
       Linear.poolAddress Linear.bptToken fee rate lowerTarget
       upperTarget].
  unfold Linear.newWrappedToken, TokenAmount.new in Hw.
  destruct (18 <? _) in Hw; [done|]. destruct (_ <? 0) in Hw; [done|].
  injection Hw as <-.
  cbn [Linear.wt_rate Linear.wt_scale18 Linear.wt_amount Linear.wt_token
       token amount].
  do 5 (split; [done|]).
  split; [by intros Hnone; rewrite Hnone in HwRate|].
  do 7 (split; [done|]). done.
Qed.

Lemma X11_linear_factory_fields_witness :
  ∃ wT,
    at_index (sortByIndex Sample.rawLinearEntries)
      (Linear.raw_wrappedIndex Sample.rawLinear) = Some wT
    ∧ unsafeFastParseEther (Parsers := decimalParsers)
        (default "1.0"%string (truthy (rt_priceRate wT)))
      = Ok (Linear.wt_rate (Linear.wrappedToken Sample.linearPool))
    ∧ rate (Linear.params Sample.linearPool)
      = Linear.wt_rate (Linear.wrappedToken Sample.linearPool).
Proof.
  assert (Linear.fromRawPool (H := decimalParsers) (H0 := mainnetConstants)
            Sample.rawLinear Sample.rawLinearStore
          = (Ok Sample.linearPool,
             {[ 0%nat := [Sample.rawLinearBPT; Sample.rawMain;
                          Sample.rawWrapped] ]})) as Hrun
    by (vm_compute; reflexivity).
  destruct (X11_linear_factory_fields decimalParsers mainnetConstants
              Sample.rawLinearStore Sample.rawLinear Sample.rawLinearEntries
              Sample.linearPool _ eq_refl Hrun)
    as (mT & wT & lo & up & _ & HwT & _ & _ & Hrate & _ & Hparams & _).
  exists wT. split; [done|]. split; done.
Defined.

(** X12.  [LinearPool.fromRawPool] sorts the token array of the record in
    place and changes nothing else in the store, whether it returns or
    throws.  It throws when the main index or the wrapped index points
    outside the list, and when no entry carries the record's address. *)
Theorem X12_linear_factory_requires :
  ∀ (P : Parsers) (K : Constants) (h : gmap nat (list RawToken)) raw es,
    h !! Linear.raw_tokens raw = Some es →
    (Linear.fromRawPool raw h).2
      = <[Linear.raw_tokens raw := sortByIndex es]> h
    ∧ (¬ 0 ≤ Linear.raw_mainIndex raw < Z.of_nat (length es) →
       failed (Linear.fromRawPool raw h).1)
    ∧ (¬ 0 ≤ Linear.raw_wrappedIndex raw < Z.of_nat (length es) →
       failed (Linear.fromRawPool raw h).1)
    ∧ ((∀ e, e ∈ es → rt_address e ≠ Linear.raw_address raw) →
       failed (Linear.fromRawPool raw h).1).
Proof.
  intros P K h raw es Hes.
  split; [by apply linear_fromRawPool_store|].
  assert (length (sortByIndex es) = length es) as Hlen
    by apply Permutation_length, sortByIndex_perm.
  assert (∀ Q : Prop,
            (∀ p h', Linear.fromRawPool raw h = (Ok p, h') → Q → False) →
            Q → failed (Linear.fromRawPool raw h).1) as Hcases.
  { intros Q HQ Hq.
    destruct (Linear.fromRawPool raw h) as [[p|e] h'] eqn:Hrun;
      [exfalso; by eapply HQ|by exists e]. }
  split; [|split]; apply Hcases; intros p h' Hrun Hq;
    destruct (linear_fromRawPool_inv _ _ _ _ _ Hes Hrun)
      as (sf & mT & lo & up & mA & wT & wRate & wA & wrapped & bT & bA & bpt
          & addr & _ & HmT & _ & _ & _ & HwT & _ & _ & _ & HbT & _).
  - apply at_index_range in HmT. lia.
  - apply at_index_range in HwT. lia.
  - assert (0 ≤ findIndex (λ t, String.eqb (rt_address t)
                                  (Linear.raw_address raw)) (sortByIndex es))
      as Hi by (apply at_index_range in HbT; lia).
    destruct (findIndex_lookup _ _ Hi) as (b & Hb & Hfb & _).
    apply (Hq b).
    + apply sortByIndex_elem. by eapply list_elem_of_lookup_2.
    + by apply String.eqb_eq.
Qed.

Lemma X12_linear_factory_requires_witness :
  (Linear.fromRawPool (H := decimalParsers) (H0 := mainnetConstants)
     Sample.rawLinear Sample.rawLinearStore).2
  = <[Linear.raw_tokens Sample.rawLinear
      := sortByIndex Sample.rawLinearEntries]> Sample.rawLinearStore.
Proof.
  apply (X12_linear_factory_requires decimalParsers mainnetConstants
           Sample.rawLinearStore Sample.rawLinear Sample.rawLinearEntries
           eq_refl).
Defined.

(* ================================================================== *)
(** * The linear pool: which conversion a swap takes *)
(* ================================================================== *)

Lemma fromScale18Amount_token t n up r :
  TokenAmount.fromScale18Amount t n up = Ok r → token r = t.
Proof.
  unfold TokenAmount.fromScale18Amount, TokenAmount.new.
  destruct (if up then _ else _) as [raw|]; cbn [mbind result_bind];
    [|done].
  destruct (18 <? _); [done|]. destruct (raw <? 0); [done|].
  by intros [= <-].
Qed.

Ltac linear_branch Hrun n :=
  match type of Hrun with
  | context [mbind _ ?c] =>
      destruct c as [n|] eqn:?; cbn [mbind result_bind] in Hrun; [|done]
  end.

Section LinearDispatch.
Context `{LinearMath}.

Lemma linear_swapGivenIn_output p tokenIn tokenOut a r :
  Linear.swapGivenIn p tokenIn tokenOut a = Ok r →
  ∃ tOut,
    at_index (Linear.tokens p)
      (findIndex (Linear.hasAddress (address tokenOut)) (Linear.tokens p))
    = Some tOut
    ∧ amount r ≤ amount tOut
    ∧ (if isEqual tokenIn (token (Linear.mainToken p)) then
         if isEqual tokenOut (Linear.wt_token (Linear.wrappedToken p))
         then Linear._exactMainTokenInForWrappedOut p a
         else Linear._exactMainTokenInForBptOut p a
       else if isEqual tokenIn (Linear.wt_token (Linear.wrappedToken p)) then
         if isEqual tokenOut (token (Linear.mainToken p))
         then Linear._exactWrappedTokenInForMainOut p a
         else Linear._exactWrappedTokenInForBptOut p a
       else if isEqual tokenIn (Linear.bpt_token (Linear.bptToken p)) then
         if isEqual tokenOut (token (Linear.mainToken p))
         then Linear._exactBptInForMainOut p a
         else Linear._exactBptInForWrappedOut p a
       else Err PoolDoesNotContainTokens) = Ok r.
Proof.
  unfold Linear.swapGivenIn. cbv zeta.
  match goal with |- context [mbind _ ?c] => destruct c as [out|] end;
    cbn [mbind result_bind]; [|done].
  destruct (at_index _ _) as [tOut|]; cbn [defined mbind result_bind];
    [|done].
  destruct (Z.ltb_spec (amount tOut) (amount out)); [done|].
  intros [= <-]. exists tOut. split; [done|]. split; [lia|done].
Qed.

End LinearDispatch.

(** X13.  A given-in swap of a linear pool is routed by the input token
    first: main, then wrapped, then BPT.  Within each route only one output
    token is tested; every other output token, the input token itself
    included, takes the second conversion of the route, so the amount
    returned is of the token of that conversion (for a main-token input
    that is not sent to the wrapped token: an amount of the pool's BPT),
    whatever [tokenOut] is.  The amount is the 18-decimal result of the
    conversion formula brought back to the decimals of that token, rounded
    down, and it is at most the balance listed for [tokenOut]. *)
Theorem X13_linear_given_in_route :
  ∀ (LM : LinearMath) p tokenIn tokenOut a r,
    Linear.swapGivenIn p tokenIn tokenOut a = Ok r →
    let m := token (Linear.mainToken p) in
    let w := Linear.wt_token (Linear.wrappedToken p) in
    let b := Linear.bpt_token (Linear.bptToken p) in
    let main18 := TokenAmount.scale18 (Linear.mainToken p) in
    let wrapped18 := Linear.wt_scale18 (Linear.wrappedToken p) in
    let virtual := Linear.bpt_virtualBalance (Linear.bptToken p) in
    ∃ n tOut,
      TokenAmount.fromScale18Amount (token r) n false = Ok r
      ∧ at_index (Linear.tokens p)
          (findIndex (Linear.hasAddress (address tokenOut)) (Linear.tokens p))
        = Some tOut
      ∧ amount r ≤ amount tOut
      ∧ (isEqual tokenIn m = true →
         if isEqual tokenOut w
         then token r = w
              ∧ _calcWrappedOutPerMainIn (TokenAmount.scale18 a) main18
                  (Linear.params p) = Ok n
         else token r = b
              ∧ _calcBptOutPerMainIn (TokenAmount.scale18 a) main18
                  wrapped18 virtual (Linear.params p) = Ok n)
      ∧ (isEqual tokenIn m = false → isEqual tokenIn w = true →
         if isEqual tokenOut m
         then token r = m
              ∧ _calcMainOutPerWrappedIn (TokenAmount.scale18 a) main18
                  (Linear.params p) = Ok n
         else token r = b
              ∧ _calcBptOutPerWrappedIn (TokenAmount.scale18 a) main18
                  wrapped18 virtual (Linear.params p) = Ok n)
      ∧ (isEqual tokenIn m = false → isEqual tokenIn w = false →
         isEqual tokenIn b = true
         ∧ if isEqual tokenOut m
           then token r = m
                ∧ _calcMainOutPerBptIn (TokenAmount.scale18 a) main18
                    wrapped18 virtual (Linear.params p) = Ok n
           else token r = w
                ∧ _calcWrappedOutPerBptIn (TokenAmount.scale18 a) main18
                    wrapped18 virtual (Linear.params p) = Ok n).
Proof.
  intros LM p tokenIn tokenOut a r Hrun. cbv zeta.
  destruct (linear_swapGivenIn_output _ _ _ _ _ Hrun)
    as (tOut & HtOut & Hle & Hout).
  destruct (isEqual tokenIn (token (Linear.mainToken p))) eqn:Em;
    [|destruct (isEqual tokenIn (Linear.wt_token (Linear.wrappedToken p)))
        eqn:Ew;
      [|destruct (isEqual tokenIn (Linear.bpt_token (Linear.bptToken p)))
          eqn:Eb; [|done]]].
  - destruct (isEqual tokenOut (Linear.wt_token (Linear.wrappedToken p)));
      [unfold Linear._exactMainTokenInForWrappedOut in Hout
      |unfold Linear._exactMainTokenInForBptOut in Hout];
      linear_branch Hout n;
      pose proof (fromScale18Amount_token _ _ _ _ Hout) as Htok;
      exists n, tOut; rewrite Htok; repeat split; done.
  - destruct (isEqual tokenOut (token (Linear.mainToken p)));
      [unfold Linear._exactWrappedTokenInForMainOut in Hout
      |unfold Linear._exactWrappedTokenInForBptOut in Hout];
      linear_branch Hout n;
      pose proof (fromScale18Amount_token _ _ _ _ Hout) as Htok;
      exists n, tOut; rewrite Htok; repeat split; done.
  - destruct (isEqual tokenOut (token (Linear.mainToken p)));
      [unfold Linear._exactBptInForMainOut in Hout
      |unfold Linear._exactBptInForWrappedOut in Hout];
      linear_branch Hout n;
      pose proof (fromScale18Amount_token _ _ _ _ Hout) as Htok;
      exists n, tOut; rewrite Htok; repeat split; done.
Qed.

Lemma X13_linear_given_in_route_witness :
  ∃ r,
    Linear.swapGivenIn (H := parityLinearMath) Sample.linearPool
      Sample.tokM Sample.tokM (mkTokenAmount Sample.tokM 5000000000000000000)
    = Ok r
    ∧ token r = Sample.tokBPT.
Proof.
  exists (mkTokenAmount Sample.tokBPT 5000000000000000000).
  split; [reflexivity|].
  destruct (X13_linear_given_in_route parityLinearMath Sample.linearPool
              Sample.tokM Sample.tokM
              (mkTokenAmount Sample.tokM 5000000000000000000)
              (mkTokenAmount Sample.tokBPT 5000000000000000000) eq_refl)
    as (n & tOut & _ & _ & _ & Hmain & _).
  exact (proj1 (Hmain eq_refl)).
Defined.

(** X14.  A given-out swap of a linear pool is routed in the same way.  The
    amount it returns is of the pool's token that equals [tokenIn]: the
    18-decimal input the conversion formula asks for, brought back to the
    decimals of that token and rounded up.  The requested amount has passed
    the guard: it is at most the balance listed for [tokenOut]. *)
Theorem X14_linear_given_out_route :
  ∀ (LM : LinearMath) p tokenIn tokenOut a r,
    Linear.swapGivenOut p tokenIn tokenOut a = Ok r →
    let m := token (Linear.mainToken p) in
    let w := Linear.wt_token (Linear.wrappedToken p) in
    let b := Linear.bpt_token (Linear.bptToken p) in
    let main18 := TokenAmount.scale18 (Linear.mainToken p) in
    let wrapped18 := Linear.wt_scale18 (Linear.wrappedToken p) in
    let virtual := Linear.bpt_virtualBalance (Linear.bptToken p) in
    ∃ n tOut,
      TokenAmount.fromScale18Amount (token r) n true = Ok r
      ∧ isEqual tokenIn (token r) = true
      ∧ at_index (Linear.tokens p)
          (findIndex (Linear.hasAddress (address tokenOut)) (Linear.tokens p))
        = Some tOut
      ∧ amount a ≤ amount tOut
      ∧ (isEqual tokenIn m = true →
         token r = m
         ∧ if isEqual tokenOut w
           then _calcMainInPerWrappedOut (TokenAmount.scale18 a) main18
                  (Linear.params p) = Ok n
           else _calcMainInPerBptOut (TokenAmount.scale18 a) main18
                  wrapped18 virtual (Linear.params p) = Ok n)
      ∧ (isEqual tokenIn m = false → isEqual tokenIn w = true →
         token r = w
         ∧ if isEqual tokenOut m
           then _calcWrappedInPerMainOut (TokenAmount.scale18 a) main18
                  (Linear.params p) = Ok n
           else _calcWrappedInPerBptOut (TokenAmount.scale18 a) main18
                  wrapped18 virtual (Linear.params p) = Ok n)
      ∧ (isEqual tokenIn m = false → isEqual tokenIn w = false →
         token r = b
         ∧ if isEqual tokenOut m
           then _calcBptInPerMainOut (TokenAmount.scale18 a) main18
                  wrapped18 virtual (Linear.params p) = Ok n
           else _calcBptInPerWrappedOut (TokenAmount.scale18 a) main18
                  wrapped18 virtual (Linear.params p) = Ok n).
Proof.
  intros LM p tokenIn tokenOut a r. cbv zeta.
  unfold Linear.swapGivenOut. cbv zeta.
  destruct (at_index _ _) as [tOut|]; cbn [defined mbind result_bind];
    [|done].
  destruct (Z.ltb_spec (amount tOut) (amount a)); [done|].
  destruct (isEqual tokenIn (token (Linear.mainToken p))) eqn:Em;
    [|destruct (isEqual tokenIn (Linear.wt_token (Linear.wrappedToken p)))
        eqn:Ew;
      [|destruct (isEqual tokenIn (Linear.bpt_token (Linear.bptToken p)))
          eqn:Eb; [|done]]].
  - destruct (isEqual tokenOut (Linear.wt_token (Linear.wrappedToken p)));
      intros Hout;
      [unfold Linear._mainTokenInForExactWrappedOut in Hout
      |unfold Linear._mainTokenInForExactBptOut in Hout];
      linear_branch Hout n;
      pose proof (fromScale18Amount_token _ _ _ _ Hout) as Htok;
      exists n, tOut; rewrite Htok; repeat split; done || lia.
  - destruct (isEqual tokenOut (token (Linear.mainToken p)));
      intros Hout;
      [unfold Linear._wrappedTokenInForExactMainOut in Hout
      |unfold Linear._wrappedTokenInForExactBptOut in Hout];
      linear_branch Hout n;
      pose proof (fromScale18Amount_token _ _ _ _ Hout) as Htok;
      exists n, tOut; rewrite Htok; repeat split; done || lia.
  - destruct (isEqual tokenOut (token (Linear.mainToken p)));
      intros Hout;
      [unfold Linear._bptInForExactMainOut in Hout
      |unfold Linear._bptInForExactWrappedOut in Hout];
      linear_branch Hout n;
      pose proof (fromScale18Amount_token _ _ _ _ Hout) as Htok;
      exists n, tOut; rewrite Htok; repeat split; done || lia.
Qed.

Lemma X14_linear_given_out_route_witness :
  ∃ r,
    Linear.swapGivenOut (H := parityLinearMath) Sample.linearPool
      Sample.tokM Sample.tokW (mkTokenAmount Sample.tokW 5000000000000000000)
    = Ok r
    ∧ isEqual Sample.tokM (token r) = true.
Proof.
  exists (mkTokenAmount Sample.tokM 5000000000000000000).
  split; [reflexivity|].
  destruct (X14_linear_given_out_route parityLinearMath Sample.linearPool
              Sample.tokM Sample.tokW
              (mkTokenAmount Sample.tokW 5000000000000000000)
              (mkTokenAmount Sample.tokM 5000000000000000000) eq_refl)
    as (n & tOut & _ & Heq & _).
  exact Heq.
Defined.

(* ================================================================== *)
(** * Quotes depend on the pool's two arrays only *)
(* ================================================================== *)

Section SameResult.
Context {C : Type}.

Lemma sameResult_liftR {A} (r : result A) :
  sameResult (liftR r : M C A) (liftR r).
Proof. by intros h1 h2. Qed.

Lemma sameResult_bind {A B} (m1 m2 : M C A) (f1 f2 : A → M C B) :
  sameResult m1 m2 → (∀ a, sameResult (f1 a) (f2 a)) →
  sameResult (m1 ≫= f1) (m2 ≫= f2).
Proof.
  intros Hm Hf h1 h2. rewrite !bind_run. specialize (Hm h1 h2).
  destruct (m1 h1) as [[a1|e1] h1'], (m2 h2) as [[a2|e2] h2'];
    cbn [fst] in *; try done.
  - injection Hm as ->. apply Hf.
  - by injection Hm as ->.
Qed.

Lemma sameResult_alloc {B} (c1 c2 : C) (f1 f2 : nat → M C B) :
  (∀ l1 l2, sameResult (f1 l1) (f2 l2)) →
  sameResult (allocArr c1 ≫= f1) (allocArr c2 ≫= f2).
Proof. intros Hf h1 h2. rewrite !bind_alloc_run. apply Hf. Qed.

Lemma sameResult_write {B} l1 l2 (c1 c2 : C) (f1 f2 : unit → M C B) :
  sameResult (f1 tt) (f2 tt) →
  sameResult (writeArr l1 c1 ≫= f1) (writeArr l2 c2 ≫= f2).
Proof. intros Hf h1 h2. rewrite !bind_run. apply Hf. Qed.

End SameResult.

Section StableLocal.
Context `{StableMath}.
Implicit Types h : gmap nat Stable.cell.

Lemma handBack1_same l1 l2 out :
  sameResult (Stable.handBack1 l1 out) (Stable.handBack1 l2 out).
Proof. apply sameResult_write, sameResult_liftR. Qed.

Lemma handBack2_same l1 l2 k1 k2 out :
  sameResult (Stable.handBack2 l1 k1 out) (Stable.handBack2 l2 k2 out).
Proof.
  apply sameResult_write, sameResult_write, sameResult_liftR.
Qed.

Lemma tokenOutScale18_same p tIn tOut bpt bs n i j x inv :
  sameResult (Stable.tokenOutScale18 p tIn tOut bpt bs n i j x inv)
             (Stable.tokenOutScale18 p tIn tOut bpt bs n i j x inv).
Proof.
  unfold Stable.tokenOutScale18.
  destruct (isEqual tIn bpt); [|destruct (isEqual tOut bpt)].
  - apply sameResult_alloc. intros. apply handBack1_same.
  - apply sameResult_alloc. intros. apply sameResult_write.
    apply sameResult_alloc. intros. apply handBack2_same.
  - apply sameResult_alloc. intros. apply handBack1_same.
Qed.

Lemma tokenInScale18_same p tIn tOut bpt bs n i j x inv :
  sameResult (Stable.tokenInScale18 p tIn tOut bpt bs n i j x inv)
             (Stable.tokenInScale18 p tIn tOut bpt bs n i j x inv).
Proof.
  unfold Stable.tokenInScale18.
  destruct (isEqual tIn bpt); [|destruct (isEqual tOut bpt)].
  - apply sameResult_alloc. intros. apply sameResult_write.
    apply sameResult_alloc. intros. apply handBack2_same.
  - apply sameResult_alloc. intros. apply handBack1_same.
  - apply sameResult_alloc. intros. apply handBack1_same.
Qed.

Lemma readTok_value h l :
  Stable.readTok l h
  = (match h !! l with
     | Some (Stable.TokArr ts) => Ok ts
     | _ => Err TypeError
     end, h).
Proof.
  unfold Stable.readTok. rewrite bind_run. unfold readArr.
  by destruct (h !! l) as [[| |]|].
Qed.

Ltac same_step :=
  first [ apply sameResult_liftR
        | apply sameResult_bind; [apply sameResult_liftR|intros ?]
        | apply sameResult_alloc; intros ? ?
        | apply sameResult_bind; [apply tokenOutScale18_same|intros ?]
        | apply sameResult_bind; [apply tokenInScale18_same|intros ?] ].

Lemma swapGivenIn_local h1 h2 p tokenIn tokenOut a :
  h1 !! Stable.tokens p = h2 !! Stable.tokens p →
  h1 !! Stable.tokensNoBpt p = h2 !! Stable.tokensNoBpt p →
  (Stable.swapGivenIn p tokenIn tokenOut a h1).1
  = (Stable.swapGivenIn p tokenIn tokenOut a h2).1.
Proof.
  intros Ht Hn. unfold Stable.swapGivenIn.
  rewrite !bind_run, !readTok_value, Ht.
  destruct (h2 !! Stable.tokens p) as [[|ts|]|]; try done.
  cbv zeta.
  destruct (_ || _); [done|].
  rewrite !bind_liftR_run.
  destruct (defined _) as [tIn|]; [|done].
  destruct (_ <? _); [done|].
  rewrite !bind_run, !readTok_value, Hn.
  destruct (h2 !! Stable.tokensNoBpt p) as [[|noBpt|]|]; try done.
  cbv zeta.
  match goal with
  | |- (?m h1).1 = (?m h2).1 => enough (sameResult m m) as Hs by apply Hs
  end.
  repeat same_step.
Qed.

Lemma swapGivenOut_local h1 h2 p tokenIn tokenOut a :
  h1 !! Stable.tokens p = h2 !! Stable.tokens p →
  h1 !! Stable.tokensNoBpt p = h2 !! Stable.tokensNoBpt p →
  (Stable.swapGivenOut p tokenIn tokenOut a h1).1
  = (Stable.swapGivenOut p tokenIn tokenOut a h2).1.
Proof.
  intros Ht Hn. unfold Stable.swapGivenOut.
  rewrite !bind_run, !readTok_value, Ht.
  destruct (h2 !! Stable.tokens p) as [[|ts|]|]; try done.
  cbv zeta.
  destruct (_ || _); [done|].
  rewrite !bind_liftR_run.
  destruct (defined _) as [tOut|]; [|done].
  destruct (_ <? _); [done|].
  rewrite !bind_run, !readTok_value, Hn.
  destruct (h2 !! Stable.tokensNoBpt p) as [[|noBpt|]|]; try done.
  cbv zeta.
  match goal with
  | |- (?m h1).1 = (?m h2).1 => enough (sameResult m m) as Hs by apply Hs
  end.
  repeat same_step.
Qed.

Lemma queries_local h1 h2 p tokenIn tokenOut k :
  h1 !! Stable.tokens p = h2 !! Stable.tokens p →
  (Stable.getLimitAmountSwap p tokenIn tokenOut k h1).1
  = (Stable.getLimitAmountSwap p tokenIn tokenOut k h2).1
  ∧ (Stable.getNormalizedLiquidity p tokenIn tokenOut h1).1
    = (Stable.getNormalizedLiquidity p tokenIn tokenOut h2).1.
Proof.
  intros Ht.
  unfold Stable.getLimitAmountSwap, Stable.getNormalizedLiquidity.
  rewrite !bind_run, !readTok_value, Ht.
  destruct (h2 !! Stable.tokens p) as [[|ts|]|]; try done.
  destruct (List.find (Stable.hasAddress (address tokenIn)) ts),
    (List.find (Stable.hasAddress (address tokenOut)) ts); try done.
  by destruct k.
Qed.

End StableLocal.

(** X15.  What a stable pool answers depends on the content of its two
    token arrays only.  The two swaps and the two queries give the same
    result, value or exception, from any two stores that hold the same
    [tokens] and [tokensNoBpt]; since the operations themselves change no
    array in use, a quote asked again after any number of other quotes is
    the same quote. *)
Theorem X15_quotes_repeatable :
  ∀ (SM : StableMath) (h h' : gmap nat Stable.cell) p,
    Stable.tokens p ∈ dom h → Stable.tokensNoBpt p ∈ dom h →
    preserves h h' →
    ∀ tokenIn tokenOut a k,
      (Stable.swapGivenIn p tokenIn tokenOut a h').1
      = (Stable.swapGivenIn p tokenIn tokenOut a h).1
      ∧ (Stable.swapGivenOut p tokenIn tokenOut a h').1
        = (Stable.swapGivenOut p tokenIn tokenOut a h).1
      ∧ (Stable.getLimitAmountSwap p tokenIn tokenOut k h').1
        = (Stable.getLimitAmountSwap p tokenIn tokenOut k h).1
      ∧ (Stable.getNormalizedLiquidity p tokenIn tokenOut h').1
        = (Stable.getNormalizedLiquidity p tokenIn tokenOut h).1.
Proof.
  intros SM h h' p Ht Hn Hpres tokenIn tokenOut a k.
  pose proof (Hpres _ Ht) as Ht'. pose proof (Hpres _ Hn) as Hn'.
  split; [by apply swapGivenIn_local|].
  split; [by apply swapGivenOut_local|].
  by apply queries_local.
Qed.

Lemma X15_quotes_repeatable_witness :
  (Stable.swapGivenOut (H := constantSumMath) Sample.stablePool Sample.tokA
     Sample.tokB (mkTokenAmount Sample.tokB 1000000)
     (Stable.swapGivenIn (H := constantSumMath) Sample.stablePool Sample.tokA
        Sample.tokB (mkTokenAmount Sample.tokA 50000000000000000000)
        Sample.stableStore).2).1
  = (Stable.swapGivenOut (H := constantSumMath) Sample.stablePool Sample.tokA
       Sample.tokB (mkTokenAmount Sample.tokB 1000000)
       Sample.stableStore).1.
Proof.
  refine (proj1 (proj2 (X15_quotes_repeatable constantSumMath
                          Sample.stableStore _ Sample.stablePool _ _ _
                          Sample.tokA Sample.tokB
                          (mkTokenAmount Sample.tokB 1000000) GivenOut))).
  - apply elem_of_dom. eexists. reflexivity.
  - apply elem_of_dom. eexists. reflexivity.
  - destruct (Stable.swapGivenIn Sample.stablePool Sample.tokA Sample.tokB
                (mkTokenAmount Sample.tokA 50000000000000000000)
                Sample.stableStore) as [r h'] eqn:E.
    exact (keeps_frame _ _ _ _ _ (swapGivenIn_keeps _ _ _ _ _) E).
Defined.

(* ================================================================== *)
(** * The swap fee taken off and put back *)
(* ================================================================== *)

Lemma subtractSwapFeeAmount_run p a :
  validDecimals (token a) → 0 ≤ amount a → 0 ≤ Stable.swapFee p ≤ WAD →
  Stable.subtractSwapFeeAmount p a
  = Ok (mkTokenAmount (token a)
          (amount a - MathSol.mulUpFixed (amount a) (Stable.swapFee p)))
  ∧ 0 ≤ MathSol.mulUpFixed (amount a) (Stable.swapFee p) ≤ amount a.
Proof.
  intros Hd Ha Hf.
  pose proof (mulUpFixed_ceil (amount a) (Stable.swapFee p) Ha
                ltac:(lia)) as Hc.
  pose proof WAD_pos.
  assert (0 ≤ MathSol.mulUpFixed (amount a) (Stable.swapFee p) ≤ amount a)
    as Hm by nia.
  split; [|done].
  unfold Stable.subtractSwapFeeAmount.
  rewrite mulUpFixed_amount by (done || lia). cbn [mbind result_bind].
  by rewrite sub_amount.
Qed.

Lemma addSwapFeeAmount_run p a :
  validDecimals (token a) → 0 ≤ amount a → 0 ≤ Stable.swapFee p < WAD →
  ∃ r, Stable.addSwapFeeAmount p a = Ok (mkTokenAmount (token a) r)
       ∧ (r - 1) * (WAD - Stable.swapFee p) < amount a * WAD
           ≤ r * (WAD - Stable.swapFee p).
Proof.
  intros Hd Ha Hf.
  assert (0 < WAD - Stable.swapFee p) as Hx by lia.
  destruct (MathSol.divUpFixed (amount a) (WAD - Stable.swapFee p))
    as [r|e] eqn:Hr.
  - exists r. split; [|by apply divUpFixed_ceil].
    unfold Stable.addSwapFeeAmount, MathSol.complementFixed.
    destruct (Z.ltb_spec (Stable.swapFee p) WAD); [|lia].
    by apply divUpFixed_amount.
  - unfold MathSol.divUpFixed in Hr.
    destruct (WAD - Stable.swapFee p =? 0) eqn:E0; [lia|].
    by destruct (amount a =? 0).
Qed.

(** X16.  The two fee helpers of the stable pool, for a fee below 100%.
    Both return.  Taking the fee off an amount to which it was added gives
    the amount back exactly.  Adding the fee to an amount from which it was
    taken off never gives more than the amount, and for a fee of at most
    50% it gives the amount or one raw unit less. *)
Theorem X16_fee_round_trip :
  ∀ p a,
    validDecimals (token a) → 0 ≤ amount a → 0 ≤ Stable.swapFee p < WAD →
    (∃ t, Stable.addSwapFeeAmount p a = Ok t
          ∧ amount a ≤ amount t
          ∧ Stable.subtractSwapFeeAmount p t = Ok a)
    ∧ (∃ s t, Stable.subtractSwapFeeAmount p a = Ok s
              ∧ Stable.addSwapFeeAmount p s = Ok t
              ∧ token t = token a
              ∧ 0 ≤ amount s ≤ amount a
              ∧ amount t ≤ amount a
              ∧ (2 * Stable.swapFee p ≤ WAD → amount a - 1 ≤ amount t)).
Proof.
  intros p a Hd Ha Hf. pose proof WAD_pos as HW. split.
  - destruct (addSwapFeeAmount_run p a Hd Ha Hf) as (r & Hadd & Hr).
    assert (0 ≤ r) as Hr0 by nia.
    exists (mkTokenAmount (token a) r). split; [done|].
    split; [cbn [amount]; nia|].
    destruct (subtractSwapFeeAmount_run p (mkTokenAmount (token a) r))
      as [-> Hm]; [done|done|lia|].
    cbn [token amount] in *.
    pose proof (mulUpFixed_ceil r (Stable.swapFee p) Hr0 ltac:(lia)) as Hc.
    destruct a as [tk am]. cbn [token amount] in *.
    f_equal. f_equal. nia.
  - destruct (subtractSwapFeeAmount_run p a Hd Ha ltac:(lia)) as [Hsub Hm].
    pose proof (mulUpFixed_ceil (amount a) (Stable.swapFee p) Ha
                  ltac:(lia)) as Hc.
    set (s := mkTokenAmount (token a)
                (amount a - MathSol.mulUpFixed (amount a) (Stable.swapFee p)))
      in *.
    destruct (addSwapFeeAmount_run p s) as (r & Hadd & Hr);
      [done|cbn [s amount]; lia|done|].
    exists s, (mkTokenAmount (token a) r).
    split; [done|]. split; [done|]. split; [done|].
    cbn [s amount] in *.
    split; [lia|]. split; [nia|]. intros Hhalf. nia.
Qed.

Lemma X16_fee_round_trip_witness :
  ∃ t, Stable.addSwapFeeAmount Sample.stablePool
         (mkTokenAmount Sample.tokA 1) = Ok t
       ∧ Stable.subtractSwapFeeAmount Sample.stablePool t
         = Ok (mkTokenAmount Sample.tokA 1).
Proof.
  destruct (X16_fee_round_trip Sample.stablePool
              (mkTokenAmount Sample.tokA 1)) as [(t & Hadd & _ & Hsub) _].
  - unfold validDecimals. simpl. lia.
  - simpl. lia.
  - vm_compute. split; [discriminate|reflexivity].
  - exists t. split; [exact Hadd|exact Hsub].
Defined.

(* ================================================================== *)
(** * Removing liquidity: the minimum amounts without the BPT *)
(* ================================================================== *)

Lemma slice_prefix {A} (l : list A) (i : nat) :
  (i ≤ length l)%nat →
  RemoveLiquidityComposableStable.slice l 0 (Some (Z.of_nat i)) = take i l.
Proof.
  intros Hi. unfold RemoveLiquidityComposableStable.slice. cbv zeta.
  destruct (Z.ltb_spec (Z.of_nat i) 0); [lia|].
  change (0 <? 0) with false. cbv iota.
  rewrite (Z.min_l 0) by lia. rewrite Z.min_l by lia.
  change (Z.to_nat 0) with 0%nat. rewrite drop_0.
  by rewrite Z.sub_0_r, Nat2Z.id.
Qed.

Lemma slice_suffix {A} (l : list A) (i : nat) :
  RemoveLiquidityComposableStable.slice l (Z.of_nat i) None = drop i l.
Proof.
  unfold RemoveLiquidityComposableStable.slice. cbv zeta.
  destruct (Z.ltb_spec (Z.of_nat i) 0); [lia|].
  destruct (decide (i ≤ length l)%nat) as [Hle|Hgt].
  - rewrite Z.min_l by lia. rewrite Nat2Z.id.
    rewrite take_ge; [done|]. rewrite length_drop. lia.
  - rewrite Z.min_r by lia. rewrite Nat2Z.id.
    rewrite (drop_ge l (length l)) by lia.
    rewrite (drop_ge l i) by lia. by rewrite take_nil.
Qed.

(** X17.  The minimum amounts without the BPT entry, as [query] and
    [buildCall] of the composable-stable exit build them from two slices.
    For an index inside the list the entry at the index is left out: the
    same list as the [splice] of the stable pool constructor gives.  For the
    index -1, which [findIndex] returns when no token of the pool state
    carries the pool's address, nothing is left out: the result is the list
    without its last entry followed by the whole list, where the
    constructor's [splice] drops the last entry.  An index at or past the
    end gives the list unchanged. *)
Theorem X17_min_amounts_without_bpt :
  ∀ (A : Type) (minAmountsOut : list A) (bptIndex : Z),
    let len := Z.of_nat (length minAmountsOut) in
    let out :=
      RemoveLiquidityComposableStable.minAmountsOutWithoutBpt
        minAmountsOut bptIndex in
    (0 ≤ bptIndex < len →
     out = splice1 bptIndex minAmountsOut
     ∧ out = take (Z.to_nat bptIndex) minAmountsOut
             ++ drop (S (Z.to_nat bptIndex)) minAmountsOut
     ∧ Z.of_nat (length out) = len - 1)
    ∧ (bptIndex = -1 →
       out = take (length minAmountsOut - 1) minAmountsOut ++ minAmountsOut
       ∧ splice1 bptIndex minAmountsOut
         = take (length minAmountsOut - 1) minAmountsOut
       ∧ (0 < len → Z.of_nat (length out) = 2 * len - 1))
    ∧ (len ≤ bptIndex → out = minAmountsOut).
Proof.
  intros A l i len out. subst len out.
  unfold RemoveLiquidityComposableStable.minAmountsOutWithoutBpt.
  split; [|split].
  - intros Hi.
    destruct (Z_of_nat_complete i) as [n ->]; [lia|].
    replace (Z.of_nat n + 1) with (Z.of_nat (S n)) by lia.
    rewrite slice_suffix, slice_prefix, Nat2Z.id by lia.
    split; [by rewrite splice1_in_range by lia|]. split; [done|].
    rewrite length_app, length_take, length_drop. lia.
  - intros ->. change (-1 + 1) with (Z.of_nat 0).
    rewrite slice_suffix, drop_0.
    assert (RemoveLiquidityComposableStable.slice l 0 (Some (-1))
            = take (length l - 1) l) as ->.
    { unfold RemoveLiquidityComposableStable.slice. cbv zeta.
      change (-1 <? 0) with true. change (0 <? 0) with false. cbv iota.
      rewrite (Z.min_l 0) by lia. change (Z.to_nat 0) with 0%nat.
      rewrite drop_0, Z.sub_0_r. f_equal. lia. }
    split; [done|]. split; [apply splice1_minus_one|].
    intros Hlen. rewrite length_app, length_take. lia.
  - intros Hi.
    destruct (Z_of_nat_complete i) as [n ->]; [lia|].
    replace (Z.of_nat n + 1) with (Z.of_nat (S n)) by lia.
    rewrite slice_suffix, drop_ge by lia.
    rewrite app_nil_r.
    unfold RemoveLiquidityComposableStable.slice. cbv zeta.
    destruct (Z.ltb_spec (Z.of_nat n) 0); [lia|].
    change (0 <? 0) with false. cbv iota.
    rewrite (Z.min_l 0) by lia. rewrite Z.min_r by lia.
    change (Z.to_nat 0) with 0%nat.
    rewrite drop_0, Z.sub_0_r, Nat2Z.id. by rewrite take_ge.
Qed.

Lemma X17_min_amounts_without_bpt_witness :
  RemoveLiquidityComposableStable.minAmountsOutWithoutBpt [10; 20; 30] 1
    = [10; 30]
  ∧ RemoveLiquidityComposableStable.minAmountsOutWithoutBpt [10; 20; 30] (-1)
    = [10; 20; 10; 20; 30].
Proof.
  split.
  - destruct (X17_min_amounts_without_bpt Z [10; 20; 30] 1)
      as [Hin _].
    destruct Hin as (_ & -> & _); [simpl; lia|reflexivity].
  - destruct (X17_min_amounts_without_bpt Z [10; 20; 30] (-1))
      as (_ & Hminus & _).
    destruct (Hminus eq_refl) as (-> & _). reflexivity.
Defined.

(* ================================================================== *)
(** * Rate-scaled balances *)
(* ================================================================== *)

(** X18.  The 18-decimal balance of a [StablePoolToken] and of a
    [WrappedToken].  Both classes keep the token, the amount and the rate
    they are given and compute the same [scale18]: the 18-decimal amount
    times the rate, rounded down ([mulDownFixed]); at the rate of one it is
    the plain 18-decimal amount, and it does not decrease when the amount or
    the rate grows. *)
Theorem X18_rate_scaled_balance :
  ∀ t amt rate s,
    Stable.newStablePoolToken t amt rate = Ok s →
    Stable.spt_token s = t ∧ Stable.spt_amount s = amt
    ∧ Stable.spt_rate s = rate
    ∧ Linear.newWrappedToken t amt rate
      = Ok (Linear.mkWrappedToken t amt rate (Stable.spt_scale18 s))
    ∧ Stable.spt_scale18 s
      = MathSol.mulDownFixed
          (TokenAmount.scale18 (mkTokenAmount t amt)) rate
    ∧ (rate = WAD →
       Stable.spt_scale18 s = TokenAmount.scale18 (mkTokenAmount t amt))
    ∧ (validDecimals t → 0 ≤ rate →
       Stable.spt_scale18 s * WAD ≤ amt * TokenAmount.scalar t * rate
         < (Stable.spt_scale18 s + 1) * WAD)
    ∧ (∀ amt' rate' s',
         validDecimals t → 0 ≤ rate → amt ≤ amt' → rate ≤ rate' →
         Stable.newStablePoolToken t amt' rate' = Ok s' →
         Stable.spt_scale18 s ≤ Stable.spt_scale18 s').
Proof.
  intros t amt rate s.
  unfold Stable.newStablePoolToken, Linear.newWrappedToken, TokenAmount.new.
  destruct (18 <? decimals t) eqn:Ed; [done|].
  destruct (Z.ltb_spec amt 0) as [|Hamt]; [done|].
  cbn [mbind result_bind token amount]. intros [= <-].
  cbn [Stable.spt_token Stable.spt_amount Stable.spt_rate
       Stable.spt_scale18].
  pose proof WAD_pos as HW.
  do 5 (split; [done|]).
  split.
  { intros ->. unfold TokenAmount.scale18. cbn [amount token].
    apply Z.quot_mul. lia. }
  split.
  { intros Hd Hr. pose proof (scalar_pos t Hd).
    apply quot_spec; [nia|done]. }
  intros amt' rate' s' Hd Hr Hle Hle'.
  destruct (Z.ltb_spec amt' 0); [done|].
  cbn [mbind result_bind token amount]. intros [= <-].
  cbn [Stable.spt_scale18].
  pose proof (scalar_pos t Hd).
  apply Z.quot_le_mono; [done|].
  apply Z.mul_le_mono_nonneg; [nia|nia|done|done].
Qed.

Lemma X18_rate_scaled_balance_witness :
  Linear.newWrappedToken Sample.tokW 50000000000000000000 1050000000000000000
  = Ok (Linear.mkWrappedToken Sample.tokW 50000000000000000000
          1050000000000000000 52500000000000000000).
Proof.
  exact (proj1 (proj2 (proj2 (proj2
           (X18_rate_scaled_balance Sample.tokW 50000000000000000000
              1050000000000000000
              (Stable.mkStablePoolToken Sample.tokW 50000000000000000000
                 1050000000000000000 52500000000000000000) eq_refl))))).
Defined.

(* ================================================================== *)
(** * The stable pool: the token of a quote *)
(* ================================================================== *)

Lemma new_inv t raw r :
  TokenAmount.new t raw = Ok r → token r = t ∧ amount r = raw ∧ 0 ≤ raw.
Proof.
  unfold TokenAmount.new. destruct (18 <? _); [done|].
  destruct (Z.ltb_spec raw 0); [done|]. by intros [= <-].
Qed.

Lemma fromScale18Amount_inv t n up r :
  TokenAmount.fromScale18Amount t n up = Ok r → token r = t ∧ 0 ≤ amount r.
Proof.
  unfold TokenAmount.fromScale18Amount.
  destruct (if up then _ else _) as [raw|]; cbn [mbind result_bind];
    [|done].
  intros (? & -> & ?)%new_inv. done.
Qed.

Lemma divDownFixed_inv a x r :
  TokenAmount.divDownFixed a x = Ok r → token r = token a ∧ 0 ≤ amount r.
Proof.
  unfold TokenAmount.divDownFixed.
  destruct (MathSol.divDownFixed _ _); cbn [mbind result_bind]; [|done].
  apply fromScale18Amount_inv.
Qed.

Lemma divUpFixed_inv a x r :
  TokenAmount.divUpFixed a x = Ok r → token r = token a ∧ 0 ≤ amount r.
Proof.
  unfold TokenAmount.divUpFixed.
  destruct (MathSol.divUpFixed _ _); cbn [mbind result_bind]; [|done].
  apply fromScale18Amount_inv.
Qed.

Lemma keeps_liftR_eq {C A} (h0 : gmap nat C) (r : result A) :
  keeps h0 (liftR r : M C A) (λ a, r = Ok a).
Proof. intros h r' h' Hp [= <- <-]. split; [done|]. by intros a ->. Qed.

Section StableQuoteToken.
Context `{StableMath}.

Lemma swapGivenIn_token h0 p tokenIn tokenOut a :
  keeps h0 (Stable.swapGivenIn p tokenIn tokenOut a)
    (λ r, token r = tokenOut ∧ 0 ≤ amount r).
Proof.
  unfold Stable.swapGivenIn. cbv zeta.
  eapply keeps_bind; [apply readTok_keeps|intros ts _].
  destruct (_ || _); [keeps_go|].
  eapply keeps_bind; [keeps_any|intros tI _].
  destruct (_ <? _); [keeps_go|].
  eapply keeps_bind; [apply readTok_keeps|intros noBpt _].
  do 6 (eapply keeps_bind; [keeps_any|intros ? _]).
  eapply keeps_bind; [apply tokenOutScale18_keeps|intros out18 _].
  eapply keeps_bind; [apply keeps_liftR_eq|intros amountOut Hout].
  eapply keeps_bind; [keeps_any|intros tO _].
  eapply keeps_weaken; [apply keeps_liftR_eq|].
  intros r Hr. cbv beta in Hr.
  apply divDownFixed_inv in Hr as [-> ?].
  apply fromScale18Amount_inv in Hout as [-> _]. done.
Qed.

Lemma swapGivenOut_token h0 p tokenIn tokenOut a :
  keeps h0 (Stable.swapGivenOut p tokenIn tokenOut a)
    (λ r, token r = tokenIn ∧ 0 ≤ amount r).
Proof.
  unfold Stable.swapGivenOut. cbv zeta.
  eapply keeps_bind; [apply readTok_keeps|intros ts _].
  destruct (_ || _); [keeps_go|].
  eapply keeps_bind; [keeps_any|intros tO _].
  destruct (_ <? _); [keeps_go|].
  eapply keeps_bind; [apply readTok_keeps|intros noBpt _].
  do 5 (eapply keeps_bind; [keeps_any|intros ? _]).
  eapply keeps_bind; [apply tokenInScale18_keeps|intros in18 _].
  eapply keeps_bind; [apply keeps_liftR_eq|intros amountIn Hin].
  eapply keeps_bind; [apply keeps_liftR_eq|intros withFee Hfee].
  eapply keeps_bind; [keeps_any|intros tI _].
  eapply keeps_weaken; [apply keeps_liftR_eq|].
  intros r Hr. cbv beta in Hr.
  apply divDownFixed_inv in Hr as [-> ?].
  unfold Stable.addSwapFeeAmount in Hfee.
  apply divUpFixed_inv in Hfee as [-> _].
  apply fromScale18Amount_inv in Hin as [-> _]. done.
Qed.

End StableQuoteToken.

(** X19.  The amount a stable pool returns is an amount of the token the
    caller passed, not of a token held by the pool: [swapGivenIn] returns an
    amount of [tokenOut], [swapGivenOut] an amount of [tokenIn], and neither
    returns a negative amount. *)
Theorem X19_stable_quote_token :
  ∀ (SM : StableMath) (h : gmap nat Stable.cell) p tokenIn tokenOut a r,
    ((Stable.swapGivenIn p tokenIn tokenOut a h).1 = Ok r →
     token r = tokenOut ∧ 0 ≤ amount r)
    ∧ ((Stable.swapGivenOut p tokenIn tokenOut a h).1 = Ok r →
       token r = tokenIn ∧ 0 ≤ amount r).
Proof.
  intros SM h p tokenIn tokenOut a r. split.
  - destruct (Stable.swapGivenIn p tokenIn tokenOut a h) as [r' h'] eqn:E.
    cbn [fst]. intros ->.
    destruct (swapGivenIn_token h p tokenIn tokenOut a h (Ok r) h'
                (preserves_refl h) E) as [_ HQ].
    by apply HQ.
  - destruct (Stable.swapGivenOut p tokenIn tokenOut a h) as [r' h'] eqn:E.
    cbn [fst]. intros ->.
    destruct (swapGivenOut_token h p tokenIn tokenOut a h (Ok r) h'
                (preserves_refl h) E) as [_ HQ].
    by apply HQ.
Qed.

Lemma X19_stable_quote_token_witness :
  ∃ r,
    (Stable.swapGivenIn (H := constantSumMath) Sample.stablePool Sample.tokA
       Sample.tokB (mkTokenAmount Sample.tokA 50000000000000000000)
       Sample.stableStore).1 = Ok r
    ∧ token r = Sample.tokB.
Proof.
  destruct (Stable.swapGivenIn (H := constantSumMath) Sample.stablePool
              Sample.tokA Sample.tokB
              (mkTokenAmount Sample.tokA 50000000000000000000)
              Sample.stableStore).1 as [r|e] eqn:E.
  - exists r. split; [reflexivity|].
    exact (proj1 (proj1 (X19_stable_quote_token constantSumMath
                           Sample.stableStore Sample.stablePool Sample.tokA
                           Sample.tokB
                           (mkTokenAmount Sample.tokA 50000000000000000000)
                           r) E)).
  - vm_compute in E. discriminate E.
Defined.

(* ================================================================== *)
(** * The linear pool: the order of the checks *)
(* ================================================================== *)

(** X20.  The order in which a linear pool rejects a swap.  [swapGivenIn]
    routes first: an input token that equals none of the pool's three tokens
    (chain and address) is 'Pool does not contain the tokens provided',
    whatever the output token and the amount.  [swapGivenOut] looks at the
    output token first: an address that is not listed is a TypeError, an
    amount above the listed balance is 'Swap amount exceeds the pool limit',
    both whatever the input token; only then is an unknown input token
    reported. *)
Theorem X20_linear_check_order :
  ∀ (LM : LinearMath) p tokenIn tokenOut a,
    let unknownIn :=
      isEqual tokenIn (token (Linear.mainToken p)) = false
      ∧ isEqual tokenIn (Linear.wt_token (Linear.wrappedToken p)) = false
      ∧ isEqual tokenIn (Linear.bpt_token (Linear.bptToken p)) = false in
    let tOutIndex :=
      findIndex (Linear.hasAddress (address tokenOut)) (Linear.tokens p) in
    (unknownIn →
     Linear.swapGivenIn p tokenIn tokenOut a = Err PoolDoesNotContainTokens)
    ∧ (tOutIndex < 0 →
       Linear.swapGivenOut p tokenIn tokenOut a = Err TypeError)
    ∧ (∀ tOut, at_index (Linear.tokens p) tOutIndex = Some tOut →
         (amount tOut < amount a →
          Linear.swapGivenOut p tokenIn tokenOut a = Err ExceedsPoolLimit)
         ∧ (amount a ≤ amount tOut → unknownIn →
            Linear.swapGivenOut p tokenIn tokenOut a
            = Err PoolDoesNotContainTokens)).
Proof.
  intros LM p tokenIn tokenOut a unknownIn tOutIndex.
  subst unknownIn tOutIndex.
  split; [|split].
  - intros (Em & Ew & Eb). unfold Linear.swapGivenIn.
    by rewrite Em, Ew, Eb.
  - intros Hneg. unfold Linear.swapGivenOut, at_index. cbv zeta.
    by destruct (Z.ltb_spec
                   (findIndex (Linear.hasAddress (address tokenOut))
                      (Linear.tokens p)) 0); [|lia].
  - intros tOut HtOut. unfold Linear.swapGivenOut. cbv zeta.
    rewrite HtOut. cbn [defined mbind result_bind]. split.
    + intros Hlt. by destruct (Z.ltb_spec (amount tOut) (amount a)); [|lia].
    + intros Hle (Em & Ew & Eb).
      destruct (Z.ltb_spec (amount tOut) (amount a)); [lia|].
      by rewrite Em, Ew, Eb.
Qed.

Lemma X20_linear_check_order_witness :
  Linear.swapGivenIn (H := parityLinearMath) Sample.linearPool Sample.tokX
    Sample.tokM (mkTokenAmount Sample.tokX 1)
  = Err PoolDoesNotContainTokens
  ∧ Linear.swapGivenOut (H := parityLinearMath) Sample.linearPool Sample.tokX
      Sample.tokM (mkTokenAmount Sample.tokM 200000000000000000000)
    = Err ExceedsPoolLimit.
Proof.
  destruct (X20_linear_check_order parityLinearMath Sample.linearPool
              Sample.tokX Sample.tokM (mkTokenAmount Sample.tokX 1))
    as (Hin & _ & _).
  destruct (X20_linear_check_order parityLinearMath Sample.linearPool
              Sample.tokX Sample.tokM
              (mkTokenAmount Sample.tokM 200000000000000000000))
    as (_ & _ & Hout).
  split.
  - apply Hin. repeat split; reflexivity.
  - apply (Hout (mkTokenAmount Sample.tokM 100000000000000000000) eq_refl).
    simpl. lia.
Defined.

(* ================================================================== *)
(** * The stable pool: the formula a swap runs *)
(* ================================================================== *)

Lemma assign_at_zeros (len : nat) (i x : Z) :
  let filled := assign_at (replicate len 0) i x in
  (i < Z.of_nat len → length filled = len)
  ∧ (0 ≤ i < Z.of_nat len →
     filled !! Z.to_nat i = Some x
     ∧ ∀ k, (k < len)%nat → k ≠ Z.to_nat i → filled !! k = Some 0)
  ∧ (i < 0 → filled = replicate len 0).
Proof.
  cbv zeta. unfold assign_at.
  destruct (Z.ltb_spec i 0) as [Hneg|Hpos].
  - split; [intros _; apply length_replicate|]. split; [lia|done].
  - split; [intros _; by rewrite length_insert, length_replicate|].
    split; [|lia].
    intros Hi. split.
    + apply list_lookup_insert_eq. rewrite length_replicate. lia.
    + intros k Hk Hne. rewrite list_lookup_insert_ne by done.
      by apply lookup_replicate_2.
Qed.

Section StableFormula.
Context `{StableMath}.
Implicit Types h : gmap nat Stable.cell.

Lemma tokenOutScale18_value h p tokenIn tokenOut bpt bs len i j x inv :
  (Stable.tokenOutScale18 p tokenIn tokenOut bpt bs len i j x inv h).1
  = if isEqual tokenIn bpt then
      (_calcTokenOutGivenExactBptIn (Stable.amp p) bs j x
         (Stable.totalShares p) inv (Stable.swapFee p)).1
    else if isEqual tokenOut bpt then
      (_calcBptOutGivenExactTokensIn (Stable.amp p) bs
         (assign_at (replicate len 0) i x)
         (Stable.totalShares p) inv (Stable.swapFee p)).1
    else (_calcOutGivenIn (Stable.amp p) bs i j x inv).1.
Proof.
  unfold Stable.tokenOutScale18.
  destruct (isEqual tokenIn bpt); [|destruct (isEqual tokenOut bpt)].
  - rewrite bind_alloc_run. unfold Stable.handBack1. by rewrite bind_run.
  - rewrite bind_alloc_run, bind_run. unfold writeArr at 1.
    rewrite bind_alloc_run. unfold Stable.handBack2. by rewrite !bind_run.
  - rewrite bind_alloc_run. unfold Stable.handBack1. by rewrite bind_run.
Qed.

Lemma tokenInScale18_value h p tokenIn tokenOut bpt bs len i j x inv :
  (Stable.tokenInScale18 p tokenIn tokenOut bpt bs len i j x inv h).1
  = if isEqual tokenIn bpt then
      (_calcBptInGivenExactTokensOut (Stable.amp p) bs
         (assign_at (replicate len 0) j x)
         (Stable.totalShares p) inv (Stable.swapFee p)).1
    else if isEqual tokenOut bpt then
      (_calcTokenInGivenExactBptOut (Stable.amp p) bs i x
         (Stable.totalShares p) inv (Stable.swapFee p)).1
    else (_calcInGivenOut (Stable.amp p) bs i j x inv).1.
Proof.
  unfold Stable.tokenInScale18.
  destruct (isEqual tokenIn bpt); [|destruct (isEqual tokenOut bpt)].
  - rewrite bind_alloc_run, bind_run. unfold writeArr at 1.
    rewrite bind_alloc_run. unfold Stable.handBack2. by rewrite !bind_run.
  - rewrite bind_alloc_run. unfold Stable.handBack1. by rewrite bind_run.
  - rewrite bind_alloc_run. unfold Stable.handBack1. by rewrite bind_run.
Qed.

End StableFormula.

Lemma scale18s_length l bs :
  Stable.scale18s l = Ok bs → length bs = length l.
Proof.
  unfold Stable.scale18s. intros Hbs%mapM_Ok_Forall2.
  symmetry. by eapply Forall2_length.
Qed.

(** X21.  Which formula a stable swap runs, and on what.  For member tokens
    of a pool whose token list holds its BPT, once the guard on the amount is
    passed and the fee, the rate and the invariant are computed, the outcome
    of [swapGivenIn] is the outcome of one formula, brought back to the
    decimals of [tokenOut] rounded down and divided by its rate, and the
    outcome of [swapGivenOut] is the outcome of one formula, brought back to
    the decimals of [tokenIn] rounded up, with the fee added and divided by
    the rate.  The input token is tested against the BPT first, then the
    output token, so a swap from the BPT to the BPT runs the exit formula.
    The balances are the [scale18] of [tokensNoBpt], one per token.  A join
    ([tokenOut] is the BPT) and an exit by exact amounts out ([swapGivenOut]
    with the BPT as [tokenIn]) hand the formula an amounts array of that
    length, zero everywhere but at the index the swapped token has in
    [tokensNoBpt], where it is the 18-decimal amount; when the token is not
    in [tokensNoBpt] that index is -1, the assignment sets no element and
    the array is all zeros. *)
Theorem X21_stable_formula_choice :
  ∀ (SM : StableMath) (h : gmap nat Stable.cell) p ts noBpt
    tokenIn tokenOut a tIn tOut bpt,
    h !! Stable.tokens p = Some (Stable.TokArr ts) →
    h !! Stable.tokensNoBpt p = Some (Stable.TokArr noBpt) →
    List.find (Stable.hasAddress (address tokenIn)) ts = Some tIn →
    List.find (Stable.hasAddress (address tokenOut)) ts = Some tOut →
    at_index ts (Stable.bptIndex p) = Some bpt →
    let bptToken := Stable.pt_token bpt in
    let i := findIndex (Stable.hasAddress (address tokenIn)) noBpt in
    let j := findIndex (Stable.hasAddress (address tokenOut)) noBpt in
    let len := length noBpt in
    (∀ afee arate bs inv,
       amount a ≤ Stable.pt_amount tIn →
       Stable.subtractSwapFeeAmount p a = Ok afee →
       TokenAmount.mulDownFixed afee (Stable.pt_rate tIn) = Ok arate →
       Stable.scale18s noBpt = Ok bs →
       Stable._calculateInvariant (Stable.amp p) bs = Ok inv →
       let x := TokenAmount.scale18 arate in
       let amountsIn := assign_at (replicate len 0) i x in
       (Stable.swapGivenIn p tokenIn tokenOut a h).1
       = (out18 ← (if isEqual tokenIn bptToken then
                     (_calcTokenOutGivenExactBptIn (Stable.amp p) bs j x
                        (Stable.totalShares p) inv (Stable.swapFee p)).1
                   else if isEqual tokenOut bptToken then
                     (_calcBptOutGivenExactTokensIn (Stable.amp p) bs
                        amountsIn (Stable.totalShares p) inv
                        (Stable.swapFee p)).1
                   else (_calcOutGivenIn (Stable.amp p) bs i j x inv).1);
          amountOut ← TokenAmount.fromScale18Amount tokenOut out18 false;
          TokenAmount.divDownFixed amountOut (Stable.pt_rate tOut))
       ∧ length bs = len
       ∧ length amountsIn = len
       ∧ (0 ≤ i →
          amountsIn !! Z.to_nat i = Some x
          ∧ ∀ k, (k < len)%nat → k ≠ Z.to_nat i → amountsIn !! k = Some 0)
       ∧ (i < 0 → amountsIn = replicate len 0))
    ∧ (∀ arate bs inv,
         amount a ≤ Stable.pt_amount tOut →
         TokenAmount.mulDownFixed a (Stable.pt_rate tOut) = Ok arate →
         Stable.scale18s noBpt = Ok bs →
         Stable._calculateInvariant (Stable.amp p) bs = Ok inv →
         let x := TokenAmount.scale18 arate in
         let amountsOut := assign_at (replicate len 0) j x in
         (Stable.swapGivenOut p tokenIn tokenOut a h).1
         = (in18 ← (if isEqual tokenIn bptToken then
                      (_calcBptInGivenExactTokensOut (Stable.amp p) bs
                         amountsOut (Stable.totalShares p) inv
                         (Stable.swapFee p)).1
                    else if isEqual tokenOut bptToken then
                      (_calcTokenInGivenExactBptOut (Stable.amp p) bs i x
                         (Stable.totalShares p) inv (Stable.swapFee p)).1
                    else (_calcInGivenOut (Stable.amp p) bs i j x inv).1);
            amountIn ← TokenAmount.fromScale18Amount tokenIn in18 true;
            amountInWithFee ← Stable.addSwapFeeAmount p amountIn;
            TokenAmount.divDownFixed amountInWithFee (Stable.pt_rate tIn))
         ∧ length bs = len
         ∧ length amountsOut = len
         ∧ (0 ≤ j →
            amountsOut !! Z.to_nat j = Some x
            ∧ ∀ k, (k < len)%nat → k ≠ Z.to_nat j →
                   amountsOut !! k = Some 0)
         ∧ (j < 0 → amountsOut = replicate len 0)).
Proof.
  intros SM h p ts noBpt tokenIn tokenOut a tIn tOut bpt Hts Hn Hin Hout
    Hbpt bptToken i j len.
  apply find_Some_findIndex in Hin as [Hi0 Hiat].
  apply find_Some_findIndex in Hout as [Ho0 Hoat].
  assert ((findIndex (Stable.hasAddress (address tokenIn)) ts <? 0)
          || (findIndex (Stable.hasAddress (address tokenOut)) ts <? 0)
          = false) as Hguard.
  { apply orb_false_iff. split; apply Z.ltb_ge; lia. }
  pose proof (findIndex_range (Stable.hasAddress (address tokenIn)) noBpt)
    as Hi. fold i len in Hi.
  pose proof (findIndex_range (Stable.hasAddress (address tokenOut)) noBpt)
    as Hj. fold j len in Hj.
  split.
  - intros afee arate bs inv Hle Hfee Hrate Hbs Hinv x amountsIn.
    destruct (assign_at_zeros len i x) as (Hlen & Hset & Hzero).
    fold amountsIn in Hlen, Hset, Hzero.
    split; [|split; [by apply scale18s_length|]].
    2: { split; [apply Hlen; lia|]. split; [intros; apply Hset; lia|done]. }
    unfold Stable.swapGivenIn.
    rewrite bind_run, (readTok_run _ _ _ Hts). cbv zeta.
    rewrite Hguard, bind_liftR_run, Hiat. cbn [defined].
    destruct (Z.ltb_spec (Stable.pt_amount tIn) (amount a)); [lia|].
    rewrite bind_run, (readTok_run _ _ _ Hn). cbv zeta.
    rewrite bind_liftR_run, Hfee, bind_liftR_run, Hrate.
    rewrite bind_liftR_run, Hbs, bind_alloc_run.
    rewrite bind_liftR_run, Hinv, bind_liftR_run, Hbpt. cbn [defined].
    rewrite bind_run.
    match goal with
    | |- context [Stable.tokenOutScale18 ?p ?a1 ?a2 ?a3 ?a4 ?a5 ?a6 ?a7 ?a8
                    ?a9 ?hh] =>
        pose proof (tokenOutScale18_value hh p a1 a2 a3 a4 a5 a6 a7 a8 a9)
          as Hv;
        destruct (Stable.tokenOutScale18 p a1 a2 a3 a4 a5 a6 a7 a8 a9 hh)
          as [r h''] eqn:E
    end.
    cbn [fst] in Hv. fold i j len x bptToken in Hv. fold amountsIn in Hv.
    rewrite <- Hv.
    destruct r as [out18|e]; cbn [mbind result_bind]; [|done].
    rewrite bind_liftR_run.
    destruct (TokenAmount.fromScale18Amount tokenOut out18 false)
      as [amountOut|e]; cbn [mbind result_bind]; [|done].
    by rewrite bind_liftR_run, Hoat.
  - intros arate bs inv Hle Hrate Hbs Hinv x amountsOut.
    destruct (assign_at_zeros len j x) as (Hlen & Hset & Hzero).
    fold amountsOut in Hlen, Hset, Hzero.
    split; [|split; [by apply scale18s_length|]].
    2: { split; [apply Hlen; lia|]. split; [intros; apply Hset; lia|done]. }
    unfold Stable.swapGivenOut.
    rewrite bind_run, (readTok_run _ _ _ Hts). cbv zeta.
    rewrite Hguard, bind_liftR_run, Hoat. cbn [defined].
    destruct (Z.ltb_spec (Stable.pt_amount tOut) (amount a)); [lia|].
    rewrite bind_run, (readTok_run _ _ _ Hn). cbv zeta.
    rewrite bind_liftR_run, Hrate.
    rewrite bind_liftR_run, Hbs, bind_alloc_run.
    rewrite bind_liftR_run, Hinv, bind_liftR_run, Hbpt. cbn [defined].
    rewrite bind_run.
    match goal with
    | |- context [Stable.tokenInScale18 ?p ?a1 ?a2 ?a3 ?a4 ?a5 ?a6 ?a7 ?a8
                    ?a9 ?hh] =>
        pose proof (tokenInScale18_value hh p a1 a2 a3 a4 a5 a6 a7 a8 a9)
          as Hv;
        destruct (Stable.tokenInScale18 p a1 a2 a3 a4 a5 a6 a7 a8 a9 hh)
          as [r h''] eqn:E
    end.
    cbn [fst] in Hv. fold i j len x bptToken in Hv. fold amountsOut in Hv.
    rewrite <- Hv.
    destruct r as [in18|e]; cbn [mbind result_bind]; [|done].
    rewrite bind_liftR_run.
    destruct (TokenAmount.fromScale18Amount tokenIn in18 true)
      as [amountIn|e]; cbn [mbind result_bind]; [|done].
    rewrite bind_liftR_run.
    destruct (Stable.addSwapFeeAmount p amountIn) as [withFee|e];
      cbn [mbind result_bind]; [|done].
    by rewrite bind_liftR_run, Hiat.
Qed.

Lemma X21_stable_formula_choice_witness :
  (Stable.swapGivenIn (H := cappedSumMath) Sample.stablePool Sample.tokA
     Sample.tokBPT (mkTokenAmount Sample.tokA 50000000000000000000)
     Sample.stableStore).1
  = (out18 ← (_calcBptOutGivenExactTokensIn (StableMath := cappedSumMath)
                200000 [10000000000000000000; 150000000000000000000]
                [0; 74970000000000000000] 1000000000000000000000
                160000000000000000000 400000000000000).1;
     amountOut ← TokenAmount.fromScale18Amount Sample.tokBPT out18 false;
     TokenAmount.divDownFixed amountOut 1000000000000000000).
Proof.
  destruct (X21_stable_formula_choice cappedSumMath Sample.stableStore
              Sample.stablePool Sample.stableTokens
              [Stable.IsToken Sample.tokenB; Stable.IsToken Sample.tokenA]
              Sample.tokA Sample.tokBPT
              (mkTokenAmount Sample.tokA 50000000000000000000)
              (Stable.IsToken Sample.tokenA) (Stable.IsBPT Sample.tokenBPT)
              (Stable.IsBPT Sample.tokenBPT)
              eq_refl eq_refl eq_refl eq_refl eq_refl) as [Hin _].
  destruct (Hin (mkTokenAmount Sample.tokA 49980000000000000000)
              (mkTokenAmount Sample.tokA 74970000000000000000)
              [10000000000000000000; 150000000000000000000]
              160000000000000000000) as [Heq _].
  - simpl. lia.
  - vm_compute. reflexivity.
  - vm_compute. reflexivity.
  - vm_compute. reflexivity.
  - vm_compute. reflexivity.
  - exact Heq.
Defined.

(* ================================================================== *)
(** * The order of the entries in a raw record *)
(* ================================================================== *)

Lemma NoDup_fmap_elem {A B} (f : A → B) (l : list A) x y :
  NoDup (f <$> l) → x ∈ l → y ∈ l → f x = f y → x = y.
Proof.
  intros Hnd [i Hi]%list_elem_of_lookup [j Hj]%list_elem_of_lookup Heq.
  assert (i = j) as ->.
  { apply (NoDup_lookup (f <$> l) i j (f x)); [done| |].
    - by rewrite list_lookup_fmap, Hi.
    - by rewrite list_lookup_fmap, Hj, Heq. }
  congruence.
Qed.

Lemma sortByIndex_order_free es1 es2 :
  es1 ≡ₚ es2 → NoDup (rt_index <$> es1) → sortByIndex es1 = sortByIndex es2.
Proof.
  intros Hperm Hnd.
  assert (Transitive byIndex) as Htrans
    by (intros x y z; unfold byIndex; lia).
  apply (Sorted_unique_strong byIndex).
  - intros x1 x2 Hx1 Hx2 H12 H21. unfold byIndex in *.
    apply (proj1 (sortByIndex_elem _ _)) in Hx1.
    apply (proj1 (sortByIndex_elem _ _)) in Hx2.
    rewrite <- Hperm in Hx2.
    apply (NoDup_fmap_elem rt_index es1); [done..|lia].
  - apply sortByIndex_sorted.
  - apply sortByIndex_sorted.
  - by rewrite !sortByIndex_perm.
Qed.

(** X22.  The order in which a raw record lists its tokens does not matter
    when their indices are distinct: from two stores that differ only in the
    order of the entries of the record's token array, [fromRawPool] of the
    stable pool and of the linear pool give the same outcome (the same pool,
    or the same exception) and leave the same store. *)
Theorem X22_entry_order_free :
  ∀ (P : Parsers) (K : Constants) es1 es2,
    es1 ≡ₚ es2 → NoDup (rt_index <$> es1) →
    (∀ (h : gmap nat Stable.cell) raw,
       Stable.fromRawPool raw
         (<[Stable.raw_tokens raw := Stable.RawArr es1]> h)
       = Stable.fromRawPool raw
           (<[Stable.raw_tokens raw := Stable.RawArr es2]> h))
    ∧ (∀ (h : gmap nat (list RawToken)) raw,
         Linear.fromRawPool raw (<[Linear.raw_tokens raw := es1]> h)
         = Linear.fromRawPool raw (<[Linear.raw_tokens raw := es2]> h)).
Proof.
  intros P K es1 es2 Hperm Hnd.
  pose proof (sortByIndex_order_free _ _ Hperm Hnd) as Hsort.
  split.
  - intros h raw. unfold Stable.fromRawPool.
    rewrite !bind_run.
    rewrite (readRaw_run _ _ es1) by apply lookup_insert_eq.
    rewrite (readRaw_run _ _ es2) by apply lookup_insert_eq.
    rewrite !bind_run. unfold writeArr.
    by rewrite !insert_insert_eq, Hsort.
  - intros h raw. unfold Linear.fromRawPool.
    rewrite !bind_run. unfold readArr at 1 3.
    rewrite !lookup_insert_eq. rewrite !bind_run.
    unfold writeArr.
    by rewrite !insert_insert_eq, Hsort.
Qed.

Lemma X22_entry_order_free_witness :
  Stable.fromRawPool (H := decimalParsers) (H0 := mainnetConstants)
    Sample.rawStable
    (<[Stable.raw_tokens Sample.rawStable
       := Stable.RawArr Sample.rawEntries]> ∅)
  = Stable.fromRawPool (H := decimalParsers) (H0 := mainnetConstants)
      Sample.rawStable
      (<[Stable.raw_tokens Sample.rawStable
         := Stable.RawArr (reverse Sample.rawEntries)]> ∅).
Proof.
  apply (X22_entry_order_free decimalParsers mainnetConstants
           Sample.rawEntries (reverse Sample.rawEntries)).
  - symmetry. apply reverse_Permutation.
  - apply (bool_decide_unpack _). vm_compute. exact I.
Defined.

(* ================================================================== *)
(** * What the stable factory reads from the record *)
(* ================================================================== *)

Section StableFields.
Context `{Parsers} `{Constants}.

Lemma toPoolToken_fields raw e t :
  Stable.toPoolToken raw e = Ok t →
  Stable.pt_token t
    = mkToken 1 (rt_address e) (rt_decimals e) (rt_symbol e) (rt_name e)
  ∧ parseUnits (rt_balance e) (rt_decimals e) = Ok (Stable.pt_amount t)
  ∧ 0 ≤ Stable.pt_amount t
  ∧ ∀ s, t = Stable.IsToken s →
         rt_address e ≠ Stable.raw_address raw
         ∧ ∃ priceRate,
             truthy (rt_priceRate e) = Some priceRate
             ∧ unsafeFastParseEther priceRate = Ok (Stable.spt_rate s)
             ∧ Stable.spt_scale18 s
               = MathSol.mulDownFixed
                   (Stable.spt_amount s
                    * TokenAmount.scalar (Stable.spt_token s))
                   (Stable.spt_rate s).
Proof.
  unfold Stable.toPoolToken, TokenAmountParse.fromHumanAmount.
  destruct (truthy (rt_priceRate e)) as [priceRate|]; [|done].
  cbn [decimals].
  destruct (parseUnits (rt_balance e) (rt_decimals e)) as [raw0|];
    cbn [mbind result_bind]; [|done].
  destruct (TokenAmount.new _ raw0) as [ta|] eqn:Hta;
    cbn [mbind result_bind]; [|done].
  apply new_inv in Hta as (Htok & Hamt & Hpos).
  destruct (String.eqb_spec (rt_address e) (Stable.raw_address raw))
    as [Heq|Hne].
  - destruct (Stable.newBPT _ _) as [b|] eqn:Hb;
      cbn [mbind result_bind]; [|done].
    intros [= <-]. unfold Stable.newBPT in Hb.
    destruct (TokenAmount.new _ _) as [super|] eqn:Hs;
      cbn [mbind result_bind] in Hb; [|done].
    apply new_inv in Hs as (Hst & Hsa & _). injection Hb as <-.
    cbn [Stable.pt_token Stable.pt_amount Stable.bpt_token
         Stable.bpt_amount].
    rewrite Hst, Hsa, Hamt. by repeat split.
  - destruct (unsafeFastParseEther priceRate) as [rate|] eqn:Hrate;
      cbn [mbind result_bind]; [|done].
    destruct (Stable.newStablePoolToken _ _ _) as [s|] eqn:Hs;
      cbn [mbind result_bind]; [|done].
    intros [= <-]. unfold Stable.newStablePoolToken in Hs.
    destruct (TokenAmount.new _ _) as [super|] eqn:Hsuper;
      cbn [mbind result_bind] in Hs; [|done].
    apply new_inv in Hsuper as (Hst & Hsa & _). injection Hs as <-.
    cbn [Stable.pt_token Stable.pt_amount Stable.spt_token
         Stable.spt_amount Stable.spt_rate Stable.spt_scale18].
    rewrite Hst, Hsa, Hamt.
    split; [done|]. split; [done|]. split; [done|].
    intros s' [= <-]. split; [done|]. exists priceRate.
    cbn [Stable.spt_rate Stable.spt_scale18 Stable.spt_amount
         Stable.spt_token].
    done.
Qed.

End StableFields.

(** X23.  What [StablePool.fromRawPool] puts in the pool it returns: [amp] is
    the record's amp as a bigint times 1000; the fee and the total shares
    are the parsed strings of the record; the address is the beginning of
    the id.  Every token is built on chain 1 with the address, decimals,
    symbol and name of its entry, and its amount is the entry's balance
    parsed in the entry's decimals; an entry with another address than the
    record's becomes a StablePoolToken whose rate is the parsed price rate
    and whose [scale18] is amount * scalar * rate / WAD rounded down. *)
Theorem X23_stable_factory_fields :
  ∀ (P : Parsers) (K : Constants) (h : gmap nat Stable.cell) raw es p h',
    h !! Stable.raw_tokens raw = Some (Stable.RawArr es) →
    Stable.fromRawPool raw h = (Ok p, h') →
    ∃ ts a,
      h' !! Stable.tokens p = Some (Stable.TokArr ts)
      ∧ toBigInt (Stable.raw_amp raw) = Ok a
      ∧ Stable.amp p = a * 1000
      ∧ unsafeFastParseEther (Stable.raw_swapFee raw) = Ok (Stable.swapFee p)
      ∧ unsafeFastParseEther (Stable.raw_totalShares raw)
        = Ok (Stable.totalShares p)
      ∧ Stable.id p = Stable.raw_id raw
      ∧ getPoolAddress (Stable.raw_id raw) = Ok (Stable.poolAddress p)
      ∧ Forall2
          (λ e t,
             Stable.pt_token t
               = mkToken 1 (rt_address e) (rt_decimals e) (rt_symbol e)
                   (rt_name e)
             ∧ parseUnits (rt_balance e) (rt_decimals e)
               = Ok (Stable.pt_amount t)
             ∧ 0 ≤ Stable.pt_amount t
             ∧ ∀ s, t = Stable.IsToken s →
                    rt_address e ≠ Stable.raw_address raw
                    ∧ ∃ priceRate,
                        truthy (rt_priceRate e) = Some priceRate
                        ∧ unsafeFastParseEther priceRate
                          = Ok (Stable.spt_rate s)
                        ∧ Stable.spt_scale18 s
                          = MathSol.mulDownFixed
                              (Stable.spt_amount s
                               * TokenAmount.scalar (Stable.spt_token s))
                              (Stable.spt_rate s))
          (sortByIndex es) ts.
Proof.
  intros P K h raw es p h' Hes Hrun.
  destruct (fromRawPool_Ok _ _ _ _ _ Hes Hrun)
    as (mapped & shares & a & fee & addr & Hmap & Hshares & Ha & Hfee
        & Haddr & Hp).
  cbv zeta in Hp. destruct Hp as [-> ->].
  exists mapped, a.
  cbn [Stable.tokens Stable.amp Stable.swapFee Stable.totalShares Stable.id
       Stable.poolAddress].
  split.
  { rewrite lookup_insert_ne by apply fresh_insert_ne.
    apply lookup_insert_eq. }
  do 6 (split; [done|]).
  apply mapM_Ok_Forall2 in Hmap.
  eapply Forall2_impl; [exact Hmap|].
  intros e t Ht. by apply toPoolToken_fields.
Qed.

Lemma X23_stable_factory_fields_witness :
  ∃ a, toBigInt (Parsers := decimalParsers) (Stable.raw_amp Sample.rawStable)
       = Ok a
       ∧ Stable.amp Sample.stablePool = a * 1000.
Proof.
  destruct (X23_stable_factory_fields decimalParsers mainnetConstants
              Sample.rawStore Sample.rawStable Sample.rawEntries
              Sample.stablePool Sample.stableStore eq_refl
              ltac:(vm_compute; reflexivity))
    as (ts & a & _ & Ha & Hamp & _).
  exists a. split; [exact Ha|exact Hamp].
Defined.

(* ================================================================== *)
(** * Pools of the linear factory quote for chain 1 only *)
(* ================================================================== *)

(** X24.  [LinearPool.fromRawPool] builds the three tokens of the pool on
    chain 1.  The swaps of the pool route by [isEqual], which compares the
    chain too: for an input token of another chain, [swapGivenIn] throws
    'Pool does not contain the tokens provided' and [swapGivenOut] throws,
    even when the token's address is listed, while [getNormalizedLiquidity],
    which compares addresses only, answers. *)
Theorem X24_linear_chain_one :
  ∀ (P : Parsers) (K : Constants) (LM : LinearMath)
    (h : gmap nat (list RawToken)) raw es p h',
    h !! Linear.raw_tokens raw = Some es →
    Linear.fromRawPool raw h = (Ok p, h') →
    Forall (λ t, chainId (token t) = 1) (Linear.tokens p)
    ∧ ∀ tokenIn tokenOut a,
        chainId tokenIn ≠ 1 →
        Linear.swapGivenIn p tokenIn tokenOut a
          = Err PoolDoesNotContainTokens
        ∧ failed (Linear.swapGivenOut p tokenIn tokenOut a)
        ∧ (address tokenIn = address (token (Linear.mainToken p)) →
           Linear.getNormalizedLiquidity p tokenIn tokenIn
           = Ok (amount (Linear.mainToken p))).
Proof.
  intros P K LM h raw es p h' Hes Hrun.
  destruct (linear_fromRawPool_Ok _ _ _ _ _ Hes Hrun)
    as (mT & wT & bT & _ & _ & _ & Hm & Hw & Hb & _).
  split.
  { unfold Linear.tokens. repeat constructor; cbn [token].
    - by rewrite Hm.
    - by rewrite Hw.
    - by rewrite Hb. }
  intros tokenIn tokenOut a Hchain.
  assert (∀ t, chainId t = 1 → isEqual tokenIn t = false) as Hne.
  { intros t Ht. unfold isEqual. rewrite Ht.
    by destruct (Z.eqb_spec (chainId tokenIn) 1). }
  assert (isEqual tokenIn (token (Linear.mainToken p)) = false) as Em
    by (apply Hne; by rewrite Hm).
  assert (isEqual tokenIn (Linear.wt_token (Linear.wrappedToken p)) = false)
    as Ew by (apply Hne; by rewrite Hw).
  assert (isEqual tokenIn (Linear.bpt_token (Linear.bptToken p)) = false)
    as Eb by (apply Hne; by rewrite Hb).
  split; [|split].
  - unfold Linear.swapGivenIn. by rewrite Em, Ew, Eb.
  - unfold Linear.swapGivenOut. cbv zeta. rewrite Em, Ew, Eb.
    destruct (defined _) as [tOut|e]; cbn [mbind result_bind];
      [|by exists e].
    destruct (_ <? _); by eexists.
  - intros Haddr. unfold Linear.getNormalizedLiquidity, Linear.tokens.
    cbn [List.find]. unfold Linear.hasAddress, sameAddress.
    by rewrite Haddr, String.eqb_refl.
Qed.

Lemma X24_linear_chain_one_witness :
  Linear.swapGivenIn (H := parityLinearMath) Sample.linearPool
    (mkToken 5 "0xaa" 18 None None) Sample.tokW
    (mkTokenAmount (mkToken 5 "0xaa" 18 None None) 1)
  = Err PoolDoesNotContainTokens.
Proof.
  assert (Linear.fromRawPool (H := decimalParsers) (H0 := mainnetConstants)
            Sample.rawLinear Sample.rawLinearStore
          = (Ok Sample.linearPool,
             {[ 0%nat := [Sample.rawLinearBPT; Sample.rawMain;
                          Sample.rawWrapped] ]})) as Hrun
    by (vm_compute; reflexivity).
  destruct (X24_linear_chain_one decimalParsers mainnetConstants
              parityLinearMath Sample.rawLinearStore Sample.rawLinear
              Sample.rawLinearEntries Sample.linearPool _ eq_refl Hrun)
    as [_ Hswap].
  apply Hswap. simpl. lia.
Defined.

(* ================================================================== *)
(** * C1: the pool limit *)
(* ================================================================== *)




Section StableLimit.
Context `{StableMath}.
Implicit Types h : gmap nat Stable.cell.


End StableLimit.




(* ================================================================== *)
(** * C7: the pool's own liquidity token *)
(* ================================================================== *)



